(** * Vertex system: orchestration, credit ledger and sleep-time scheduler

    A shallow embedding of the parts of [resource_optimization.py],
    [task_orchestrator.py] and [sleep_optimizer.py] that carry the
    system's accounting and scheduling logic, with the properties the
    specification states about them.

    Conventions of the embedding.
    - Python objects mutated in place become explicit state passing: an
      operation takes the object's state and returns the new state next
      to its return value.
    - A raised exception is a value of a sum type carrying [str(e)].
    - Python floats are binary64 numbers. A float is taken as the
      rational number it stands for; an addition, subtraction,
      multiplication or division of floats gives the exact result
      rounded to the nearest binary64 number, a tie to the even one
      ([fl]), and comparisons are exact. Results beyond the binary64
      range, infinities other than the one the selector writes itself,
      and NaN are outside the model.
    - [time.time()] and [datetime.now()] are read from an argument where a
      record stores them and are left out where only a timestamp field of
      a task is written. *)

From Stdlib Require Import ZArith QArith Lqa Qround Qpower Ascii String OrderedTypeEx.
From stdpp Require Import gmap strings list.

Local Open Scope Z_scope.

(* stdpp's solvers clear hypotheses by name. *)
#[local] Set Warnings "-clear-no-such-hyp".

(** ** Floating-point numbers *)

(** Round to the nearest integer, a tie to the even one. *)
Definition rne (q : Q) : Z :=
  let f := Qfloor q in
  match (q - inject_Z f ?= 1 # 2)%Q with
  | Lt => f
  | Gt => f + 1
  | Eq => if Z.even f then f else f + 1
  end.

(** The [k] with 2^k <= x < 2^(k+1), for a positive [x]. *)
Definition ilog2 (x : Q) : Z :=
  let k := Z.log2 (Qnum x) - Z.log2 (Z.pos (Qden x)) in
  if Qle_bool (2 ^ k) x then k else k - 1.

(** The exponent of the last place of a binary64 number of the size of
    [x]: 53 significant bits, and no exponent below -1074. *)
Definition ulp_exponent (x : Q) : Z := Z.max (ilog2 x - 52) (-1074).

Definition round_pos (x : Q) : Q :=
  let e := ulp_exponent x in
  Qred (inject_Z (rne (x / 2 ^ e)) * 2 ^ e).

(** The binary64 number nearest to [x]: what a float operation with the
    exact result [x] returns, and the value of a decimal literal. *)
Definition fl (x : Q) : Q :=
  match Qnum x with
  | 0 => 0%Q
  | Z.pos _ => round_pos x
  | Z.neg _ => (- round_pos (- x))%Q
  end.

(** A number that binary64 holds. *)
Definition representable (x : Q) : Prop := (fl x == x)%Q.

(** [float(n)] for an integer [n] *)
Definition float_of (n : Z) : Q := fl (inject_Z n).

(** ** Comparisons as the code writes them *)

Definition Qgtb (x y : Q) : bool := negb (Qle_bool x y).
Definition Qltb (x y : Q) : bool := negb (Qle_bool y x).
Definition Qgeb (x y : Q) : bool := Qle_bool y x.

(** ** Strings as the code uses them

    Python strings are taken as byte strings; [lower] is [str.lower] on
    the ASCII letters, which is all the searched words need. *)

Definition lower_ascii (c : ascii) : ascii :=
  let n := N_of_ascii c in
  if ((65 <=? n) && (n <=? 90))%N then ascii_of_N (n + 32) else c.

Fixpoint lower (s : string) : string :=
  match s with
  | EmptyString => EmptyString
  | String c s' => String (lower_ascii c) (lower s')
  end.

(** [needle in hay] *)
Fixpoint contains (needle hay : string) : bool :=
  String.prefix needle hay ||
  match hay with
  | EmptyString => false
  | String _ hay' => contains needle hay'
  end.

(** ** model_provider.py: the provider interface, its registry and the roles *)

Module ModelProviderInterface.

Inductive ModelCapability :=
  | TEXT_GENERATION | CODE_GENERATION | SUMMARIZATION | TRANSLATION
  | CLASSIFICATION | QUESTION_ANSWERING | IMAGE_GENERATION
  | AUDIO_GENERATION | MULTIMODAL.

#[global] Instance ModelCapability_eq_dec : EqDecision ModelCapability.
Proof. solve_decision. Defined.

Inductive ModelRole :=
  | ORCHESTRATOR | EXECUTOR | ANALYZER | GENERATOR | VALIDATOR | OPTIMIZER.

(** The methods of [ModelProvider] the engine calls.
    [list_available_models] gives the "id" of each model dictionary, in
    the order of the list. [estimate_cost] is [None] where the provider
    raises; its prompt argument is the selector's fixed probe prompt.
    [execute_prompt] answers with the "text" of the response ([inr]) or
    raises ([inl], carrying [str(e)]); a provider is an outside service
    and may answer differently from one call to the next, so the answer
    is a function of the number of executor invocations before this one. *)
Record ModelProvider := mkProvider {
  list_available_models : list string;
  get_model_capabilities : string -> list ModelCapability;
  estimate_cost : string -> option Q;
  execute_prompt : nat -> string -> string -> string + string
}.

(** [ProviderRegistry._providers]: a dictionary whose key order
    ([list_providers]) is the order of registration. *)
Abbreviation ProviderRegistry := (list (string * ModelProvider)).

Fixpoint get_provider (reg : ProviderRegistry) (provider_id : string)
    : option ModelProvider :=
  match reg with
  | [] => None
  | (k, p) :: reg' =>
      if decide (k = provider_id) then Some p else get_provider reg' provider_id
  end.

Definition list_providers (reg : ProviderRegistry) : list string := map fst reg.

(** [register_provider]: [None] stands for the [ValueError] on a
    duplicate id. *)
Definition register_provider (provider_id : string) (p : ModelProvider)
    (reg : ProviderRegistry) : option ProviderRegistry :=
  match get_provider reg provider_id with
  | Some _ => None
  | None => Some (reg ++ [(provider_id, p)])
  end.

(** [ModelRoleManager]: [role_assignments] gives, for a role, the list
    of (provider id, model id) in the order of assignment; a role that is
    not a key of the dictionary has the empty list. *)
Record ModelRoleManager := {
  role_assignments : ModelRole -> list (string * string)
}.

Definition role_name (role : ModelRole) : string :=
  match role with
  | ORCHESTRATOR => "ModelRole.ORCHESTRATOR"
  | EXECUTOR => "ModelRole.EXECUTOR"
  | ANALYZER => "ModelRole.ANALYZER"
  | GENERATOR => "ModelRole.GENERATOR"
  | VALIDATOR => "ModelRole.VALIDATOR"
  | OPTIMIZER => "ModelRole.OPTIMIZER"
  end.

(** [get_best_model_for_role]: the first candidate, or the [ValueError]. *)
Definition get_best_model_for_role (rm : ModelRoleManager) (role : ModelRole)
    : string + string * string :=
  match role_assignments rm role with
  | [] => inl ("No models available for role: " +:+ role_name role)
  | c :: _ => inr c
  end.


#[global] Instance ModelRole_eq_dec : EqDecision ModelRole.
Proof. solve_decision. Defined.

(** [get_provider_for_capability]: the providers, in registry order, one
    of whose models lists the capability (the inner loop stops at the
    first such model). *)
Definition get_provider_for_capability (reg : ProviderRegistry)
    (capability : ModelCapability) : list string :=
  fold_left (fun matching_providers e =>
    if existsb (fun model_id =>
         bool_decide (capability ∈ get_model_capabilities (snd e) model_id))
         (list_available_models (snd e))
    then matching_providers ++ [fst e] else matching_providers)
    reg [].

(** [ModelRoleManager.__init__] *)
Definition new_role_manager : ModelRoleManager :=
  {| role_assignments := fun _ => [] |}.

(** [assign_role] *)
Definition assign_role (role : ModelRole) (provider_id model_id : string)
    (rm : ModelRoleManager) : ModelRoleManager :=
  {| role_assignments := fun r =>
       if decide (r = role) then role_assignments rm r ++ [(provider_id, model_id)]
       else role_assignments rm r |}.

(** [get_models_for_role]: the dictionaries carry the two ids of each pair. *)
Definition get_models_for_role (rm : ModelRoleManager) (role : ModelRole)
    : list (string * string) :=
  role_assignments rm role.

(** The body of the inner loop of [auto_assign_roles] for one model. *)
Definition assign_by_capabilities (provider_id model_id : string)
    (capabilities : list ModelCapability) (rm : ModelRoleManager)
    : ModelRoleManager :=
  let rm1 := if bool_decide (CODE_GENERATION ∈ capabilities)
             then assign_role EXECUTOR provider_id model_id rm else rm in
  let rm2 := if bool_decide (SUMMARIZATION ∈ capabilities)
             then assign_role ANALYZER provider_id model_id rm1 else rm1 in
  let rm3 := if bool_decide (TEXT_GENERATION ∈ capabilities)
             then assign_role GENERATOR provider_id model_id rm2 else rm2 in
  if (3 <=? length capabilities)%nat
  then assign_role ORCHESTRATOR provider_id model_id rm3 else rm3.

(** [auto_assign_roles]: the assignments held before are dropped. The
    lookup of a listed id cannot raise. *)
Definition auto_assign_roles (reg : ProviderRegistry) (rm : ModelRoleManager)
    : ModelRoleManager :=
  fold_left (fun rm provider_id =>
    match get_provider reg provider_id with
    | None => rm
    | Some provider =>
        fold_left (fun rm model_id =>
          assign_by_capabilities provider_id model_id
            (get_model_capabilities provider model_id) rm)
          (list_available_models provider) rm
    end)
    (list_providers reg) new_role_manager.
End ModelProviderInterface.

(** ** resource_optimization.py: CreditManager *)

Module ResourceOptimization.
Import ModelProviderInterface.

(** An entry of [usage_history]. The "allocate" dictionary carries the
    resulting balance, the "use" dictionary the remaining allocation. *)
Inductive UsageEntry :=
  | AllocateEntry (timestamp : Q) (component_id : string) (amount : Q) (balance : Q)
  | UseEntry (timestamp : Q) (component_id : string) (amount : Q)
             (allocation_remaining : Q).

Record CreditManager := mkCreditManager {
  balance : Q;
  budget_limit : option Q;
  usage_history : list UsageEntry;
  allocations : gmap string Q
}.

(** [CreditManager.__init__] *)
Definition new_manager (initial_balance : Q) (limit : option Q) : CreditManager :=
  {| balance := initial_balance; budget_limit := limit;
     usage_history := []; allocations := ∅ |}.

(** [self.allocations.get(component_id, 0.0)] *)
Definition get_allocation (self : CreditManager) (component_id : string) : Q :=
  default 0%Q (allocations self !! component_id).

Definition get_balance (self : CreditManager) : Q := balance self.

(** The guard of [allocate_credits]:
    [self.budget_limit is not None and self.balance + amount > self.budget_limit] *)
Definition over_budget (self : CreditManager) (amount : Q) : bool :=
  match budget_limit self with
  | Some cap => Qgtb (fl (balance self + amount)) cap
  | None => false
  end.

Definition allocate_credits (now : Q) (component_id : string) (amount : Q)
    (self : CreditManager) : CreditManager * bool :=
  if over_budget self amount then (self, false)
  else
    let allocations' :=
      <[component_id := fl (get_allocation self component_id + amount)]>
        (allocations self) in
    let balance' := fl (balance self + amount) in
    ({| balance := balance';
        budget_limit := budget_limit self;
        usage_history :=
          usage_history self ++ [AllocateEntry now component_id amount balance'];
        allocations := allocations' |}, true).

Definition use_credits (now : Q) (component_id : string) (amount : Q)
    (self : CreditManager) : CreditManager * bool :=
  let allocation := get_allocation self component_id in
  if Qltb allocation amount then (self, false)
  else
    let remaining := fl (allocation - amount) in
    ({| balance := balance self;
        budget_limit := budget_limit self;
        usage_history :=
          usage_history self ++ [UseEntry now component_id amount remaining];
        allocations := <[component_id := remaining]> (allocations self) |}, true).

(** A call of one of the two mutating operations, for sequences of calls. *)
Inductive Call :=
  | Allocate (now : Q) (component_id : string) (amount : Q)
  | Use (now : Q) (component_id : string) (amount : Q).


Definition run_call (c : Call) (self : CreditManager) : CreditManager * bool :=
  match c with
  | Allocate now cid a => allocate_credits now cid a self
  | Use now cid a => use_credits now cid a self
  end.

Definition run_calls (cs : list Call) (self : CreditManager) : CreditManager :=
  fold_left (fun m c => fst (run_call c m)) cs self.

(** *** CostAwareSelector *)

Record CacheEntry := { cost : Q; cached_at : Q }.

Record CostAwareSelector := mkSelector {
  provider_registry : ProviderRegistry;
  credit_manager : CreditManager;
  cost_cache : gmap (string * string) CacheEntry
}.

(** The [requirements] dictionary: the keys "capabilities" and
    "max_cost", each of which may be absent. *)
Record Requirements := {
  capabilities : option (list ModelCapability);
  max_cost : option Q
}.

(** A cost that may be [float("inf")], written [None]. *)
Definition cost_min (a b : option Q) : option Q :=
  match a, b with
  | None, _ => b
  | Some _, None => a
  | Some x, Some y => if Qltb y x then Some y else Some x
  end.

(** [all(cap in model_capabilities for cap in requirements["capabilities"])] *)
Definition model_meets (p : ModelProvider) (model_id : string)
    (caps : list ModelCapability) : bool :=
  forallb (fun cap => bool_decide (cap ∈ get_model_capabilities p model_id)) caps.

(** The loop of [_estimate_provider_cost] over the provider's models. *)
Fixpoint estimate_models (now : Q) (provider_id : string) (p : ModelProvider)
    (caps : option (list ModelCapability)) (models : list string)
    (cache : gmap (string * string) CacheEntry) (min_cost : option Q)
    : gmap (string * string) CacheEntry * option Q :=
  match models with
  | [] => (cache, min_cost)
  | model_id :: rest =>
      if negb (match caps with Some cs => model_meets p model_id cs | None => true end)
      then estimate_models now provider_id p caps rest cache min_cost
      else
        match cache !! (provider_id, model_id) with
        | Some e =>
            estimate_models now provider_id p caps rest cache
              (cost_min min_cost (Some (cost e)))
        | None =>
            match estimate_cost p model_id with
            | Some c =>
                estimate_models now provider_id p caps rest
                  (<[(provider_id, model_id) := {| cost := c; cached_at := now |}]> cache)
                  (cost_min min_cost (Some c))
            | None =>
                estimate_models now provider_id p caps rest cache
                  (cost_min min_cost None)
            end
        end
  end.

Definition _estimate_provider_cost (now : Q) (provider_id : string)
    (p : ModelProvider) (caps : option (list ModelCapability))
    (cache : gmap (string * string) CacheEntry)
    : gmap (string * string) CacheEntry * Q :=
  let '(cache', min_cost) :=
    estimate_models now provider_id p caps (list_available_models p) cache None in
  (cache', default 1%Q min_cost).

(** [provider_costs.sort(key=lambda x: x[2])]: the sort is stable, and
    under a total order of the keys the stable sorted arrangement of a
    list is unique; insertion after the equal keys computes it. *)
Fixpoint insert_by_cost {A} (x : A * Q) (l : list (A * Q)) : list (A * Q) :=
  match l with
  | [] => [x]
  | y :: l' => if Qltb (snd x) (snd y) then x :: y :: l' else y :: insert_by_cost x l'
  end.

Definition sort_by_cost {A} (l : list (A * Q)) : list (A * Q) :=
  fold_left (fun acc x => insert_by_cost x acc) l [].

(** The loop of [_rank_by_cost] that fills [provider_costs]. *)
Fixpoint rank_loop (now : Q) (caps : list ModelCapability) (mc : option Q)
    (candidates : list (string * ModelProvider))
    (cache : gmap (string * string) CacheEntry)
    : gmap (string * string) CacheEntry * list ((string * ModelProvider) * Q) :=
  match candidates with
  | [] => (cache, [])
  | (pid, p) :: rest =>
      let '(cache1, c) := _estimate_provider_cost now pid p (Some caps) cache in
      let '(cache2, costs) := rank_loop now caps mc rest cache1 in
      if match mc with Some m => Qgtb c m | None => false end
      then (cache2, costs)
      else (cache2, ((pid, p), c) :: costs)
  end.

Definition _rank_by_cost (now : Q) (candidates : list (string * ModelProvider))
    (caps : list ModelCapability) (mc : option Q)
    (cache : gmap (string * string) CacheEntry)
    : gmap (string * string) CacheEntry * list (string * ModelProvider) :=
  let '(cache', costs) := rank_loop now caps mc candidates cache in
  (cache', map fst (sort_by_cost costs)).

(** The capability test of [select_provider]: for each required
    capability, the first model of the provider that lists it. *)
Definition has_all_capabilities (p : ModelProvider)
    (required : list ModelCapability) : bool :=
  forallb (fun capability =>
    existsb (fun model_id =>
      bool_decide (capability ∈ get_model_capabilities p model_id))
      (list_available_models p)) required.

Definition candidate_providers (reg : ProviderRegistry)
    (required : list ModelCapability) : list (string * ModelProvider) :=
  filter (fun e => has_all_capabilities (snd e) required = true) reg.

Definition NoProvider : string := "No provider found with required capabilities".
Definition NoAffordable : string := "No provider found within cost constraints".
Definition Insufficient : string := "Insufficient credits for provider selection".

(** [select_provider]: [inl msg] is [raise ValueError(msg)]. *)
Definition select_provider (now : Q) (component_id : string) (req : Requirements)
    (self : CostAwareSelector)
    : CostAwareSelector * (string + string * ModelProvider) :=
  let required_capabilities := default [] (capabilities req) in
  let candidates := candidate_providers (provider_registry self) required_capabilities in
  match candidates with
  | [] => (self, inl NoProvider)
  | _ =>
      let '(cache1, ranked) :=
        _rank_by_cost now candidates required_capabilities (max_cost req)
          (cost_cache self) in
      match ranked with
      | [] =>
          ({| provider_registry := provider_registry self;
              credit_manager := credit_manager self;
              cost_cache := cache1 |}, inl NoAffordable)
      | (provider_id, provider) :: _ =>
          let '(cache2, estimated_cost) :=
            _estimate_provider_cost now provider_id provider (capabilities req) cache1 in
          if Qltb (get_allocation (credit_manager self) component_id) estimated_cost
          then
            let '(cm', ok) :=
              allocate_credits now component_id estimated_cost (credit_manager self) in
            ({| provider_registry := provider_registry self;
                credit_manager := cm';
                cost_cache := cache2 |},
             if ok then inr (provider_id, provider) else inl Insufficient)
          else
            ({| provider_registry := provider_registry self;
                credit_manager := credit_manager self;
                cost_cache := cache2 |}, inr (provider_id, provider))
      end
  end.


(** *** The usage report *)

Definition entry_component (e : UsageEntry) : string :=
  match e with AllocateEntry _ c _ _ | UseEntry _ c _ _ => c end.

Definition entry_timestamp (e : UsageEntry) : Q :=
  match e with AllocateEntry t _ _ _ | UseEntry t _ _ _ => t end.

Definition entry_amount (e : UsageEntry) : Q :=
  match e with AllocateEntry _ _ a _ | UseEntry _ _ a _ => a end.

(** [entry["action"] == "allocate"] and [entry["action"] == "use"] *)
Definition is_allocate (e : UsageEntry) : bool :=
  match e with AllocateEntry _ _ _ _ => true | UseEntry _ _ _ _ => false end.

Definition is_use (e : UsageEntry) : bool := negb (is_allocate e).

(** The builtin [sum] on floats. CPython adds the values from left to
    right, each addition rounded ([left_to_right]); from version 3.12 on
    it carries a compensation term along and rounds at the end. The
    functions that call [sum] take it as [float_sum], so that what is
    proved of them holds of either. *)
Definition left_to_right (values : list Q) : Q :=
  fold_left (fun acc v => fl (acc + v)) values 0%Q.

Section Sum.
Variable float_sum : list Q -> Q.

(** [sum(entry["amount"] for entry in entries)] *)
Definition sum_amounts (entries : list UsageEntry) : Q :=
  float_sum (map entry_amount entries).

Record ComponentUsage := { allocated : Q; used : Q }.

(** One turn of the grouping loop of [get_usage_report]. *)
Definition group_entry (component_usage : gmap string ComponentUsage)
    (entry : UsageEntry) : gmap string ComponentUsage :=
  let component_id := entry_component entry in
  let u := default {| allocated := 0; used := 0 |} (component_usage !! component_id) in
  <[component_id :=
      if is_allocate entry
      then {| allocated := fl (allocated u + entry_amount entry); used := used u |}
      else {| allocated := allocated u; used := fl (used u + entry_amount entry) |}]>
    component_usage.

Record UsageReport := {
  total_allocated : Q;
  total_used : Q;
  component_usage : gmap string ComponentUsage;
  current_balance : Q;
  current_allocations : gmap string Q
}.

Definition get_usage_report (component_id : option string)
    (start_time end_time : option Q) (self : CreditManager) : UsageReport :=
  let filtered_history := usage_history self in
  let filtered_history :=
    match component_id with
    | Some c => filter (fun entry => entry_component entry = c) filtered_history
    | None => filtered_history
    end in
  let filtered_history :=
    match start_time with
    | Some t => filter (fun entry => Qgeb (entry_timestamp entry) t = true) filtered_history
    | None => filtered_history
    end in
  let filtered_history :=
    match end_time with
    | Some t => filter (fun entry => Qle_bool (entry_timestamp entry) t = true) filtered_history
    | None => filtered_history
    end in
  {| total_allocated := sum_amounts (filter (fun e => is_allocate e = true) filtered_history);
     total_used := sum_amounts (filter (fun e => is_use e = true) filtered_history);
     component_usage := fold_left group_entry filtered_history ∅;
     current_balance := balance self;
     current_allocations := allocations self |}.

(** *** PredictiveBatchScheduler

    Batch sizes and priorities are Python integers; execution times,
    deadlines and resource amounts are floats. An integer that meets a
    float in an operation is converted first ([float_of]); two integers
    divide to the float nearest to their quotient. *)

(** An entry of [workload_history]. *)
Record WorkloadEntry := {
  timestamp : Q;
  batch_size : Z;
  execution_time : Q;
  resource_usage : gmap string Q
}.

Inductive ScheduleStatus := scheduled | executing.

(** [f"batch_{int(time.time())}_{len(self.current_schedule)}"]: the two
    integers the string is built from; the text determines them. *)
Definition ScheduleId : Type := Z * nat.

(** An entry of [current_schedule]; the fields "component_id",
    "batch_size", "priority" and "status" carry the prefix [entry_]. *)
Record ScheduleEntry := {
  schedule_id : ScheduleId;
  entry_component_id : string;
  entry_batch_size : Z;
  entry_priority : Z;
  deadline : option Q;
  predicted_time : Q;
  predicted_resources : gmap string Q;
  scheduled_at : Q;
  entry_status : ScheduleStatus
}.

Record PredictiveBatchScheduler := {
  scheduler_credit_manager : CreditManager;
  workload_history : list WorkloadEntry;
  current_schedule : list ScheduleEntry
}.

(** [PredictiveBatchScheduler.__init__] *)
Definition new_batch_scheduler (cm : CreditManager) : PredictiveBatchScheduler :=
  {| scheduler_credit_manager := cm; workload_history := []; current_schedule := [] |}.

(** [self.workload_history[-1000:]] when the length exceeds 1000 *)
Definition trim_history (h : list WorkloadEntry) : list WorkloadEntry :=
  if (1000 <? length h)%nat then drop (length h - 1000) h else h.

Definition record_workload (now : Q) (size : Z) (time : Q)
    (usage : gmap string Q) (self : PredictiveBatchScheduler)
    : PredictiveBatchScheduler :=
  {| scheduler_credit_manager := scheduler_credit_manager self;
     workload_history :=
       trim_history (workload_history self
                     ++ [{| timestamp := now; batch_size := size;
                            execution_time := time; resource_usage := usage |}]);
     current_schedule := current_schedule self |}.

(** [0.8 * batch_size <= entry["batch_size"] <= 1.2 * batch_size] *)
Definition similar (size : Z) (entry : WorkloadEntry) : bool :=
  Qle_bool (fl (fl (4 # 5) * float_of size)) (inject_Z (batch_size entry))
  && Qle_bool (inject_Z (batch_size entry)) (fl (fl (6 # 5) * float_of size)).

Definition similar_batches (size : Z) (self : PredictiveBatchScheduler)
    : list WorkloadEntry :=
  filter (fun entry => similar size entry = true) (workload_history self).

(** [min(rest, key=...)] with [best] the least so far: the first of the
    least elements. *)
Fixpoint min_by {A} (key : A -> Z) (best : A) (rest : list A) : A :=
  match rest with
  | [] => best
  | x :: rest' => min_by key (if key x <? key best then x else best) rest'
  end.

(** [closest_entry]; the history is not empty where it is called. *)
Definition closest_entry (size : Z) (h : list WorkloadEntry) : option WorkloadEntry :=
  match h with
  | [] => None
  | e :: h' => Some (min_by (fun entry => Z.abs (batch_size entry - size)) e h')
  end.

Definition ZeroDivision : string := "division by zero".

(** [sum(values) / n] *)
Definition average (values : list Q) (n : nat) : Q :=
  fl (float_sum values / float_of (Z.of_nat n)).

(** [predict_execution_time]: [inl] is the [ZeroDivisionError] of the
    scale factor. *)
Definition predict_execution_time (size : Z) (self : PredictiveBatchScheduler)
    : string + Q :=
  match workload_history self with
  | [] => inr (fl (float_of size * fl (1 # 10)))
  | _ =>
      match similar_batches size self with
      | (_ :: _) as sim => inr (average (map execution_time sim) (length sim))
      | [] =>
          match closest_entry size (workload_history self) with
          | None => inl ZeroDivision
          | Some closest =>
              if decide (batch_size closest = 0) then inl ZeroDivision
              else
                let scale_factor :=
                  fl (inject_Z size / inject_Z (batch_size closest)) in
                inr (fl (execution_time closest * scale_factor))
          end
      end
  end.

(** [predict_resource_usage] *)
Definition predict_resource_usage (size : Z) (self : PredictiveBatchScheduler)
    : string + gmap string Q :=
  match workload_history self with
  | [] =>
      inr (<["compute" := fl (float_of size * fl (1 # 20))]>
           (<["memory" := inject_Z (size * 10)]>
            (<["credits" := fl (float_of size * fl (1 # 100))]> ∅)))
  | _ =>
      match similar_batches size self with
      | (first :: _) as sim =>
          inr (map_imap (fun resource _ =>
                 Some (average
                         (map (fun entry =>
                                 default 0%Q (resource_usage entry !! resource)) sim)
                         (length sim)))
                 (resource_usage first))
      | [] =>
          match closest_entry size (workload_history self) with
          | None => inl ZeroDivision
          | Some closest =>
              if decide (batch_size closest = 0) then inl ZeroDivision
              else
                let scale_factor :=
                  fl (inject_Z size / inject_Z (batch_size closest)) in
                inr ((fun value => fl (value * scale_factor)) <$> resource_usage closest)
          end
      end
  end.

(** The key of [_sort_schedule]; [None] as a deadline is [float("inf")]. *)
Definition sort_key (entry : ScheduleEntry) : Z * option Q :=
  (- entry_priority entry, deadline entry).

Definition deadline_ltb (a b : option Q) : bool :=
  match a, b with
  | Some x, Some y => Qltb x y
  | Some _, None => true
  | None, _ => false
  end.

Definition deadline_eqb (a b : option Q) : bool :=
  match a, b with
  | Some x, Some y => Qeq_bool x y
  | None, None => true
  | _, _ => false
  end.

(** The order of Python tuples on the keys. *)
Definition key_ltb (k1 k2 : Z * option Q) : bool :=
  if fst k1 =? fst k2 then deadline_ltb (snd k1) (snd k2) else fst k1 <? fst k2.

(** [self.current_schedule.sort(key=sort_key)]: the sort is stable;
    insertion after the entries whose key is not greater computes it. *)
Fixpoint insert_by_key (x : ScheduleEntry) (l : list ScheduleEntry)
    : list ScheduleEntry :=
  match l with
  | [] => [x]
  | y :: l' =>
      if key_ltb (sort_key x) (sort_key y) then x :: y :: l'
      else y :: insert_by_key x l'
  end.

Definition _sort_schedule (l : list ScheduleEntry) : list ScheduleEntry :=
  fold_left (fun acc x => insert_by_key x acc) l [].

Definition InsufficientBatch : string := "Insufficient credits for batch scheduling".

(** [int(time.time())] *)
Definition int_of (x : Q) : Z := Z.quot (Qnum x) (Z.pos (Qden x)).

(** [schedule_batch]: [inl msg] is the exception raised, [ValueError]
    for the credits and [ZeroDivisionError] from the predictions. *)
Definition schedule_batch (now : Q) (component_id : string) (size : Z)
    (priority : Z) (limit : option Q) (self : PredictiveBatchScheduler)
    : PredictiveBatchScheduler * (string + ScheduleEntry) :=
  match predict_resource_usage size self with
  | inl e => (self, inl e)
  | inr resources =>
      match predict_execution_time size self with
      | inl e => (self, inl e)
      | inr time =>
          let required_credits := default 0%Q (resources !! "credits") in
          let cm := scheduler_credit_manager self in
          let '(cm', ok) :=
            if negb (Qgeb (get_allocation cm component_id) required_credits)
            then allocate_credits now component_id required_credits cm
            else (cm, true) in
          if negb ok
          then ({| scheduler_credit_manager := cm';
                   workload_history := workload_history self;
                   current_schedule := current_schedule self |},
                inl InsufficientBatch)
          else
            let schedule_entry :=
              {| schedule_id := (int_of now, length (current_schedule self));
                 entry_component_id := component_id;
                 entry_batch_size := size;
                 entry_priority := priority;
                 deadline := limit;
                 predicted_time := time;
                 predicted_resources := resources;
                 scheduled_at := now;
                 entry_status := scheduled |} in
            ({| scheduler_credit_manager := cm';
                workload_history := workload_history self;
                current_schedule :=
                  _sort_schedule (current_schedule self ++ [schedule_entry]) |},
             inr schedule_entry)
      end
  end.

Definition with_entry_status (st : ScheduleStatus) (e : ScheduleEntry)
    : ScheduleEntry :=
  {| schedule_id := schedule_id e;
     entry_component_id := entry_component_id e;
     entry_batch_size := entry_batch_size e;
     entry_priority := entry_priority e;
     deadline := deadline e;
     predicted_time := predicted_time e;
     predicted_resources := predicted_resources e;
     scheduled_at := scheduled_at e;
     entry_status := st |}.

(** [get_next_batch]: the head of the schedule, which stays in the
    schedule with its status set to "executing". *)
Definition get_next_batch (self : PredictiveBatchScheduler)
    : PredictiveBatchScheduler * option ScheduleEntry :=
  match current_schedule self with
  | [] => (self, None)
  | next_batch :: rest =>
      let next_batch := with_entry_status executing next_batch in
      ({| scheduler_credit_manager := scheduler_credit_manager self;
          workload_history := workload_history self;
          current_schedule := next_batch :: rest |}, Some next_batch)
  end.

(** The loop of [complete_batch]: the entries before the first one with
    the id, that entry, and the entries after it. *)
Fixpoint find_entry (id : ScheduleId) (l : list ScheduleEntry)
    : option (list ScheduleEntry * ScheduleEntry * list ScheduleEntry) :=
  match l with
  | [] => None
  | entry :: rest =>
      if decide (schedule_id entry = id) then Some ([], entry, rest)
      else
        match find_entry id rest with
        | Some (before, found, after) => Some (entry :: before, found, after)
        | None => None
        end
  end.

(** [complete_batch]: [None] is the [ValueError] for an id that is not
    in the schedule. The result of [use_credits] is dropped, and
    [success] is not read. *)
Definition complete_batch (now : Q) (id : ScheduleId) (time : Q)
    (usage : gmap string Q) (success : bool) (self : PredictiveBatchScheduler)
    : option PredictiveBatchScheduler :=
  match find_entry id (current_schedule self) with
  | None => None
  | Some (before, entry, after) =>
      let s1 := record_workload now (entry_batch_size entry) time usage self in
      Some {| scheduler_credit_manager :=
                fst (use_credits now (entry_component_id entry)
                       (default 0%Q (usage !! "credits"))
                       (scheduler_credit_manager s1));
              workload_history := workload_history s1;
              current_schedule := before ++ after |}
  end.

End Sum.

End ResourceOptimization.

(** ** task_orchestrator.py *)

Module TaskOrchestrator.
Import ModelProviderInterface.

Inductive TaskStatus := PENDING | RUNNING | COMPLETED | FAILED | CANCELLED.

#[global] Instance TaskStatus_eq_dec : EqDecision TaskStatus.
Proof. solve_decision. Defined.

Inductive TaskPriority := LOW | MEDIUM | HIGH | CRITICAL.

(** What an executor returns for a task: the "result" text of the parsed
    response. *)
Definition Payload := string.

(** An entry of [execution_trace] (its time fields left out). *)
Inductive TraceRecord :=
  | TraceSuccess (provider model : string)
  | TraceFailure (provider model error : string).

(** [Task]. [input_data] is the printed form of the dictionary, which is
    all the prompt uses; the timeout and the three timestamps are left
    out. *)
Record Task := mkTask {
  task_id : string;
  name : string;
  description : string;
  input_data : string;
  priority : TaskPriority;
  dependencies : list string;
  max_retries : Z;
  status : TaskStatus;
  result : option Payload;
  error : option string;
  retry_count : Z;
  assigned_provider : option string;
  assigned_model : option string;
  execution_trace : list TraceRecord
}.

(** [Task.__init__]: the runtime state of a new task. *)
Definition new_task (id nm descr input : string) (prio : TaskPriority)
    (deps : list string) (retries : Z) : Task :=
  {| task_id := id; name := nm; description := descr; input_data := input;
     priority := prio; dependencies := deps; max_retries := retries;
     status := PENDING; result := None; error := None; retry_count := 0;
     assigned_provider := None; assigned_model := None; execution_trace := [] |}.

(** Assignments to one attribute of a task. *)
Definition with_status (st : TaskStatus) (t : Task) : Task :=
  {| task_id := task_id t; name := name t; description := description t;
     input_data := input_data t; priority := priority t;
     dependencies := dependencies t; max_retries := max_retries t;
     status := st; result := result t; error := error t;
     retry_count := retry_count t; assigned_provider := assigned_provider t;
     assigned_model := assigned_model t; execution_trace := execution_trace t |}.

Definition with_result (r : option Payload) (t : Task) : Task :=
  {| task_id := task_id t; name := name t; description := description t;
     input_data := input_data t; priority := priority t;
     dependencies := dependencies t; max_retries := max_retries t;
     status := status t; result := r; error := error t;
     retry_count := retry_count t; assigned_provider := assigned_provider t;
     assigned_model := assigned_model t; execution_trace := execution_trace t |}.

Definition with_error (e : option string) (t : Task) : Task :=
  {| task_id := task_id t; name := name t; description := description t;
     input_data := input_data t; priority := priority t;
     dependencies := dependencies t; max_retries := max_retries t;
     status := status t; result := result t; error := e;
     retry_count := retry_count t; assigned_provider := assigned_provider t;
     assigned_model := assigned_model t; execution_trace := execution_trace t |}.

Definition with_retry_count (n : Z) (t : Task) : Task :=
  {| task_id := task_id t; name := name t; description := description t;
     input_data := input_data t; priority := priority t;
     dependencies := dependencies t; max_retries := max_retries t;
     status := status t; result := result t; error := error t;
     retry_count := n; assigned_provider := assigned_provider t;
     assigned_model := assigned_model t; execution_trace := execution_trace t |}.

Definition with_assignment (a : option (string * string)) (t : Task) : Task :=
  match a with
  | None => t
  | Some (provider_id, model_id) =>
      {| task_id := task_id t; name := name t; description := description t;
         input_data := input_data t; priority := priority t;
         dependencies := dependencies t; max_retries := max_retries t;
         status := status t; result := result t; error := error t;
         retry_count := retry_count t; assigned_provider := Some provider_id;
         assigned_model := Some model_id; execution_trace := execution_trace t |}
  end.

Definition with_trace_appended (rs : list TraceRecord) (t : Task) : Task :=
  {| task_id := task_id t; name := name t; description := description t;
     input_data := input_data t; priority := priority t;
     dependencies := dependencies t; max_retries := max_retries t;
     status := status t; result := result t; error := error t;
     retry_count := retry_count t; assigned_provider := assigned_provider t;
     assigned_model := assigned_model t;
     execution_trace := execution_trace t ++ rs |}.

(** *** Executors

    One call of [TaskExecutor.execute_task(task)]: what it writes on the
    task (the assigned provider and model, records appended to the
    trace) and whether it returns ([inr]) or raises ([inl], carrying
    [str(e)]). The first argument of an executor is the number of
    executor invocations that came before. *)
Record Attempt := {
  assignment : option (string * string);
  trace : list TraceRecord;
  outcome : string + Payload
}.

Definition TaskExecutor := nat -> Task -> Attempt.

Definition apply_attempt (a : Attempt) (t : Task) : Task :=
  with_trace_appended (trace a) (with_assignment (assignment a) t).

Definition _determine_role_for_task (task : Task) : ModelRole :=
  let d := lower (description task) in
  if contains "analyze" d then ANALYZER
  else if contains "generate" d then GENERATOR
  else if contains "validate" d then VALIDATOR
  else if contains "optimize" d then OPTIMIZER
  else EXECUTOR.

Definition _prepare_prompt_for_task (task : Task) : string :=
  "
        Task: " +:+ name task +:+ "
        
        Description: " +:+ description task +:+ "
        
        Input Data:
        " +:+ input_data task +:+ "
        
        Please execute this task and provide the result.
        ".

Definition dquote : string := String (ascii_of_nat 34) EmptyString.

(** [ModelTaskExecutor.execute_task] *)
Definition ModelTaskExecutor (reg : ProviderRegistry) (rm : ModelRoleManager)
    : TaskExecutor :=
  fun calls task =>
    match get_best_model_for_role rm (_determine_role_for_task task) with
    | inl e => {| assignment := None; trace := []; outcome := inl e |}
    | inr (provider_id, model_id) =>
        match get_provider reg provider_id with
        | None =>
            {| assignment := None; trace := [];
               outcome := inl (dquote +:+ "No provider registered with ID '"
                                 +:+ provider_id +:+ "'" +:+ dquote) |}
        | Some provider =>
            match execute_prompt provider calls model_id
                    (_prepare_prompt_for_task task) with
            | inr text =>
                {| assignment := Some (provider_id, model_id);
                   trace := [TraceSuccess provider_id model_id];
                   outcome := inr text |}
            | inl e =>
                {| assignment := Some (provider_id, model_id);
                   trace := [TraceFailure provider_id model_id e];
                   outcome := inl e |}
            end
        end
    end.

(** *** The orchestrator

    [invoked] is not an attribute of the Python object: it lists the ids
    of the tasks handed to the executor, newest first, and its length is
    the call number the executor is given. *)
Record Orchestrator := mkOrchestrator {
  executor : option TaskExecutor;
  tasks : gmap string Task;
  workflows : gmap string (list string);
  invoked : list string
}.

(** [TaskOrchestrator.__init__]: a registry gives the default executor,
    whose role manager starts without assignments. *)
Definition new_orchestrator (reg : option ProviderRegistry) : Orchestrator :=
  {| executor :=
       match reg with
       | Some r => Some (ModelTaskExecutor r {| role_assignments := fun _ => [] |})
       | None => None
       end;
     tasks := ∅; workflows := ∅; invoked := [] |}.

Definition get_task (self : Orchestrator) (id : string) : option Task :=
  tasks self !! id.

Definition add_task (task : Task) (self : Orchestrator) : Orchestrator * string :=
  ({| executor := executor self;
      tasks := <[task_id task := task]> (tasks self);
      workflows := workflows self;
      invoked := invoked self |}, task_id task).

(** [create_workflow]; the fresh uuid is an argument. *)
Definition create_workflow (workflow_id : string) (ts : list Task)
    (self : Orchestrator) : Orchestrator * string :=
  let self1 := fold_left (fun s t => fst (add_task t s)) ts self in
  ({| executor := executor self1;
      tasks := tasks self1;
      workflows := <[workflow_id := map task_id ts]> (workflows self1);
      invoked := invoked self1 |}, workflow_id).

(** The task object [id] after an update, and the executor log. *)
Definition store (id : string) (t : Task) (log : list string)
    (self : Orchestrator) : Orchestrator :=
  {| executor := executor self;
     tasks := <[id := t]> (tasks self);
     workflows := workflows self;
     invoked := log |}.

(** The dependency loop of [execute_task]: the first dependency that is
    missing from the table or is not COMPLETED. *)
Fixpoint unsatisfied_dependency (self : Orchestrator) (deps : list string)
    : option string :=
  match deps with
  | [] => None
  | dep_id :: rest =>
      match get_task self dep_id with
      | Some dep_task =>
          if decide (status dep_task = COMPLETED)
          then unsatisfied_dependency self rest
          else Some dep_id
      | None => Some dep_id
      end
  end.

(** [self.executor.execute_task(task)] when [self.executor] is [None]. *)
Definition no_executor : Attempt :=
  {| assignment := None; trace := [];
     outcome := inl "'NoneType' object has no attribute 'execute_task'" |}.

(** [await self.executor.execute_task(task)]: the attempt and the log
    of invocations after it. *)
Definition invoke (self : Orchestrator) (id : string) (running : Task)
    : Attempt * list string :=
  match executor self with
  | Some ex => (ex (length (invoked self)) running, id :: invoked self)
  | None => (no_executor, invoked self)
  end.

(** [execute_task]. The method calls itself for a retry; [fuel] bounds
    the depth of these calls and [None] is fuel run out. *)
Fixpoint execute_task_fuel (fuel : nat) (self : Orchestrator) (id : string)
    : option (Orchestrator * (string + Payload)) :=
  match fuel with
  | O => None
  | S fuel' =>
      match get_task self id with
      | None => Some (self, inl ("Task not found: " +:+ id))
      | Some task =>
          match unsatisfied_dependency self (dependencies task) with
          | Some dep_id => Some (self, inl ("Dependency not satisfied: " +:+ dep_id))
          | None =>
              let running := with_status RUNNING task in
              let '(attempt, log) := invoke self id running in
              let ran := apply_attempt attempt running in
              match outcome attempt with
              | inr r =>
                  Some (store id (with_result (Some r) (with_status COMPLETED ran))
                          log self, inr r)
              | inl e =>
                  let failed :=
                    with_error (Some e) (with_retry_count (retry_count ran + 1) ran) in
                  if retry_count failed <? max_retries failed
                  then execute_task_fuel fuel' (store id failed log self) id
                  else Some (store id (with_status FAILED failed) log self, inl e)
              end
          end
      end
  end.

(** Calls of [execute_task] that one call can nest: the retries left. *)
Definition retry_fuel (self : Orchestrator) (id : string) : nat :=
  match get_task self id with
  | Some task => S (Z.to_nat (max_retries task - retry_count task))
  | None => 1
  end.

Definition execute_task (self : Orchestrator) (id : string)
    : option (Orchestrator * (string + Payload)) :=
  execute_task_fuel (retry_fuel self id) self id.

(** [cancel_task] *)
Definition cancel_task (self : Orchestrator) (id : string) : Orchestrator * bool :=
  match get_task self id with
  | None => (self, false)
  | Some task =>
      if bool_decide (status task = PENDING \/ status task = RUNNING)
      then (store id (with_status CANCELLED task) (invoked self) self, true)
      else (self, false)
  end.

(** *** Workflows *)

(** An entry of the [results] dictionary of [execute_workflow]: the
    task's result, or [{"error": str(result)}]. *)
Inductive Entry := Result (r : Payload) | Error (msg : string).

(** The keys of a dictionary filled from a list, in insertion order. *)
Fixpoint dict_keys (l : list string) : list string :=
  match l with
  | [] => []
  | x :: l' => x :: filter (fun y => y <> x) (dict_keys l')
  end.

(** The dependency graph: its keys and, for a key, the [dependencies]
    list of the task (which nothing assigns after [__init__]). *)
Record Graph := {
  graph_keys : list string;
  graph_deps : string -> list string
}.

Definition in_graph (g : Graph) (id : string) : bool :=
  bool_decide (id ∈ graph_keys g).

(** [None] is the [AttributeError] of [task.dependencies] on a task id
    that is not in the table. *)
Definition build_graph (self : Orchestrator) (task_ids : list string)
    : option Graph :=
  if forallb (fun id => bool_decide (is_Some (get_task self id))) task_ids
  then Some {| graph_keys := dict_keys task_ids;
               graph_deps := fun id =>
                 match get_task self id with
                 | Some task => dependencies task
                 | None => []
                 end |}
  else None.

(** [graph[x]["dependents"]] after the loop that populates it: the key
    [t] once for each occurrence of [x] among the dependencies of [t],
    the keys in dictionary order. *)
Definition dependents (g : Graph) (x : string) : list string :=
  flat_map (fun t =>
    flat_map (fun dep_id => if decide (dep_id = x) then [t] else [])
      (graph_deps g t)) (graph_keys g).

Definition initial_ready (g : Graph) : list string :=
  filter (fun t => forallb (fun dep_id => negb (in_graph g dep_id))
                     (graph_deps g t) = true) (graph_keys g).

(** [all(dep_id in results for dep_id in dependent_task.dependencies
         if dep_id in graph)] *)
Definition dependencies_resolved (g : Graph) (results : gmap string Entry)
    (d : string) : bool :=
  forallb (fun dep_id =>
    negb (in_graph g dep_id) || bool_decide (is_Some (results !! dep_id)))
    (graph_deps g d).

(** The loop "Mark dependents as failed". *)
Definition mark_dependents_failed (failed_id : string) (ds : list string)
    (self : Orchestrator) : Orchestrator :=
  fold_left (fun s d =>
    match get_task s d with
    | Some t =>
        store d (with_error (Some ("Dependency failed: " +:+ failed_id))
                   (with_status FAILED t)) (invoked s) s
    | None => s
    end) ds self.

(** One turn of the loop "Process results". *)
Definition process_result (g : Graph)
    (acc : Orchestrator * gmap string Entry * list string)
    (tr : string * (string + Payload))
    : Orchestrator * gmap string Entry * list string :=
  let '(self, results, ready_tasks) := acc in
  let '(id, r) := tr in
  match r with
  | inl e =>
      (mark_dependents_failed id (dependents g id) self,
       <[id := Error e]> results, ready_tasks)
  | inr v =>
      let results' := <[id := Result v]> results in
      (self, results',
       ready_tasks ++
         filter (fun d => dependencies_resolved g results' d = true)
           (dependents g id))
  end.

(** [asyncio.gather] over [execution_tasks], exceptions returned: the
    coroutines are started in list order and, with an executor that does
    not suspend, each runs to its end before the next starts. *)
Fixpoint gather (self : Orchestrator) (ids : list string)
    : option (Orchestrator * list (string + Payload)) :=
  match ids with
  | [] => Some (self, [])
  | id :: rest =>
      match execute_task self id with
      | None => None
      | Some (self1, r) =>
          match gather self1 rest with
          | None => None
          | Some (self2, rs) => Some (self2, r :: rs)
          end
      end
  end.

(** The [while ready_tasks] loop; [None] is fuel run out. *)
Fixpoint workflow_loop (fuel : nat) (g : Graph) (self : Orchestrator)
    (ready_tasks : list string) (results : gmap string Entry)
    : option (Orchestrator * gmap string Entry) :=
  match ready_tasks with
  | [] => Some (self, results)
  | _ =>
      match fuel with
      | O => None
      | S fuel' =>
          match gather self ready_tasks with
          | None => None
          | Some (self1, task_results) =>
              let '(self2, results', ready') :=
                fold_left (process_result g) (zip ready_tasks task_results)
                  (self1, results, []) in
              workflow_loop fuel' g self2 ready' results'
          end
      end
  end.

(** [execute_workflow]: [inl msg] is a raised exception. The loop is
    given one round for each key of the graph. *)
Definition execute_workflow (self : Orchestrator) (workflow_id : string)
    : option (Orchestrator * (string + gmap string Entry)) :=
  match workflows self !! workflow_id with
  | None | Some [] => Some (self, inl ("Workflow not found: " +:+ workflow_id))
  | Some task_ids =>
      match build_graph self task_ids with
      | None => Some (self, inl "'NoneType' object has no attribute 'dependencies'")
      | Some g =>
          match workflow_loop (S (length (graph_keys g))) g self (initial_ready g) ∅ with
          | None => None
          | Some (self', results) => Some (self', inr results)
          end
      end
  end.

(** [cancel_workflow]: [None] is the [ValueError]. *)
Definition cancel_workflow (self : Orchestrator) (workflow_id : string)
    : Orchestrator * option (list string) :=
  match workflows self !! workflow_id with
  | None | Some [] => (self, None)
  | Some task_ids =>
      let '(self', cancelled) :=
        fold_left (fun acc id =>
          let '(s, cancelled_tasks) := acc in
          let '(s', ok) := cancel_task s id in
          (s', if ok then cancelled_tasks ++ [id] else cancelled_tasks))
          task_ids (self, []) in
      (self', Some cancelled)
  end.

End TaskOrchestrator.

(** ** sleep_optimizer.py *)

Module SleepOptimizer.

Inductive TaskPriority := LOW | MEDIUM | HIGH | CRITICAL.

#[global] Instance TaskPriority_eq_dec : EqDecision TaskPriority.
Proof. solve_decision. Defined.

(** [priority.value] *)
Definition value (p : TaskPriority) : Z :=
  match p with LOW => 0 | MEDIUM => 1 | HIGH => 2 | CRITICAL => 3 end.

(** [TaskPriority(v)]: [None] is the [ValueError] for a number that is
    not the value of a member. *)
Definition TaskPriority_of (v : Z) : option TaskPriority :=
  match v with
  | 0 => Some LOW | 1 => Some MEDIUM | 2 => Some HIGH | 3 => Some CRITICAL
  | _ => None
  end.

(** The [status] string of a sleep-time task. *)
Inductive Status := pending | scheduled | running | completed | failed.

#[global] Instance Status_eq_dec : EqDecision Status.
Proof. solve_decision. Defined.

(** [SleepTimeTask] (its metadata and creation time left out). *)
Record SleepTimeTask := mkSleepTimeTask {
  task_id : string;
  name : string;
  description : string;
  priority : TaskPriority;
  estimated_duration : Q;
  estimated_resources : gmap string Q;
  dependencies : list string;
  scheduled_at : option Q;
  started_at : option Q;
  completed_at : option Q;
  status : Status;
  result : option string;
  error : option string
}.

Definition new_task (id nm descr : string) (prio : TaskPriority) (duration : Q)
    (resources : gmap string Q) (deps : list string) : SleepTimeTask :=
  {| task_id := id; name := nm; description := descr; priority := prio;
     estimated_duration := duration; estimated_resources := resources;
     dependencies := deps; scheduled_at := None; started_at := None;
     completed_at := None; status := pending; result := None; error := None |}.

(** *** ResourceMonitor

    The two dictionaries have the keys "cpu", "memory" and "credits" and
    no method adds another. A limit may be [float("inf")], written
    [None]. *)
Record Usage := { cpu : Q; memory : Q; credits : Q }.
Record Limits := { cpu_limit : option Q; memory_limit : option Q;
                   credits_limit : option Q }.

Record ResourceMonitor := {
  resource_usage : Usage;
  resource_limits : Limits
}.

(** [ResourceMonitor.__init__] *)
Definition new_monitor : ResourceMonitor :=
  {| resource_usage := {| cpu := 0; memory := 0; credits := 0 |};
     resource_limits := {| cpu_limit := Some 100%Q; memory_limit := Some 1000%Q;
                           credits_limit := None |} |}.

(** [max(0.0, limit - usage)] *)
Definition headroom (limit : option Q) (usage : Q) : option Q :=
  match limit with
  | None => None
  | Some l => Some (if Qgtb (fl (l - usage)) 0 then fl (l - usage) else 0%Q)
  end.

(** [get_available_resources()[resource]], [None] for a name that is not
    a key; the inner [None] is infinity. *)
Definition available (m : ResourceMonitor) (resource : string)
    : option (option Q) :=
  if decide (resource = "cpu")
  then Some (headroom (cpu_limit (resource_limits m)) (cpu (resource_usage m)))
  else if decide (resource = "memory")
  then Some (headroom (memory_limit (resource_limits m)) (memory (resource_usage m)))
  else if decide (resource = "credits")
  then Some (headroom (credits_limit (resource_limits m)) (credits (resource_usage m)))
  else None.

Definition can_execute_task (m : ResourceMonitor) (task : SleepTimeTask) : bool :=
  forallb (fun kv : string * Q =>
    match available m (fst kv) with
    | Some (Some a) => negb (Qltb a (snd kv))
    | Some None | None => true
    end) (map_to_list (estimated_resources task)).

(** *** The queue

    [heapq] keeps [task_queue] as a binary heap of pairs
    (priority score, task id). The scheduler reads the heap only through
    [task_queue[0]] and [heappop], which give its least pair, so the
    queue is kept here as the sorted list of its pairs: the same pairs
    with the same multiplicities, least first. Pairs compare as Python
    tuples do, the score first and then the id. *)
Definition pair_ltb (a b : Z * string) : bool :=
  (fst a <? fst b) || ((fst a =? fst b) && String.ltb (snd a) (snd b)).

Fixpoint heappush (q : list (Z * string)) (x : Z * string) : list (Z * string) :=
  match q with
  | [] => [x]
  | y :: q' => if pair_ltb y x then y :: heappush q' x else x :: y :: q'
  end.

Definition heappop (q : list (Z * string)) : list (Z * string) := tail q.

(** *** TaskScheduler *)

Record TaskScheduler := mkScheduler {
  resource_monitor : ResourceMonitor;
  task_queue : list (Z * string);
  tasks : gmap string SleepTimeTask;
  scheduled_tasks : gset string;
  completed_tasks : gset string;
  failed_tasks : gset string
}.

Definition new_scheduler (m : ResourceMonitor) : TaskScheduler :=
  {| resource_monitor := m; task_queue := []; tasks := ∅;
     scheduled_tasks := ∅; completed_tasks := ∅; failed_tasks := ∅ |}.

Definition with_queue (q : list (Z * string)) (self : TaskScheduler)
    : TaskScheduler :=
  {| resource_monitor := resource_monitor self; task_queue := q;
     tasks := tasks self; scheduled_tasks := scheduled_tasks self;
     completed_tasks := completed_tasks self; failed_tasks := failed_tasks self |}.

(** [add_task]: [None] is the [ValueError] for an id already present. *)
Definition add_task (task : SleepTimeTask) (self : TaskScheduler)
    : option (TaskScheduler * string) :=
  match tasks self !! task_id task with
  | Some _ => None
  | None =>
      Some ({| resource_monitor := resource_monitor self;
               task_queue := heappush (task_queue self)
                               (- value (priority task), task_id task);
               tasks := <[task_id task := task]> (tasks self);
               scheduled_tasks := scheduled_tasks self;
               completed_tasks := completed_tasks self;
               failed_tasks := failed_tasks self |}, task_id task)
  end.

Definition get_task (self : TaskScheduler) (id : string) : option SleepTimeTask :=
  tasks self !! id.

Definition dependencies_met (self : TaskScheduler) (task : SleepTimeTask) : bool :=
  forallb (fun dep_id => bool_decide (dep_id ∈ completed_tasks self))
    (dependencies task).

Definition mark_scheduled (now : Q) (t : SleepTimeTask) : SleepTimeTask :=
  {| task_id := task_id t; name := name t; description := description t;
     priority := priority t; estimated_duration := estimated_duration t;
     estimated_resources := estimated_resources t;
     dependencies := dependencies t; scheduled_at := Some now;
     started_at := started_at t; completed_at := completed_at t;
     status := scheduled; result := result t; error := error t |}.

(** The outcome of a call that ran to its end. *)
Inductive Outcome :=
  | Returned (task : option SleepTimeTask)
  | KeyError (key : string).

(** [get_next_task]: each turn of its [while] loop takes one unit of
    [fuel]; [None] is fuel run out with the loop still turning. *)
Fixpoint get_next_task_fuel (fuel : nat) (now : Q) (self : TaskScheduler)
    : option (TaskScheduler * Outcome) :=
  match fuel with
  | O => None
  | S fuel' =>
      match task_queue self with
      | [] => Some (self, Returned None)
      | (_, id) :: _ =>
          match tasks self !! id with
          | None => Some (self, KeyError id)
          | Some task =>
              if bool_decide (id ∈ scheduled_tasks self \/ id ∈ completed_tasks self)
              then get_next_task_fuel fuel' now
                     (with_queue (heappop (task_queue self)) self)
              else if negb (dependencies_met self task)
              then get_next_task_fuel fuel' now
                     (with_queue (heappush (heappop (task_queue self))
                                    (- value (priority task), id)) self)
              else if negb (can_execute_task (resource_monitor self) task)
              then Some (self, Returned None)
              else
                let task' := mark_scheduled now task in
                Some ({| resource_monitor := resource_monitor self;
                         task_queue := heappop (task_queue self);
                         tasks := <[id := task']> (tasks self);
                         scheduled_tasks := {[id]} ∪ scheduled_tasks self;
                         completed_tasks := completed_tasks self;
                         failed_tasks := failed_tasks self |},
                      Returned (Some task'))
          end
      end
  end.

(** [mark_task_completed] *)
Definition mark_task_completed (now : Q) (id : string) (res : option string)
    (self : TaskScheduler) : TaskScheduler * bool :=
  match get_task self id with
  | None => (self, false)
  | Some t =>
      let t' :=
        {| task_id := task_id t; name := name t; description := description t;
           priority := priority t; estimated_duration := estimated_duration t;
           estimated_resources := estimated_resources t;
           dependencies := dependencies t; scheduled_at := scheduled_at t;
           started_at := started_at t; completed_at := Some now;
           status := completed; result := res; error := error t |} in
      ({| resource_monitor := resource_monitor self;
          task_queue := task_queue self;
          tasks := <[id := t']> (tasks self);
          scheduled_tasks := scheduled_tasks self ∖ {[id]};
          completed_tasks := {[id]} ∪ completed_tasks self;
          failed_tasks := failed_tasks self |}, true)
  end.

(** The test [error and "critical" not in error.lower()]. *)
Definition requeue_after (err : option string) : bool :=
  match err with
  | None => false
  | Some e =>
      negb (bool_decide (e = EmptyString)) && negb (contains "critical" (lower e))
  end.

(** The task after the first three assignments of [mark_task_failed]. *)
Definition mark_failed (now : Q) (err : option string) (t : SleepTimeTask)
    : SleepTimeTask :=
  {| task_id := task_id t; name := name t; description := description t;
     priority := priority t; estimated_duration := estimated_duration t;
     estimated_resources := estimated_resources t;
     dependencies := dependencies t; scheduled_at := scheduled_at t;
     started_at := started_at t; completed_at := Some now;
     status := failed; result := result t; error := err |}.

(** The task after the assignments of the re-queue branch. *)
Definition reset_pending (p : TaskPriority) (t : SleepTimeTask) : SleepTimeTask :=
  {| task_id := task_id t; name := name t; description := description t;
     priority := p; estimated_duration := estimated_duration t;
     estimated_resources := estimated_resources t;
     dependencies := dependencies t; scheduled_at := None;
     started_at := started_at t; completed_at := None;
     status := pending; result := result t; error := error t |}.

(** [max(0, task.priority.value - 1)] as a member of the enum. *)
Definition lowered (p : TaskPriority) : TaskPriority :=
  default LOW (TaskPriority_of (Z.max 0 (value p - 1))).

(** [mark_task_failed] *)
Definition mark_task_failed (now : Q) (id : string) (err : option string)
    (self : TaskScheduler) : TaskScheduler * bool :=
  match get_task self id with
  | None => (self, false)
  | Some t =>
      let t1 := mark_failed now err t in
      if requeue_after err
      then
        let t2 := reset_pending (lowered (priority t1)) t1 in
        ({| resource_monitor := resource_monitor self;
            task_queue := heappush (task_queue self) (- value (priority t2), id);
            tasks := <[id := t2]> (tasks self);
            scheduled_tasks := scheduled_tasks self ∖ {[id]};
            completed_tasks := completed_tasks self;
            failed_tasks := {[id]} ∪ failed_tasks self |}, true)
      else
        ({| resource_monitor := resource_monitor self;
            task_queue := task_queue self;
            tasks := <[id := t1]> (tasks self);
            scheduled_tasks := scheduled_tasks self ∖ {[id]};
            completed_tasks := completed_tasks self;
            failed_tasks := {[id]} ∪ failed_tasks self |}, true)
  end.


(** *** SleepDetector

    [check_idle_state] reads the monitor's idle status and the clock;
    both readings are arguments here. The attribute [idle_threshold] is
    stored by the constructor and not read by the method. *)
Record SleepDetector := {
  idle_threshold : Q;
  min_idle_time : Q;
  idle_start_time : option Q;
  is_idle : bool
}.

(** [SleepDetector.__init__] *)
Definition new_detector (threshold min_time : Q) : SleepDetector :=
  {| idle_threshold := threshold; min_idle_time := min_time;
     idle_start_time := None; is_idle := false |}.

(** [check_idle_state]: the new state with the "is_idle" and
    "idle_duration" of the returned dictionary. *)
Definition check_idle_state (current_is_idle : bool) (current_time : Q)
    (self : SleepDetector) : SleepDetector * (bool * Q) :=
  let self' :=
    if current_is_idle then
      if negb (is_idle self) then
        match idle_start_time self with
        | None =>
            {| idle_threshold := idle_threshold self;
               min_idle_time := min_idle_time self;
               idle_start_time := Some current_time;
               is_idle := is_idle self |}
        | Some start =>
            if Qgeb (fl (current_time - start)) (min_idle_time self)
            then {| idle_threshold := idle_threshold self;
                    min_idle_time := min_idle_time self;
                    idle_start_time := idle_start_time self;
                    is_idle := true |}
            else self
        end
      else self
    else
      {| idle_threshold := idle_threshold self;
         min_idle_time := min_idle_time self;
         idle_start_time := None;
         is_idle := false |} in
  let idle_duration :=
    match idle_start_time self' with
    | Some start => fl (current_time - start)
    | None => 0%Q
    end in
  (self', (is_idle self', idle_duration)).
End SleepOptimizer.

(** ** batch_controller.py *)

Module MicroBatching.
Import TaskOrchestrator.

Inductive BatchPriority := LOW | NORMAL | HIGH | CRITICAL.

Record BatchConfig := {
  max_batch_size : Z;
  min_batch_size : Z;
  max_wait_time : Q;
  similarity_threshold : Q;
  batch_priority : BatchPriority
}.

(** [BatchConfig()] *)
Definition default_batch_config : BatchConfig :=
  {| max_batch_size := 10; min_batch_size := 1; max_wait_time := 5;
     similarity_threshold := 7 # 10; batch_priority := NORMAL |}.

(** The slices [l[:k]] and [l[k:]] for an integer [k] of either sign. *)
Definition slice_index {A} (l : list A) (k : Z) : nat :=
  Z.to_nat (if k <? 0 then Z.max 0 (Z.of_nat (length l) + k) else k).

Definition slice_to {A} (l : list A) (k : Z) : list A := take (slice_index l k) l.
Definition slice_from {A} (l : list A) (k : Z) : list A := drop (slice_index l k) l.

(** A batch in [active_batches], and one in [completed_batches] with its
    "result" or "error"; the id is built from [int(time.time())] and
    [len(self.active_batches)], and the start and end times are left
    out. *)
Record ActiveBatch := {
  active_batch_id : Z * nat;
  active_tasks : list Task
}.

Record CompletedBatch := {
  completed_batch_id : Z * nat;
  completed_tasks : list Task;
  completed_outcome : string + Payload
}.

(** An entry of the list [process_batches] returns. *)
Record BatchResult := {
  batch_id : Z * nat;
  task_count : nat;
  batch_outcome : string + Payload
}.

(** The attributes of [BatchController] that batching reads and writes.
    Rules are loaded by name at run time; [evaluate rule_id tasks] is
    the size the rule recommends under the system state of the call and
    [None] where loading or evaluating it raises. *)
Record BatchController := {
  pending_tasks : list Task;
  active_batches : list ActiveBatch;
  completed_batches : list CompletedBatch;
  default_config : BatchConfig
}.

Definition new_controller : BatchController :=
  {| pending_tasks := []; active_batches := []; completed_batches := [];
     default_config := default_batch_config |}.

Definition with_pending (l : list Task) (self : BatchController) : BatchController :=
  {| pending_tasks := l; active_batches := active_batches self;
     completed_batches := completed_batches self;
     default_config := default_config self |}.

(** [BatchController.add_task] *)
Definition add_task (task : Task) (self : BatchController) : BatchController :=
  with_pending (pending_tasks self ++ [task]) self.

(** [form_batch] *)
Definition form_batch (config : option BatchConfig) (self : BatchController)
    : BatchController * list Task :=
  match pending_tasks self with
  | [] => (self, [])
  | _ =>
      let config := default (default_config self) config in
      let batch_size :=
        Z.min (max_batch_size config) (Z.of_nat (length (pending_tasks self))) in
      if batch_size <? min_batch_size config then (self, [])
      else
        (with_pending (slice_from (pending_tasks self) batch_size) self,
         slice_to (pending_tasks self) batch_size)
  end.

(** The sizes the rules recommend, in the order of [rule_ids], without
    the rules that raise. *)
Definition recommended (evaluate : string -> list Task -> option Z)
    (rule_ids : list string) (tasks : list Task) : list Z :=
  omap (fun rule_id => evaluate rule_id tasks) rule_ids.

(** [int(x)] for a float [x]: the integer part, towards zero. *)
Definition int_part (x : Q) : Z := Z.quot (Qnum x) (Z.pos (Qden x)).

(** [form_optimal_batch]; [int(sum(batch_sizes) / len(batch_sizes))] is
    the integer part of the float nearest to the quotient. *)
Definition form_optimal_batch (evaluate : string -> list Task -> option Z)
    (rule_ids : list string) (self : BatchController)
    : BatchController * list Task :=
  match pending_tasks self with
  | [] => (self, [])
  | _ =>
      match recommended evaluate rule_ids (pending_tasks self) with
      | [] => form_batch None self
      | batch_sizes =>
          let avg_batch_size :=
            int_part (fl (inject_Z (fold_left Z.add batch_sizes 0)
                          / inject_Z (Z.of_nat (length batch_sizes)))) in
          let batch_size :=
            Z.min avg_batch_size (Z.of_nat (length (pending_tasks self))) in
          (with_pending (slice_from (pending_tasks self) batch_size) self,
           slice_to (pending_tasks self) batch_size)
      end
  end.

(** [int(time.time())] *)
Definition seconds (x : Q) : Z := int_part x.

(** [process_batches]. [processor_func n batch] is what the processor
    answers at its call number [n] of this run, [inl] for an exception;
    [clock n] is the time at turn [n] of the loop; [use_rules] says
    that [rule_ids] and [system_state] are both given and not empty.
    The batch joins [active_batches] while the processor runs and has
    left it when the turn ends; nothing else runs in between. Each turn
    of the [while] loop takes one unit of [fuel]. *)
Fixpoint process_batches_fuel (fuel : nat)
    (processor_func : nat -> list Task -> string + Payload) (clock : nat -> Q)
    (config : option BatchConfig)
    (evaluate : string -> list Task -> option Z) (rule_ids : list string)
    (use_rules : bool) (turn : nat) (results : list BatchResult)
    (self : BatchController) : option (BatchController * list BatchResult) :=
  match fuel with
  | O => None
  | S fuel' =>
      match pending_tasks self with
      | [] => Some (self, results)
      | _ =>
          let '(s1, batch) :=
            if use_rules then form_optimal_batch evaluate rule_ids self
            else form_batch config self in
          match batch with
          | [] => Some (s1, results)
          | _ =>
              let id := (seconds (clock turn), length (active_batches s1)) in
              let answer := processor_func turn batch in
              let s2 :=
                {| pending_tasks := pending_tasks s1;
                   active_batches := active_batches s1;
                   completed_batches :=
                     completed_batches s1
                     ++ [{| completed_batch_id := id; completed_tasks := batch;
                            completed_outcome := answer |}];
                   default_config := default_config s1 |} in
              process_batches_fuel fuel' processor_func clock config evaluate
                rule_ids use_rules (S turn)
                (results ++ [{| batch_id := id; task_count := length batch;
                                batch_outcome := answer |}])
                s2
          end
      end
  end.

(** One turn at most for each pending task, and the last one. *)
Definition process_batches
    (processor_func : nat -> list Task -> string + Payload) (clock : nat -> Q)
    (config : option BatchConfig)
    (evaluate : string -> list Task -> option Z) (rule_ids : list string)
    (use_rules : bool) (self : BatchController)
    : option (BatchController * list BatchResult) :=
  process_batches_fuel (S (length (pending_tasks self))) processor_func clock
    config evaluate rule_ids use_rules 0 [] self.

End MicroBatching.

(** * Scenarios

    The states of the specification's scenarios and the inputs at which
    the properties below are instantiated. *)

Module Scenarios.

Module Ledger.
Import ModelProviderInterface ResourceOptimization.

(** The two scenario states of the budget example. *)
Definition ledger0 : CreditManager := new_manager 0 (Some 100%Q).
Definition ledger1 : CreditManager := fst (allocate_credits 1 "c1" 60 ledger0).
Definition ledger2 : CreditManager := fst (allocate_credits 2 "c1" 50 ledger1).

(** A call whose amount, if it allocates, is not negative. *)
Definition allocates_nonneg (c : Call) : Prop :=
  match c with
  | Allocate _ _ a => (0 <= a)%Q
  | Use _ _ _ => True
  end.


(** Every allocation of the ledger is at least 0. *)
Definition allocations_nonneg (m : CreditManager) : Prop :=
  forall c, (0 <= get_allocation m c)%Q.

(** A ledger without a limit, a negative allocation, and calls with
    amounts that are not negative. *)
Definition open_ledger : CreditManager := new_manager 0 None.
Definition refund : list Call := [Allocate 1 "c" (-5)].
Definition plain_calls : list Call :=
  [Allocate 1 "c" 5; Use 2 "c" 3; Use 3 "c" 4; Allocate 4 "d" 0].

(** A ledger that has reached its limit of 100, and the float 1e-15. *)
Definition full_ledger : CreditManager := fst (allocate_credits 1 "c1" 100 ledger0).
Definition tiny : Q := fl (1 # 1000000000000000).

End Ledger.

Module Selection.
Import ModelProviderInterface ResourceOptimization.

(** A provider with one model that has capability TEXT_GENERATION and
    whose estimate is [c]. *)
Definition text_provider (c : Q) : ModelProvider :=
  {| list_available_models := ["model"];
     get_model_capabilities := fun _ => [TEXT_GENERATION];
     estimate_cost := fun _ => Some c;
     execute_prompt := fun _ _ _ => inr "text" |}.

(** Cost-aware selection: P1 costs 0.5 and P2 costs 1.0; P2 registered
    first. *)
Definition P1 : ModelProvider := text_provider (1 # 2).
Definition P2 : ModelProvider := text_provider 1.
Definition two_providers : CostAwareSelector :=
  {| provider_registry := [("P2", P2); ("P1", P1)];
     credit_manager := new_manager 0 None;
     cost_cache := ∅ |}.
Definition wants_text : Requirements :=
  {| capabilities := Some [TEXT_GENERATION]; max_cost := None |}.
Definition wants_cheap_text : Requirements :=
  {| capabilities := Some [TEXT_GENERATION]; max_cost := Some (3 # 10) |}.

(** A provider whose two capabilities sit on two different models. *)
Definition split_provider : ModelProvider :=
  {| list_available_models := ["writer"; "coder"];
     get_model_capabilities := fun model_id =>
       if decide (model_id = "writer") then [TEXT_GENERATION]
       else [CODE_GENERATION];
     estimate_cost := fun _ => Some (1 # 4);
     execute_prompt := fun _ _ _ => inr "text" |}.
Definition split_selector : CostAwareSelector :=
  {| provider_registry := [("S", split_provider)];
     credit_manager := new_manager 0 None;
     cost_cache := ∅ |}.
Definition wants_both : Requirements :=
  {| capabilities := Some [TEXT_GENERATION; CODE_GENERATION]; max_cost := None |}.

(** The estimate of a provider under a cache, as [_rank_by_cost] asks
    for it. *)
Definition estimate (now : Q) (cache : gmap (string * string) CacheEntry)
    (required : list ModelCapability) (e : string * ModelProvider) : Q :=
  snd (_estimate_provider_cost now (fst e) (snd e) (Some required) cache).

(** [cost > max_cost] does not hold, or no [max_cost] is given. *)
Definition affordable (mc : option Q) (c : Q) : Prop :=
  match mc with Some m => (c <= m)%Q | None => True end.

(** The estimate is above [max_cost]. *)
Definition exceeds (mc : option Q) (c : Q) : Prop :=
  match mc with Some m => (m < c)%Q | None => False end.

(** The test of [_estimate_provider_cost] on a model. *)
Definition eligible (p : ModelProvider) (caps : option (list ModelCapability))
    (model_id : string) : bool :=
  match caps with Some cs => model_meets p model_id cs | None => true end.

(** The least of the provider's own estimates over a list of models,
    [None] when it gives none. *)
Definition least_estimate (p : ModelProvider) (models : list string)
    (start : option Q) : option Q :=
  fold_left (fun acc model_id => cost_min acc (estimate_cost p model_id)) models start.

(** Every provider id is a key of the registry once. *)
Definition registry_ok (reg : ProviderRegistry) : Prop := NoDup (list_providers reg).

(** Two caches hold the same entries for a provider. *)
Definition agree_on (provider_id : string)
    (c1 c2 : gmap (string * string) CacheEntry) : Prop :=
  forall model_id, c1 !! (provider_id, model_id) = c2 !! (provider_id, model_id).

(** What the cache holds for a provider is what the provider answers. *)
Definition cache_sound (provider_id : string) (p : ModelProvider)
    (cache : gmap (string * string) CacheEntry) : Prop :=
  forall model_id e,
    cache !! (provider_id, model_id) = Some e ->
    estimate_cost p model_id = Some (cost e).

(** A list of pairs in ascending order of the cost. *)
Fixpoint ascending {A} (l : list (A * Q)) : Prop :=
  match l with
  | [] => True
  | x :: l' => (forall y, y ∈ l' -> (snd x <= snd y)%Q) /\ ascending l'
  end.

End Selection.

Module Sleep.
Import SleepOptimizer.

(** What a scheduler state is after a call that ran to its end, and
    the state itself when it did not. *)
Definition state_after (self : TaskScheduler) (r : option (TaskScheduler * Outcome))
    : TaskScheduler :=
  match r with Some (s, _) => s | None => self end.

Definition with_task (task : SleepTimeTask) (self : TaskScheduler) : TaskScheduler :=
  match add_task task self with Some (s, _) => s | None => self end.

(** A task of priority HIGH that has been handed out for execution. *)
Definition job : SleepTimeTask := new_task "job" "nightly" "" HIGH 60 ∅ [].
Definition queued : TaskScheduler := with_task job (new_scheduler new_monitor).
Definition handed_out : TaskScheduler := state_after queued (get_next_task_fuel 1 5 queued).

(** A scheduler whose only queued task waits for a task "x" that has
    not completed. *)
Definition waiting : SleepTimeTask := new_task "a" "" "" MEDIUM 60 ∅ ["x"].
Definition blocked_scheduler : TaskScheduler :=
  with_task waiting (new_scheduler new_monitor).

End Sleep.

Module Orchestration.
Import ModelProviderInterface TaskOrchestrator.

(** The orchestrator state after a call that ran to its end. *)
Definition after {A} (self : Orchestrator) (r : option (Orchestrator * A))
    : Orchestrator :=
  match r with Some (s, _) => s | None => self end.

Definition status_of (self : Orchestrator) (id : string) : option TaskStatus :=
  status <$> get_task self id.

(** A provider whose first two calls fail and whose later calls succeed,
    registered as "p" and assigned to the EXECUTOR role with model "m". *)
Definition flaky : ModelProvider :=
  {| list_available_models := ["m"];
     get_model_capabilities := fun _ => [CODE_GENERATION];
     estimate_cost := fun _ => Some 1%Q;
     execute_prompt := fun calls _ _ =>
       if (calls <? 2)%nat then inl "service unavailable" else inr "done" |}.

Definition executor_role : ModelRoleManager :=
  {| role_assignments := fun role =>
       match role with EXECUTOR => [("p", "m")] | _ => [] end |}.

Definition with_executor (ex : TaskExecutor) : Orchestrator :=
  {| executor := Some ex; tasks := ∅; workflows := ∅; invoked := [] |}.

(** Retry then success: task T with max_retries = 3. *)
Definition retrying : Orchestrator :=
  fst (add_task (new_task "T" "build" "compile the sources" "{}" MEDIUM [] 3)
         (with_executor (ModelTaskExecutor [("p", flaky)] executor_role))).
Definition retried : Orchestrator := after retrying (execute_task retrying "T").

(** An executor that fails on the tasks named in [bad] and succeeds on
    the others. *)
Definition failing_on (bad : list string) : TaskExecutor :=
  fun _ task =>
    {| assignment := None; trace := [];
       outcome := if bool_decide (task_id task ∈ bad) then inl "provider error"
                  else inr "ok" |}.

(** A task that is cancelled and then executed. *)
Definition submitted : Orchestrator :=
  fst (add_task (new_task "T" "" "" "" MEDIUM [] 3) (with_executor (failing_on []))).
Definition cancelled : Orchestrator := fst (cancel_task submitted "T").
Definition executed_after_cancel : Orchestrator :=
  after cancelled (execute_task cancelled "T").

(** The dependency list of a task in the table, empty for an id that is
    not there. *)
Definition deps_of (self : Orchestrator) (id : string) : list string :=
  match get_task self id with
  | Some task => dependencies task
  | None => []
  end.

Definition error_of (self : Orchestrator) (id : string) : option (option string) :=
  error <$> get_task self id.

(** How many times the executor has been handed the task [id]. *)
Definition calls_of (self : Orchestrator) (id : string) : nat :=
  length (filter (fun y => y = id) (invoked self)).

(** [self'] differs from [self] at most in the runtime fields of the
    task [id] and in the invocations counted for it. *)
Record same_but (id : string) (self self' : Orchestrator) : Prop := {
  other_tasks : forall x, x <> id -> get_task self' x = get_task self x;
  other_calls : forall x, x <> id -> calls_of self' x = calls_of self x;
  same_deps : forall x, deps_of self' x = deps_of self x;
  still_there : forall x, is_Some (get_task self x) -> is_Some (get_task self' x)
}.

(** The assignments of the loop "Mark dependents as failed" to one
    dependent. *)
Definition mark (failed_id : string) (t : Task) : Task :=
  with_error (Some ("Dependency failed: " +:+ failed_id)) (with_status FAILED t).

(** The states from which the specification allows no transition. *)
Definition terminal (st : TaskStatus) : Prop :=
  st = COMPLETED \/ st = FAILED \/ st = CANCELLED.

(** The entry [results] gets for the outcome of an execution. *)
Definition entry_of (r : string + Payload) : Entry :=
  match r with inl e => Error e | inr v => Result v end.

(** The state of the loop of [execute_workflow] at the test of its
    [while]: what holds of [results] and [ready_tasks] whatever the tasks
    do. Every ready task is a key of the graph without an entry yet, the
    dependencies it has in the graph have entries, and so have those of
    every task with an entry; a task without dependencies in the graph is
    ready or has its entry. *)
Record loop_state (g : Graph) (results : gmap string Entry)
    (ready_tasks : list string) : Prop := {
  ready_in_graph : forall x, x ∈ ready_tasks -> x ∈ graph_keys g;
  ready_no_entry : forall x, x ∈ ready_tasks -> results !! x = None;
  ready_resolved : forall x dep_id,
    x ∈ ready_tasks -> dep_id ∈ graph_deps g x -> dep_id ∈ graph_keys g ->
    is_Some (results !! dep_id);
  entries_in_graph : forall x, is_Some (results !! x) -> x ∈ graph_keys g;
  entries_closed : forall x dep_id,
    is_Some (results !! x) -> dep_id ∈ graph_deps g x -> dep_id ∈ graph_keys g ->
    is_Some (results !! dep_id);
  roots_started : forall x,
    x ∈ initial_ready g -> is_Some (results !! x) \/ x ∈ ready_tasks
}.

(** Every dependency a task has in the graph has succeeded. *)
Definition dependencies_succeeded (g : Graph) (results : gmap string Entry)
    (x : string) : Prop :=
  forall dep_id, dep_id ∈ graph_deps g x -> dep_id ∈ graph_keys g ->
    exists v, results !! dep_id = Some (Result v).

(** A task whose dependencies in the graph have all succeeded is ready
    or has its entry. *)
Definition successors_started (g : Graph) (results : gmap string Entry)
    (ready_tasks : list string) : Prop :=
  forall x, x ∈ graph_keys g -> dependencies_succeeded g results x ->
    is_Some (results !! x) \/ x ∈ ready_tasks.

(** The dependencies among the given tasks have no cycle: some rank
    goes down along every dependency. *)
Definition acyclic (self : Orchestrator) (task_ids : list string) : Prop :=
  exists rank : string -> nat,
    forall x dep_id, x ∈ task_ids -> dep_id ∈ deps_of self x -> dep_id ∈ task_ids ->
      (rank dep_id < rank x)%nat.

(** A dependent that a failed dependency has marked: the executor has
    not been handed it since the state [self0], its status is FAILED and
    its error names a dependency whose entry is an error. *)
Definition poisoned (g : Graph) (self0 self : Orchestrator)
    (results : gmap string Entry) (d : string) : Prop :=
  calls_of self d = calls_of self0 d
  /\ status_of self d = Some FAILED
  /\ exists x e, x ∈ graph_deps g d /\ results !! x = Some (Error e)
       /\ error_of self d = Some (Some ("Dependency failed: " +:+ x)).

(** The state of the loop of [execute_workflow] at the test of its
    [while], for a workflow started in [self0] with none of its tasks
    COMPLETED: a task without an entry has not been run and is not
    COMPLETED, a task whose entry is an error is not COMPLETED, and the
    dependents of such a task are poisoned. *)
Record poison_state (g : Graph) (self0 self : Orchestrator)
    (results : gmap string Entry) (ready_tasks : list string) : Prop := {
  deps_kept : forall x, deps_of self x = graph_deps g x;
  keys_present : forall x, x ∈ graph_keys g -> is_Some (get_task self x);
  ready_once : NoDup ready_tasks;
  unstarted : forall x, x ∈ graph_keys g -> results !! x = None ->
    calls_of self x = calls_of self0 x /\ status_of self x <> Some COMPLETED;
  failed_not_completed : forall t e,
    results !! t = Some (Error e) -> status_of self t <> Some COMPLETED;
  dependents_poisoned : forall t e d,
    results !! t = Some (Error e) -> d ∈ graph_keys g -> t ∈ graph_deps g d ->
    poisoned g self0 self results d
}.

(** The keys of the graph that have no entry yet. *)
Definition pending_keys (g : Graph) (results : gmap string Entry) : gset string :=
  list_to_set (graph_keys g) ∖ dom results.

(** The three components of the loop's accumulator. *)
Definition acc_self (a : Orchestrator * gmap string Entry * list string)
    : Orchestrator := fst (fst a).
Definition acc_results (a : Orchestrator * gmap string Entry * list string)
    : gmap string Entry := snd (fst a).
Definition acc_ready (a : Orchestrator * gmap string Entry * list string)
    : list string := snd a.

(** The chain A, B, C, each task depending on the one before, with an
    executor that fails on A; no retries. *)
Definition chain : Orchestrator :=
  fst (create_workflow "w"
         [new_task "A" "" "" "" MEDIUM [] 0;
          new_task "B" "" "" "" MEDIUM ["A"] 0;
          new_task "C" "" "" "" MEDIUM ["B"] 0]
         (with_executor (failing_on ["A"]))).
Definition chain_run := execute_workflow chain "w".
Definition chain_after : Orchestrator := after chain chain_run.
Definition chain_results : gmap string Entry :=
  match chain_run with
  | Some (_, inr results) => results
  | _ => ∅
  end.

(** Fan-out and failure: B and C both depend on A, and A fails with
    max_retries = 0. *)
Definition fanout : Orchestrator :=
  fst (create_workflow "w"
         [new_task "A" "" "" "" MEDIUM [] 0;
          new_task "B" "" "" "" MEDIUM ["A"] 3;
          new_task "C" "" "" "" MEDIUM ["A"] 3]
         (with_executor (failing_on ["A"]))).
Definition fanout_after : Orchestrator := after fanout (execute_workflow fanout "w").

(** The same chain with an executor that always succeeds. *)
Definition linear : Orchestrator :=
  fst (create_workflow "w"
         [new_task "A" "" "" "" MEDIUM [] 0;
          new_task "B" "" "" "" MEDIUM ["A"] 0;
          new_task "C" "" "" "" MEDIUM ["B"] 0]
         (with_executor (failing_on []))).
Definition linear_results : gmap string Entry :=
  match execute_workflow linear "w" with
  | Some (_, inr results) => results
  | _ => ∅
  end.

(** The position of a task in the chain. *)
Definition chain_rank (id : string) : nat :=
  if decide (id = "A") then 0 else if decide (id = "B") then 1 else 2.

End Orchestration.

End Scenarios.

(** * Further cases

    States and predicates for the properties of the second part. *)

Module Cases.

Module Ledger.
Import ModelProviderInterface ResourceOptimization.

(** The amounts of the entries added to 0.0 one after the other, as the
    grouping loop of the report adds them. *)
Definition running_sum (entries : list UsageEntry) : Q :=
  fold_left (fun acc e => fl (acc + entry_amount e)) entries 0%Q.

(** The credits the history records as allocated to a component, and
    as used by it: the amounts of its records added in their order, each
    addition rounded. *)
Definition allocated_to (c : string) (h : list UsageEntry) : Q :=
  running_sum (filter (fun e => is_allocate e = true)
                 (filter (fun e => entry_component e = c) h)).

Definition used_by (c : string) (h : list UsageEntry) : Q :=
  running_sum (filter (fun e => is_use e = true)
                 (filter (fun e => entry_component e = c) h)).

(** The balance the history records last: that of its last allocate
    record, and the initial balance when it has none. *)
Definition recorded_balance (b0 : Q) (h : list UsageEntry) : Q :=
  fold_left (fun b e =>
    match e with
    | AllocateEntry _ _ _ b' => b'
    | UseEntry _ _ _ _ => b
    end) h b0.

(** What holds of a ledger that started with balance [b0]. *)
Record books (b0 : Q) (m : CreditManager) : Prop := {
  books_balance : balance m = recorded_balance b0 (usage_history m);
  books_known : forall c,
    c ∉ entry_component <$> usage_history m -> allocations m !! c = None
}.

End Ledger.

Module Sleep.
Import SleepOptimizer.

(** The ids that [get_next_task] drops from the queue when it meets
    them. *)
Definition handed_or_done (self : TaskScheduler) (id : string) : Prop :=
  id ∈ scheduled_tasks self \/ id ∈ completed_tasks self.

(** A pair that is not after another in the order of the queue. *)
Definition pair_le (a b : Z * string) : Prop := pair_ltb b a = false.

(** One call of a method of the scheduler that returns; the monitor is
    an object of its own and may change in between. *)
Inductive step : TaskScheduler -> TaskScheduler -> Prop :=
  | step_add_task task self self' id :
      add_task task self = Some (self', id) -> step self self'
  | step_get_next_task fuel now self self' o :
      get_next_task_fuel fuel now self = Some (self', o) -> step self self'
  | step_mark_task_completed now id res self :
      step self (fst (mark_task_completed now id res self))
  | step_mark_task_failed now id err self :
      step self (fst (mark_task_failed now id err self))
  | step_monitor m self :
      step self
        {| resource_monitor := m; task_queue := task_queue self;
           tasks := tasks self; scheduled_tasks := scheduled_tasks self;
           completed_tasks := completed_tasks self;
           failed_tasks := failed_tasks self |}.

(** The states that calls reach from a new scheduler. *)
Definition reachable (self : TaskScheduler) : Prop :=
  exists m, rtc step (new_scheduler m) self.

(** The queue in the order of its pairs. *)
Fixpoint sorted_queue (q : list (Z * string)) : Prop :=
  match q with
  | [] => True
  | x :: q' => (forall y, y ∈ q' -> pair_le x y) /\ sorted_queue q'
  end.

(** What the methods keep of a scheduler. *)
Record well_formed (self : TaskScheduler) : Prop := {
  queue_known : forall p, p ∈ task_queue self -> is_Some (tasks self !! snd p);
  queue_sorted : sorted_queue (task_queue self);
  key_is_id : forall id t, tasks self !! id = Some t -> task_id t = id;
  scheduled_known : forall id, id ∈ scheduled_tasks self -> is_Some (tasks self !! id);
  completed_known : forall id, id ∈ completed_tasks self -> is_Some (tasks self !! id);
  failed_known : forall id, id ∈ failed_tasks self -> is_Some (tasks self !! id);
  scheduled_not_completed :
    forall id, id ∈ scheduled_tasks self -> id ∉ completed_tasks self
}.

(** A monitor whose usage is at least that of another, under the same
    limits. *)
Definition busier (m m' : ResourceMonitor) : Prop :=
  resource_limits m' = resource_limits m
  /\ (cpu (resource_usage m) <= cpu (resource_usage m'))%Q
  /\ (memory (resource_usage m) <= memory (resource_usage m'))%Q
  /\ (credits (resource_usage m) <= credits (resource_usage m'))%Q.

(** The limit, the usage and so the free amount of a tracked resource. *)
Definition limit_of (m : ResourceMonitor) (resource : string) : option (option Q) :=
  if decide (resource = "cpu") then Some (cpu_limit (resource_limits m))
  else if decide (resource = "memory") then Some (memory_limit (resource_limits m))
  else if decide (resource = "credits") then Some (credits_limit (resource_limits m))
  else None.

Definition usage_of (m : ResourceMonitor) (resource : string) : Q :=
  if decide (resource = "cpu") then cpu (resource_usage m)
  else if decide (resource = "memory") then memory (resource_usage m)
  else credits (resource_usage m).

(** Readings of [check_idle_state] in the order of the calls, and the
    times of the idle readings since the last reading that was not. *)
Definition check_all (readings : list (bool * Q)) (self : SleepDetector)
    : SleepDetector :=
  fold_left (fun d (r : bool * Q) => fst (check_idle_state (fst r) (snd r) d))
    readings self.

Definition idle_stretch (readings : list (bool * Q)) : list Q :=
  fold_left (fun (acc : list Q) (r : bool * Q) =>
    if fst r then acc ++ [snd r] else []) readings [].

(** Two tasks of one priority and a more urgent one that asks for more
    memory than the monitor has free. *)
Definition three_tasks : TaskScheduler :=
  let add t s := default s (fst <$> add_task t s) in
  add (new_task "b" "" "" MEDIUM 1 ∅ [])
    (add (new_task "a" "" "" MEDIUM 1 ∅ [])
       (add (new_task "big" "" "" HIGH 1 {["memory" := 2000%Q]} [])
          (new_scheduler new_monitor))).

End Sleep.

Module Batching.
Import TaskOrchestrator MicroBatching.

(** What [process_batches] records and returns for the batch of turn
    [turn + i], with [n] batches active. *)
Definition completed_of (processor_func : nat -> list Task -> string + Payload)
    (clock : nat -> Q) (n turn i : nat) (batch : list Task) : CompletedBatch :=
  {| completed_batch_id := (seconds (clock (turn + i)%nat), n);
     completed_tasks := batch;
     completed_outcome := processor_func (turn + i)%nat batch |}.

Definition result_of (processor_func : nat -> list Task -> string + Payload)
    (clock : nat -> Q) (n turn i : nat) (batch : list Task) : BatchResult :=
  {| batch_id := (seconds (clock (turn + i)%nat), n);
     task_count := length batch;
     batch_outcome := processor_func (turn + i)%nat batch |}.

(** Seven tasks waiting, and a processor whose first call fails. *)
Definition numbered (n : nat) : list Task :=
  map (fun i => new_task (String (ascii_of_nat (65 + i)) EmptyString)
                  "" "" "" MEDIUM [] 3) (seq 0 n).

Definition seven_pending : BatchController :=
  fold_left (fun s t => add_task t s) (numbered 7) new_controller.

Definition threes : BatchConfig :=
  {| max_batch_size := 3; min_batch_size := 2; max_wait_time := 5;
     similarity_threshold := 7 # 10; batch_priority := NORMAL |}.

Definition first_fails : nat -> list Task -> string + Payload :=
  fun n _ => match n with O => inl "boom" | S _ => inr "ok" end.

End Batching.

Module Scheduling.
Import ModelProviderInterface ResourceOptimization.

(** [a] does not come after [b] in the order of [_sort_schedule]. *)
Definition key_le (a b : ScheduleEntry) : Prop :=
  key_ltb (sort_key b) (sort_key a) = false.

(** No entry of the schedule comes after a later one. *)
Fixpoint in_order (l : list ScheduleEntry) : Prop :=
  match l with
  | [] => True
  | x :: l' => (forall y, y ∈ l' -> key_le x y) /\ in_order l'
  end.

(** A deadline that is not later than another; no deadline is the
    latest of all. *)
Definition no_later (a b : option Q) : Prop := deadline_ltb b a = false.

(** The record [complete_batch] writes to the history. *)
Definition workload (now : Q) (size : Z) (time : Q) (usage : gmap string Q)
    : WorkloadEntry :=
  {| timestamp := now; batch_size := size; execution_time := time;
     resource_usage := usage |}.

(** A scheduler on a ledger without limit that has scheduled and
    completed one batch of no task. *)
Definition idle_scheduler : PredictiveBatchScheduler :=
  new_batch_scheduler (new_manager 0 None).

Definition after_empty_batch : PredictiveBatchScheduler :=
  let s := fst (schedule_batch left_to_right 100 "c" 0 1 None idle_scheduler) in
  default s (complete_batch 101 (100, 0%nat) (1 # 2) ∅ true s).

(** Two batches of one priority and one of a higher priority. *)
Definition three_batches : PredictiveBatchScheduler :=
  let s1 := fst (schedule_batch left_to_right 100 "c" 4 1 (Some 500%Q) idle_scheduler) in
  let s2 := fst (schedule_batch left_to_right 100 "c" 4 1 (Some 300%Q) s1) in
  fst (schedule_batch left_to_right 100 "d" 4 2 None s2).

End Scheduling.

Module Providers.
Import ModelProviderInterface.

(** A sequence of [register_provider] calls; a call that raises leaves
    the registry as it was. *)
Definition register_each (calls : list (string * ModelProvider))
    (reg : ProviderRegistry) : ProviderRegistry :=
  fold_left (fun r c => default r (register_provider (fst c) (snd c) r)) calls reg.

(** The test under which [auto_assign_roles] gives a role to a model
    with the given capability list. *)
Definition qualifies (role : ModelRole) (capabilities : list ModelCapability)
    : Prop :=
  match role with
  | EXECUTOR => CODE_GENERATION ∈ capabilities
  | ANALYZER => SUMMARIZATION ∈ capabilities
  | GENERATOR => TEXT_GENERATION ∈ capabilities
  | ORCHESTRATOR => (3 <= length capabilities)%nat
  | VALIDATOR | OPTIMIZER => False
  end.

#[global] Instance qualifies_dec role capabilities :
  Decision (qualifies role capabilities).
Proof. destruct role; cbn; apply _. Defined.

(** A provider whose one model writes and summarises. *)
Definition coder : ModelProvider :=
  {| list_available_models := ["m1"];
     get_model_capabilities := fun _ => [CODE_GENERATION; SUMMARIZATION];
     estimate_cost := fun _ => Some 1%Q;
     execute_prompt := fun _ _ _ => inr "done" |}.

End Providers.

Module Orchestration.
Import ModelProviderInterface TaskOrchestrator Scenarios.Orchestration.

(** A task that [cancel_task] accepts. *)
Definition cancellable (self : Orchestrator) (id : string) : Prop :=
  status_of self id = Some PENDING \/ status_of self id = Some RUNNING.

(** The loop of [cancel_workflow] from a given accumulator. *)
Definition cancel_all (task_ids : list string)
    (acc : Orchestrator * list string) : Orchestrator * list string :=
  fold_left (fun acc id =>
    let '(s, cancelled_tasks) := acc in
    let '(s', ok) := cancel_task s id in
    (s', if ok then cancelled_tasks ++ [id] else cancelled_tasks))
    task_ids acc.

(** An executor that raises on every call. *)
Definition always_failing (ex : TaskExecutor) : Prop :=
  forall calls task, exists e, outcome (ex calls task) = inl e.

(** A workflow of two pending tasks and one that has completed. *)
Definition mixed : Orchestrator :=
  let s := fst (create_workflow "w"
                  [new_task "A" "" "" "" MEDIUM [] 3;
                   new_task "B" "" "" "" MEDIUM ["A"] 3;
                   new_task "C" "" "" "" MEDIUM [] 3]
                  (with_executor (failing_on []))) in
  after s (execute_task s "A").

(** A task with max_retries = 2 and an executor that always fails. *)
Definition broken : TaskExecutor :=
  fun _ _ => {| assignment := None; trace := []; outcome := inl "service down" |}.
Definition doomed : Orchestrator :=
  fst (add_task (new_task "T" "" "" "" MEDIUM [] 2) (with_executor broken)).

(** An executor that raises the same error, before it writes anything
    on the task, for every task with the given description. *)
Definition rejects (ex : TaskExecutor) (d : string) (msg : string) : Prop :=
  forall calls t, description t = d ->
    ex calls t = {| assignment := None; trace := []; outcome := inl msg |}.

(** A task that asks for validation, under the model executor with the
    roles given by capability. *)
Definition unserved : Orchestrator :=
  let reg := [("c", Providers.coder)] in
  fst (add_task (new_task "T" "check" "Validate the plan" "" MEDIUM [] 1)
         (with_executor
            (ModelTaskExecutor reg (auto_assign_roles reg new_role_manager)))).

End Orchestration.

End Cases.

(** * Properties *)

(** ** Rounding to binary64 *)

Module Float64.
Local Open Scope Q_scope.

(** *** Rounding to an integer *)

Lemma rne_comp q1 q2 : q1 == q2 -> rne q1 = rne q2.
Proof.
  intros H. unfold rne. rewrite (Qfloor_comp _ _ H).
  assert (Hc : (q1 - inject_Z (Qfloor q2) ?= 1 # 2) = (q2 - inject_Z (Qfloor q2) ?= 1 # 2))
    by (by rewrite H).
  by rewrite Hc.
Qed.

Lemma rne_floor q : (Qfloor q <= rne q <= Qfloor q + 1)%Z.
Proof.
  unfold rne. destruct (q - inject_Z (Qfloor q) ?= 1 # 2); [|lia..].
  destruct (Z.even (Qfloor q)); lia.
Qed.

Lemma frac_bounds q : 0 <= q - inject_Z (Qfloor q) < 1.
Proof.
  pose proof (Qfloor_le q). pose proof (Qlt_floor q).
  rewrite inject_Z_plus in H0. set (f := inject_Z (Qfloor q)) in *.
  change (inject_Z 1) with 1 in H0. split; lra.
Qed.

Lemma rne_Z n : rne (inject_Z n) = n.
Proof.
  unfold rne. rewrite Qfloor_Z.
  assert (H : (inject_Z n - inject_Z n ?= 1 # 2) = Lt).
  { apply (proj1 (Qlt_alt _ _)). set (z := inject_Z n). lra. }
  by rewrite H.
Qed.

Lemma rne_mono q1 q2 : q1 <= q2 -> (rne q1 <= rne q2)%Z.
Proof.
  intros Hle. pose proof (Qfloor_resp_le _ _ Hle) as Hf.
  pose proof (rne_floor q1). pose proof (rne_floor q2).
  destruct (Z.eq_dec (Qfloor q1) (Qfloor q2)) as [Heq|Hne]; [|lia].
  unfold rne. rewrite Heq. set (z := inject_Z (Qfloor q2)). clearbody z.
  destruct (Qcompare_spec (q1 - z) (1 # 2)), (Qcompare_spec (q2 - z) (1 # 2));
    try destruct (Z.even (Qfloor q2)); first [lia | exfalso; lra].
Qed.

Lemma rne_nonneg q : 0 <= q -> (0 <= rne q)%Z.
Proof.
  intros H. pose proof (rne_mono (inject_Z 0) q H) as H'. by rewrite rne_Z in H'.
Qed.

(** *** Powers of two *)

Lemma pow2_pos e : 0 < 2 ^ e.
Proof. by apply Qpower_0_lt. Qed.

Lemma pow2_plus a b : 2 ^ (a + b) == 2 ^ a * 2 ^ b.
Proof. by apply Qpower_plus. Qed.

Lemma pow2_combine3 a b c : 2 ^ a * 2 ^ b * 2 ^ c == 2 ^ (a + b + c).
Proof. by rewrite !pow2_plus. Qed.

Lemma pow2_le a b : (a <= b)%Z -> 2 ^ a <= 2 ^ b.
Proof. intros H. by apply Qpower_le_compat_l. Qed.

Lemma pow2_lt a b : (a < b)%Z -> 2 ^ a < 2 ^ b.
Proof. intros H. by apply Qpower_lt_compat_l. Qed.

Lemma pow2_lt_inv a b : 2 ^ a < 2 ^ b -> (a < b)%Z.
Proof. intros H. by apply Qpower_lt_compat_l_inv in H. Qed.

Lemma pow2_Z n : (0 <= n)%Z -> inject_Z (2 ^ n) == 2 ^ n.
Proof. intros H. by rewrite Zpower_Qpower. Qed.

Lemma div_pow2 x e : x / 2 ^ e == x * 2 ^ (- e).
Proof. unfold Qdiv. by rewrite Qpower_opp. Qed.

Lemma mul_pow2_cancel x e : x * 2 ^ (- e) * 2 ^ e == x.
Proof.
  rewrite <- Qmult_assoc, <- pow2_plus. replace (- e + e)%Z with 0%Z by lia.
  change (2 ^ 0) with 1. ring.
Qed.

(** *** The binary logarithm *)

Lemma ilog2_unique x k k' :
  2 ^ k <= x < 2 ^ (k + 1) -> 2 ^ k' <= x < 2 ^ (k' + 1) -> k = k'.
Proof.
  intros [H1 H2] [H3 H4].
  assert (2 ^ k < 2 ^ (k' + 1)) by (eapply Qle_lt_trans; eauto).
  assert (2 ^ k' < 2 ^ (k + 1)) by (eapply Qle_lt_trans; eauto).
  apply pow2_lt_inv in H, H0. lia.
Qed.

Lemma Q_as_fraction x : x == inject_Z (Qnum x) / inject_Z (Z.pos (Qden x)).
Proof. destruct x as [n d]. cbn [Qnum Qden]. rewrite <- Qmake_Qdiv. reflexivity. Qed.

Lemma ilog2_spec x : 0 < x -> 2 ^ ilog2 x <= x < 2 ^ (ilog2 x + 1).
Proof.
  intros Hx. unfold ilog2.
  set (n := Qnum x). set (d := Z.pos (Qden x)).
  assert (Hn : (0 < n)%Z) by (destruct x as [[|p|p] q]; done).
  assert (Hd : (0 < d)%Z) by done.
  destruct (Z.log2_spec n Hn) as [Hn1 Hn2]. destruct (Z.log2_spec d Hd) as [Hd1 Hd2].
  pose proof (Z.log2_nonneg n) as Ha. pose proof (Z.log2_nonneg d) as Hb.
  set (a := Z.log2 n) in *. set (b := Z.log2 d) in *.
  assert (Hxd : x * inject_Z d == inject_Z n).
  { rewrite (Q_as_fraction x) at 1. fold n d. field.
    intros H. apply (inject_Z_injective d 0) in H. lia. }
  assert (HdQ : 0 < inject_Z d)
    by (change 0 with (inject_Z 0); by rewrite <- Zlt_Qlt).
  assert (Hlow : 2 ^ (a - b - 1) <= x).
  { (* 2^a <= n and d < 2^(b+1) *)
    apply (Qmult_le_r _ _ (inject_Z d)); [done|]. rewrite Hxd.
    apply Qle_trans with (2 ^ (a - b - 1) * 2 ^ (b + 1)).
    - apply Qmult_le_l; [apply pow2_pos|].
      rewrite <- pow2_Z by lia. rewrite <- Zle_Qle. lia.
    - rewrite <- pow2_plus. replace (a - b - 1 + (b + 1))%Z with a by lia.
      rewrite <- pow2_Z by lia. by rewrite <- Zle_Qle. }
  assert (Hup : x < 2 ^ (a - b + 1)).
  { apply (Qmult_lt_r _ _ (inject_Z d)); [done|]. rewrite Hxd.
    apply Qlt_le_trans with (2 ^ (a + 1)).
    - rewrite <- pow2_Z by lia. by rewrite <- Zlt_Qlt.
    - replace (a + 1)%Z with (a - b + 1 + b)%Z by lia. rewrite pow2_plus.
      apply Qmult_le_l; [apply pow2_pos|].
      rewrite <- pow2_Z by lia. by rewrite <- Zle_Qle. }
  destruct (Qle_bool (2 ^ (a - b)) x) eqn:E.
  - apply Qle_bool_iff in E. split; [done|done].
  - split; [done|]. replace (a - b - 1 + 1)%Z with (a - b)%Z by lia.
    apply Qnot_le_lt. intros H. apply Qle_bool_iff in H. congruence.
Qed.

Lemma ilog2_eq x k : 2 ^ k <= x < 2 ^ (k + 1) -> ilog2 x = k.
Proof.
  intros H. assert (Hx : 0 < x).
  { eapply Qlt_le_trans; [apply (pow2_pos k) | apply H]. }
  eapply ilog2_unique; [by apply ilog2_spec | done].
Qed.

Lemma ilog2_comp x y : 0 < x -> x == y -> ilog2 x = ilog2 y.
Proof.
  intros Hx Hxy. apply ilog2_eq. rewrite Hxy. apply ilog2_spec. by rewrite <- Hxy.
Qed.

Lemma ilog2_mono x y : 0 < x -> x <= y -> (ilog2 x <= ilog2 y)%Z.
Proof.
  intros Hx Hxy. assert (Hy : 0 < y) by lra.
  destruct (ilog2_spec x Hx) as [H1 _]. destruct (ilog2_spec y Hy) as [_ H2].
  assert (H : 2 ^ ilog2 x < 2 ^ (ilog2 y + 1)) by lra.
  apply pow2_lt_inv in H. lia.
Qed.

(** *** Rounding a positive number *)

Lemma rne_le_Z q n : q <= inject_Z n -> (rne q <= n)%Z.
Proof. intros H. apply rne_mono in H. by rewrite rne_Z in H. Qed.

Lemma rne_ge_Z q n : inject_Z n <= q -> (n <= rne q)%Z.
Proof. intros H. apply rne_mono in H. by rewrite rne_Z in H. Qed.

Lemma ulp_exponent_min x : (-1074 <= ulp_exponent x)%Z.
Proof. unfold ulp_exponent. lia. Qed.

Lemma round_pos_eq x :
  round_pos x == inject_Z (rne (x / 2 ^ ulp_exponent x)) * 2 ^ ulp_exponent x.
Proof. unfold round_pos. apply Qred_correct. Qed.

Lemma round_pos_comp x y : 0 < x -> x == y -> round_pos x = round_pos y.
Proof.
  intros Hx Hxy. unfold round_pos, ulp_exponent.
  rewrite (ilog2_comp x y Hx Hxy). apply Qred_complete.
  set (e := Z.max (ilog2 y - 52) (-1074)).
  assert (Hr : rne (x / 2 ^ e) = rne (y / 2 ^ e)) by (apply rne_comp; by rewrite Hxy).
  by rewrite Hr.
Qed.

Lemma round_pos_nonneg x : 0 <= x -> 0 <= round_pos x.
Proof.
  intros Hx. rewrite round_pos_eq. set (e := ulp_exponent x).
  pose proof (pow2_pos e) as He.
  assert (Hq : 0 <= x / 2 ^ e).
  { rewrite div_pow2. apply Qmult_le_0_compat; [done|]. apply Qlt_le_weak, pow2_pos. }
  apply rne_nonneg in Hq. apply Qmult_le_0_compat; [|by apply Qlt_le_weak].
  change 0 with (inject_Z 0). by rewrite <- Zle_Qle.
Qed.

Lemma scaled_le x y e : x <= y -> x / 2 ^ e <= y / 2 ^ e.
Proof.
  intros H. rewrite !div_pow2. apply Qmult_le_compat_r; [done|].
  apply Qlt_le_weak, pow2_pos.
Qed.

Lemma scaled_pow2 k e : 2 ^ k / 2 ^ e == 2 ^ (k - e).
Proof. rewrite div_pow2, <- pow2_plus. by replace (k + - e)%Z with (k - e)%Z by lia. Qed.

Lemma round_pos_mono x y : 0 < x -> x <= y -> round_pos x <= round_pos y.
Proof.
  intros Hx Hxy. assert (Hy : 0 < y) by lra.
  rewrite (round_pos_eq x), (round_pos_eq y).
  pose proof (ilog2_mono x y Hx Hxy) as Hk.
  destruct (ilog2_spec x Hx) as [_ Hxu]. destruct (ilog2_spec y Hy) as [Hyl _].
  unfold ulp_exponent.
  set (kx := ilog2 x) in *. set (ky := ilog2 y) in *.
  set (ex := Z.max (kx - 52) (-1074)). set (ey := Z.max (ky - 52) (-1074)).
  assert (Hex : (ex <= ey)%Z) by lia.
  destruct (Z.eq_dec ex ey) as [Heq|Hne].
  - rewrite Heq. apply Qmult_le_compat_r; [|apply Qlt_le_weak, pow2_pos].
    rewrite <- Zle_Qle. apply rne_mono. by apply scaled_le.
  - assert (Hey : ey = (ky - 52)%Z) by lia.
    assert (Hkx : (kx + 1 <= ey + 52)%Z) by lia.
    apply Qle_trans with (2 ^ (ey + 52)).
    + (* x rounds to at most 2^(ey + 52) *)
      assert (Hn : (0 <= ey + 52 - ex)%Z) by lia.
      assert (Hq : x / 2 ^ ex <= inject_Z (2 ^ (ey + 52 - ex))).
      { rewrite pow2_Z by done. rewrite <- scaled_pow2. apply scaled_le.
        apply Qle_trans with (2 ^ (kx + 1)); [by apply Qlt_le_weak|].
        by apply pow2_le. }
      apply rne_le_Z in Hq.
      apply Qle_trans with (inject_Z (2 ^ (ey + 52 - ex)) * 2 ^ ex).
      * apply Qmult_le_compat_r; [|apply Qlt_le_weak, pow2_pos].
        by rewrite <- Zle_Qle.
      * rewrite pow2_Z by done. rewrite <- pow2_plus.
        replace (ey + 52 - ex + ex)%Z with (ey + 52)%Z by lia. apply Qle_refl.
    + (* y rounds to at least 2^(ey + 52) *)
      assert (Hq : inject_Z (2 ^ 52) <= y / 2 ^ ey).
      { rewrite pow2_Z by lia. rewrite <- (scaled_pow2 (ey + 52) ey) at 1 || idtac.
        replace 52%Z with (ey + 52 - ey)%Z at 1 by lia.
        rewrite <- scaled_pow2. apply scaled_le.
        replace (ey + 52)%Z with ky by lia. done. }
      apply rne_ge_Z in Hq.
      apply Qle_trans with (inject_Z (2 ^ 52) * 2 ^ ey).
      * rewrite pow2_Z by lia. rewrite <- pow2_plus.
        replace (52 + ey)%Z with (ey + 52)%Z by lia. apply Qle_refl.
      * apply Qmult_le_compat_r; [|apply Qlt_le_weak, pow2_pos].
        by rewrite <- Zle_Qle.
Qed.

(** The numbers m * 2^e that binary64 holds: of at most 53 bits, with
    the exponent at least -1074 and fewer than 53 bits only at that
    exponent. *)
Lemma round_pos_fixed m e :
  (0 < m <= 2 ^ 53)%Z -> (-1074 <= e)%Z -> (2 ^ 52 <= m \/ e = -1074)%Z ->
  round_pos (inject_Z m * 2 ^ e) == inject_Z m * 2 ^ e.
Proof.
  intros [Hm0 Hm] He Hnorm.
  destruct (Z.log2_spec m Hm0) as [Hj1 Hj2]. rewrite <- Z.add_1_r in Hj2.
  pose proof (Z.log2_nonneg m) as Hj0. set (j := Z.log2 m) in *.
  assert (Hj : (j <= 53)%Z).
  { destruct (Z.le_gt_cases j 53%Z) as [|Hgt]; [done|].
    assert (2 ^ 54 <= 2 ^ j)%Z by (apply Z.pow_le_mono_r; lia). lia. }
  assert (Hk : ilog2 (inject_Z m * 2 ^ e) = (j + e)%Z).
  { apply ilog2_eq. split.
    - rewrite pow2_plus.
      apply Qmult_le_compat_r; [|apply Qlt_le_weak, pow2_pos].
      rewrite <- pow2_Z by done. by rewrite <- Zle_Qle.
    - replace (j + e + 1)%Z with ((j + 1) + e)%Z by lia. rewrite pow2_plus.
      apply Qmult_lt_compat_r; [apply pow2_pos|].
      rewrite <- pow2_Z by lia. by rewrite <- Zlt_Qlt. }
  rewrite round_pos_eq. unfold ulp_exponent. rewrite Hk.
  destruct (Z.eq_dec j 53%Z) as [H53|Hn53].
  - assert (Hm53 : m = (2 ^ 53)%Z) by (rewrite H53 in Hj1; lia).
    replace (Z.max (j + e - 52) (-1074)) with (e + 1)%Z by lia.
    assert (Hq : inject_Z m * 2 ^ e / 2 ^ (e + 1) == inject_Z (2 ^ 52)).
    { rewrite Hm53, div_pow2, !pow2_Z by lia. rewrite pow2_combine3.
      by replace (53 + e + - (e + 1))%Z with 52%Z by lia. }
    rewrite (rne_comp _ _ Hq), rne_Z, Hm53, !pow2_Z by lia.
    rewrite <- !pow2_plus. by replace (52 + (e + 1))%Z with (53 + e)%Z by lia.
  - assert (Hexp : Z.max (j + e - 52) (-1074) = e).
    { destruct Hnorm as [H52|He']; [|lia].
      assert (52 <= j)%Z; [|lia].
      destruct (Z.le_gt_cases 52%Z j) as [|Hlt]; [done|].
      assert (2 ^ (j + 1) <= 2 ^ 52)%Z by (apply Z.pow_le_mono_r; lia). lia. }
    rewrite Hexp.
    assert (Hq : inject_Z m * 2 ^ e / 2 ^ e == inject_Z m).
    { rewrite div_pow2, <- Qmult_assoc, <- pow2_plus.
      replace (e + - e)%Z with 0%Z by lia. change (2 ^ 0) with 1. ring. }
    by rewrite (rne_comp _ _ Hq), rne_Z.
Qed.

Lemma round_pos_form x :
  0 < x ->
  let m := rne (x / 2 ^ ulp_exponent x) in
  (0 <= m <= 2 ^ 53)%Z /\ (2 ^ 52 <= m \/ ulp_exponent x = -1074)%Z.
Proof.
  intros Hx m. subst m. destruct (ilog2_spec x Hx) as [Hl Hu].
  unfold ulp_exponent. set (k := ilog2 x) in *. set (e := Z.max (k - 52) (-1074)).
  split; [split|].
  - apply rne_nonneg. rewrite div_pow2. apply Qmult_le_0_compat; [lra|].
    apply Qlt_le_weak, pow2_pos.
  - apply rne_le_Z. rewrite pow2_Z by lia.
    apply Qle_trans with (2 ^ (k + 1) / 2 ^ e).
    + apply scaled_le. by apply Qlt_le_weak.
    + rewrite scaled_pow2. apply pow2_le. lia.
  - destruct (Z.eq_dec e (-1074)%Z) as [|Hne]; [by right|left].
    apply rne_ge_Z. rewrite pow2_Z by lia.
    assert (He : e = (k - 52)%Z) by lia.
    replace 52%Z with (k - e)%Z by lia. rewrite <- scaled_pow2. by apply scaled_le.
Qed.

(** *** Rounding *)

Lemma Qnum_sign x :
  match Qnum x with
  | 0%Z => x == 0
  | Z.pos _ => 0 < x
  | Z.neg _ => x < 0
  end.
Proof. destruct x as [[|p|p] d]; cbn; done. Qed.

Lemma fl_zero x : x == 0 -> fl x = 0.
Proof.
  intros H. unfold fl. pose proof (Qnum_sign x) as Hs.
  destruct (Qnum x); [done|lra|lra].
Qed.

Lemma fl_pos x : 0 < x -> fl x = round_pos x.
Proof.
  intros H. unfold fl. pose proof (Qnum_sign x) as Hs.
  destruct (Qnum x); [lra|done|lra].
Qed.

Lemma fl_neg x : x < 0 -> fl x = - round_pos (- x).
Proof.
  intros H. unfold fl. pose proof (Qnum_sign x) as Hs.
  destruct (Qnum x); [lra|lra|done].
Qed.

Lemma fl_comp x y : x == y -> fl x = fl y.
Proof.
  intros Hxy. destruct (Q_dec x 0) as [[Hlt|Hgt]|Heq].
  - rewrite (fl_neg x), (fl_neg y) by lra. f_equal.
    apply round_pos_comp; [lra | by rewrite Hxy].
  - rewrite (fl_pos x), (fl_pos y) by lra. by apply round_pos_comp.
  - rewrite (fl_zero x), (fl_zero y) by lra. done.
Qed.

#[global] Instance fl_proper : Proper (Qeq ==> Qeq) fl.
Proof. intros x y H. by rewrite (fl_comp x y H). Qed.

Lemma fl_nonneg x : 0 <= x -> 0 <= fl x.
Proof.
  intros H. destruct (Qle_lt_or_eq _ _ H) as [Hlt|Heq].
  - rewrite fl_pos by done. by apply round_pos_nonneg.
  - rewrite fl_zero by lra. apply Qle_refl.
Qed.

Lemma fl_nonpos x : x <= 0 -> fl x <= 0.
Proof.
  intros H. destruct (Qle_lt_or_eq _ _ H) as [Hlt|Heq].
  - rewrite fl_neg by done.
    pose proof (round_pos_nonneg (- x)) as Hr. lra.
  - rewrite fl_zero by lra. apply Qle_refl.
Qed.

Lemma fl_opp x : fl (- x) == - fl x.
Proof.
  destruct (Q_dec x 0) as [[Hlt|Hgt]|Heq].
  - rewrite (fl_pos (- x)), (fl_neg x) by lra. ring.
  - rewrite (fl_neg (- x)), (fl_pos x) by lra.
    rewrite (round_pos_comp (- - x) x); [reflexivity | lra | ring].
  - rewrite (fl_zero (- x)), (fl_zero x) by lra. reflexivity.
Qed.

(** Rounding keeps the order. *)
Lemma fl_mono x y : x <= y -> fl x <= fl y.
Proof.
  intros Hxy. destruct (Q_dec x 0) as [[Hlt|Hgt]|Heq].
  - destruct (Qlt_le_dec y 0) as [Hy|Hy].
    + rewrite (fl_neg x), (fl_neg y) by done.
      pose proof (round_pos_mono (- y) (- x)) as H. lra.
    + pose proof (fl_nonpos x). pose proof (fl_nonneg y Hy). lra.
  - rewrite (fl_pos x), (fl_pos y) by lra. by apply round_pos_mono.
  - rewrite (fl_zero x) by done. apply fl_nonneg. lra.
Qed.

Lemma round_pos_idem x : 0 < x -> fl (round_pos x) == round_pos x.
Proof.
  intros Hx. destruct (round_pos_form x Hx) as [[Hm0 Hm] Hn].
  pose proof (round_pos_eq x) as Heq.
  set (m := rne (x / 2 ^ ulp_exponent x)) in *. set (e := ulp_exponent x) in *.
  destruct (Z.eq_dec m 0%Z) as [H0|Hne].
  - assert (Hz : round_pos x == 0) by (rewrite Heq, H0; ring).
    by rewrite (fl_zero _ Hz), Hz.
  - assert (Hpos : 0 < round_pos x).
    { rewrite Heq. apply Qmult_lt_0_compat; [|apply pow2_pos].
      change 0 with (inject_Z 0). rewrite <- Zlt_Qlt. lia. }
    rewrite fl_pos by done.
    rewrite (round_pos_comp _ _ Hpos Heq), Heq.
    apply round_pos_fixed; [lia | apply ulp_exponent_min | done].
Qed.

Lemma fl_idem x : representable (fl x).
Proof.
  unfold representable. destruct (Q_dec x 0) as [[Hlt|Hgt]|Heq].
  - rewrite (fl_neg x) by done. rewrite fl_opp.
    rewrite round_pos_idem by lra. reflexivity.
  - rewrite (fl_pos x) by done. by apply round_pos_idem.
  - rewrite (fl_zero x) by done. by rewrite (fl_zero 0).
Qed.

Lemma representable_0 : representable 0.
Proof. reflexivity. Qed.


Lemma fl_sub_le b a : representable b -> 0 <= a -> fl (b - a) <= b.
Proof.
  intros Hb Ha. apply Qle_trans with (fl b).
  - apply fl_mono. lra.
  - unfold representable in Hb. rewrite Hb. apply Qle_refl.
Qed.

Lemma fl_add_le b a : representable b -> a <= 0 -> fl (b + a) <= b.
Proof.
  intros Hb Ha. apply Qle_trans with (fl b).
  - apply fl_mono. lra.
  - unfold representable in Hb. rewrite Hb. apply Qle_refl.
Qed.

End Float64.

(** ** Comparisons *)

Lemma Qgtb_true x y : Qgtb x y = true <-> (y < x)%Q.
Proof.
  unfold Qgtb. rewrite negb_true_iff, <- not_true_iff_false, Qle_bool_iff.
  split; [apply Qnot_le_lt | apply Qlt_not_le].
Qed.

Lemma Qgtb_false x y : Qgtb x y = false <-> (x <= y)%Q.
Proof. unfold Qgtb. rewrite negb_false_iff. apply Qle_bool_iff. Qed.

Lemma Qltb_true x y : Qltb x y = true <-> (x < y)%Q.
Proof. apply Qgtb_true. Qed.

Lemma Qltb_false x y : Qltb x y = false <-> (y <= x)%Q.
Proof. apply Qgtb_false. Qed.

(** ** The credit ledger *)

Module CreditLedger.
Import ModelProviderInterface ResourceOptimization Scenarios.Ledger Float64.

Lemma over_budget_true self amount :
  over_budget self amount = true <->
  exists cap, budget_limit self = Some cap /\ (cap < fl (balance self + amount))%Q.
Proof.
  unfold over_budget. destruct (budget_limit self) as [cap|].
  - rewrite Qgtb_true. split; [eauto | intros (c & [= <-] & H); exact H].
  - split; [discriminate | intros (c & [=] & _)].
Qed.

Lemma allocate_refused now cid amount self :
  over_budget self amount = true ->
  allocate_credits now cid amount self = (self, false).
Proof. unfold allocate_credits. intros ->. reflexivity. Qed.

Lemma allocate_granted now cid amount self :
  over_budget self amount = false ->
  allocate_credits now cid amount self =
    ({| balance := fl (balance self + amount);
        budget_limit := budget_limit self;
        usage_history := usage_history self ++
          [AllocateEntry now cid amount (fl (balance self + amount))];
        allocations :=
          <[cid := fl (get_allocation self cid + amount)]> (allocations self) |},
     true).
Proof. unfold allocate_credits. intros ->. reflexivity. Qed.

Lemma get_allocation_insert self cid q b l h c :
  get_allocation {| balance := b; budget_limit := l; usage_history := h;
                    allocations := <[cid := q]> (allocations self) |} c =
  if decide (cid = c) then q else get_allocation self c.
Proof.
  unfold get_allocation. simpl. rewrite lookup_insert.
  destruct (decide (cid = c)); reflexivity.
Qed.

(** C4, as the code has it. The sums are sums of floats: the guard
    compares the binary64 sum balance + amount with the limit, and the
    balance and the allocation become the binary64 sums. So
    [allocate_credits] returns false exactly when a budget limit is set and
    the binary64 sum of balance and amount exceeds it, and then the ledger
    is left as it was; otherwise it returns true, replaces the balance
    and the component's allocation by their binary64 sums with the
    amount, which are the exact sums whenever these are binary64
    numbers, leaves the other allocations and the limit alone and
    appends one allocate record carrying the new balance. With a limit of
    100, allocating 60 to c1 succeeds and allocating 50 more fails,
    leaving balance 60 and allocation(c1) 60. *)
Theorem allocate_credits_spec :
  (forall now cid amount self,
     let r := allocate_credits now cid amount self in
     (snd r = false <->
        exists cap, budget_limit self = Some cap
                    /\ (cap < fl (balance self + amount))%Q)
     /\ (snd r = false -> fst r = self)
     /\ (snd r = true ->
           balance (fst r) = fl (balance self + amount)
           /\ get_allocation (fst r) cid = fl (get_allocation self cid + amount)
           /\ (representable (balance self + amount) ->
                 (balance (fst r) == balance self + amount)%Q)
           /\ (representable (get_allocation self cid + amount) ->
                 (get_allocation (fst r) cid == get_allocation self cid + amount)%Q)
           /\ (forall c, c <> cid -> get_allocation (fst r) c = get_allocation self c)
           /\ budget_limit (fst r) = budget_limit self
           /\ usage_history (fst r) =
                usage_history self ++
                  [AllocateEntry now cid amount (fl (balance self + amount))]))
  /\ (snd (allocate_credits 1 "c1" 60 ledger0) = true
      /\ snd (allocate_credits 2 "c1" 50 ledger1) = false
      /\ get_balance ledger2 = 60%Q
      /\ get_allocation ledger2 "c1" = 60%Q).
Proof.
  split.
  - intros now cid amount self r. subst r.
    destruct (over_budget self amount) eqn:Hob.
    + rewrite (allocate_refused _ _ _ _ Hob). simpl.
      split; [|split]; [| reflexivity | discriminate].
      split; [intros _; by apply over_budget_true | reflexivity].
    + rewrite (allocate_granted _ _ _ _ Hob). cbn [fst snd balance budget_limit usage_history].
      split; [|split]; [| discriminate |].
      * split; [discriminate|]. intros H%over_budget_true. congruence.
      * intros _.
        assert (Ha : get_allocation
                       {| balance := fl (balance self + amount);
                          budget_limit := budget_limit self;
                          usage_history := usage_history self ++
                            [AllocateEntry now cid amount (fl (balance self + amount))];
                          allocations :=
                            <[cid := fl (get_allocation self cid + amount)]>
                              (allocations self) |} cid
                     = fl (get_allocation self cid + amount)).
        { rewrite get_allocation_insert. by rewrite decide_True. }
        split; [done|]. split; [done|]. split; [by intros H|].
        split; [rewrite Ha; by intros H|].
        split; [|done].
        intros c Hc. rewrite get_allocation_insert. by rewrite decide_False.
  - vm_compute. repeat split.
Qed.

(** The same at an instance: 60 credits asked of a ledger capped at 100. *)
Lemma allocate_credits_spec_witness :
  snd (allocate_credits 1 "c1" 60 ledger0) = true /\
  balance (fst (allocate_credits 1 "c1" 60 ledger0)) = fl (balance ledger0 + 60).
Proof.
  split; [reflexivity|].
  apply (proj1 allocate_credits_spec 1%Q "c1" 60%Q ledger0). reflexivity.
Defined.

(** C4 with the sums read as sums of numbers fails: at the limit of 100
    an amount of 1e-15 makes balance + amount exceed the limit, yet the
    binary64 sum is 100 again, so the call is granted; the allocation of
    "c2" grows and the balance is not increased. *)
Lemma rounded_sum_granted_at_limit :
  budget_limit full_ledger = Some 100%Q
  /\ balance full_ledger = 100%Q
  /\ (0 < tiny)%Q
  /\ (100 < balance full_ledger + tiny)%Q
  /\ snd (allocate_credits 2 "c2" tiny full_ledger) = true
  /\ balance (fst (allocate_credits 2 "c2" tiny full_ledger)) = 100%Q
  /\ get_allocation (fst (allocate_credits 2 "c2" tiny full_ledger)) "c2" = tiny.
Proof. vm_compute. repeat split. Qed.


(** *** Allocations stay non-negative *)

Lemma use_refused now cid amount self :
  (get_allocation self cid < amount)%Q ->
  use_credits now cid amount self = (self, false).
Proof.
  intros H%Qltb_true. unfold use_credits. by rewrite H.
Qed.

Lemma use_granted now cid amount self :
  (amount <= get_allocation self cid)%Q ->
  use_credits now cid amount self =
    ({| balance := balance self;
        budget_limit := budget_limit self;
        usage_history := usage_history self ++
          [UseEntry now cid amount (fl (get_allocation self cid - amount))];
        allocations :=
          <[cid := fl (get_allocation self cid - amount)]> (allocations self) |},
     true).
Proof.
  intros H%Qltb_false. unfold use_credits. by rewrite H.
Qed.

Lemma new_manager_nonneg init limit : allocations_nonneg (new_manager init limit).
Proof. intros c. unfold get_allocation. simpl. rewrite lookup_empty. simpl. lra. Qed.

Lemma use_credits_nonneg now cid amount self :
  allocations_nonneg self ->
  allocations_nonneg (fst (use_credits now cid amount self)).
Proof.
  intros Hinv.
  destruct (Qlt_le_dec (get_allocation self cid) amount) as [Hlt|Hle].
  - by rewrite (use_refused _ _ _ _ Hlt).
  - rewrite (use_granted _ _ _ _ Hle). simpl. intros c.
    rewrite get_allocation_insert. destruct (decide (cid = c)); [|apply Hinv].
    apply fl_nonneg. lra.
Qed.

Lemma allocate_credits_nonneg now cid amount self :
  (0 <= amount)%Q ->
  allocations_nonneg self ->
  allocations_nonneg (fst (allocate_credits now cid amount self)).
Proof.
  intros Ha Hinv. destruct (over_budget self amount) eqn:Hob.
  - by rewrite (allocate_refused _ _ _ _ Hob).
  - rewrite (allocate_granted _ _ _ _ Hob). simpl. intros c.
    rewrite get_allocation_insert. destruct (decide (cid = c)); [|apply Hinv].
    specialize (Hinv cid). apply fl_nonneg. lra.
Qed.

Lemma run_call_nonneg c self :
  allocates_nonneg c -> allocations_nonneg self ->
  allocations_nonneg (fst (run_call c self)).
Proof.
  destruct c; simpl; intros Hc Hinv.
  - by apply allocate_credits_nonneg.
  - by apply use_credits_nonneg.
Qed.

Lemma run_calls_nonneg cs : forall self,
  Forall allocates_nonneg cs -> allocations_nonneg self ->
  allocations_nonneg (run_calls cs self).
Proof.
  induction cs as [|c cs IH]; intros self Hcs Hinv; [exact Hinv|].
  inversion Hcs as [|? ? Hc Hcs']; subst. unfold run_calls. simpl.
  apply IH; [exact Hcs' | by apply run_call_nonneg].
Qed.

(** C9, as the code has it. A negative amount is taken by
    [allocate_credits] as it comes, so the claim needs the allocated
    amounts to be non-negative: for every sequence of [allocate_credits]
    and [use_credits] calls on a fresh manager in which no allocation has a
    negative amount, every component's allocation is at least 0 after each
    call; and [use_credits] answers false and leaves the ledger as it was
    when the component's allocation is below the amount asked. *)
Theorem allocations_stay_nonneg :
  (forall init limit cs,
     Forall allocates_nonneg cs ->
     forall n c,
       (0 <= get_allocation (run_calls (take n cs) (new_manager init limit)) c)%Q)
  /\ (forall now cid amount self,
        (get_allocation self cid < amount)%Q ->
        use_credits now cid amount self = (self, false)).
Proof.
  split.
  - intros init limit cs Hcs n c.
    apply run_calls_nonneg; [|apply new_manager_nonneg].
    by apply Forall_take.
  - apply use_refused.
Qed.

Lemma allocations_stay_nonneg_witness :
  Forall allocates_nonneg plain_calls /\
  (0 <= get_allocation (run_calls (take 3 plain_calls) open_ledger) "c")%Q.
Proof.
  assert (H : Forall allocates_nonneg plain_calls).
  { repeat constructor; simpl; lra. }
  split; [exact H|].
  exact (proj1 allocations_stay_nonneg 0%Q None plain_calls H 3%nat "c").
Defined.

(** C9 as stated fails: on a fresh manager without a limit,
    [allocate_credits("c", -5)] succeeds and leaves the allocation of "c"
    at -5. *)
Lemma negative_allocation_accepted :
  snd (allocate_credits 1 "c" (-5) open_ledger) = true /\
  (get_allocation (run_calls refund open_ledger) "c" < 0)%Q.
Proof. split; [reflexivity|]. vm_compute. reflexivity. Qed.

(** *** The balance *)

Lemma use_credits_balance now cid amount self :
  balance (fst (use_credits now cid amount self)) = balance self.
Proof. unfold use_credits. by destruct (Qltb _ _). Qed.








End CreditLedger.

(** ** Cost-aware selection *)

Module CostSelection.
Import ModelProviderInterface ResourceOptimization Scenarios.Selection.

(** *** The capability filter *)

Lemma has_all_capabilities_iff p required :
  has_all_capabilities p required = true <->
  forall cap, cap ∈ required ->
    exists model_id, model_id ∈ list_available_models p
                     /\ cap ∈ get_model_capabilities p model_id.
Proof.
  unfold has_all_capabilities. rewrite forallb_forall. split.
  - intros H cap Hcap%list_elem_of_In. apply H in Hcap.
    apply existsb_exists in Hcap as (m & Hm%list_elem_of_In & Hc%bool_decide_eq_true).
    by exists m.
  - intros H cap Hcap%list_elem_of_In. destruct (H cap Hcap) as (m & Hm & Hc).
    apply existsb_exists. exists m. split; [by apply list_elem_of_In|].
    by apply bool_decide_eq_true.
Qed.

Lemma candidate_iff reg required e :
  e ∈ candidate_providers reg required <->
  e ∈ reg /\ forall cap, cap ∈ required ->
    exists model_id, model_id ∈ list_available_models (snd e)
                     /\ cap ∈ get_model_capabilities (snd e) model_id.
Proof.
  unfold candidate_providers. rewrite list_elem_of_filter, has_all_capabilities_iff.
  tauto.
Qed.

Lemma candidates_NoDup reg required :
  registry_ok reg -> NoDup (map fst (candidate_providers reg required)).
Proof.
  unfold registry_ok, list_providers, candidate_providers.
  induction reg as [|e reg IH]; intros Hnd; [constructor|].
  cbn [map] in Hnd. inversion Hnd as [|? ? Hnotin Hnd']; subst.
  destruct (decide (has_all_capabilities (snd e) required = true)) as [Hc|Hc].
  - rewrite filter_cons_True by done. cbn [map]. constructor; [|by apply IH].
    intros Hin. apply Hnotin.
    apply list_elem_of_In, in_map_iff in Hin as (e' & He' & Hin).
    apply list_elem_of_In, in_map_iff. exists e'. split; [done|].
    apply list_elem_of_In. apply list_elem_of_In in Hin.
    by apply list_elem_of_filter in Hin as [_ Hin].
  - rewrite filter_cons_False by done. by apply IH.
Qed.

(** *** The stable sort *)

Lemma insert_by_cost_elem {A} (x y : A * Q) l :
  y ∈ insert_by_cost x l <-> y = x \/ y ∈ l.
Proof.
  induction l as [|z l IH]; simpl.
  - rewrite list_elem_of_singleton, elem_of_nil. tauto.
  - destruct (Qltb (snd x) (snd z)).
    + rewrite !elem_of_cons. tauto.
    + rewrite !elem_of_cons, IH. tauto.
Qed.

Lemma insert_by_cost_ascending {A} (x : A * Q) l :
  ascending l -> ascending (insert_by_cost x l).
Proof.
  induction l as [|z l IH]; simpl; intros Hl.
  - split; [|done]. intros y Hy. by apply elem_of_nil in Hy.
  - destruct Hl as [Hz Hl]. destruct (Qltb (snd x) (snd z)) eqn:Hlt; simpl.
    + apply Qltb_true in Hlt. split; [|by split].
      intros y [->|Hy]%elem_of_cons; [lra|]. specialize (Hz y Hy). lra.
    + apply Qltb_false in Hlt. split; [|by apply IH].
      intros y [->|Hy]%insert_by_cost_elem; [lra | by apply Hz].
Qed.

Lemma sort_fold_spec {A} (l : list (A * Q)) : forall acc,
  ascending acc ->
  ascending (fold_left (fun acc x => insert_by_cost x acc) l acc)
  /\ forall y, y ∈ fold_left (fun acc x => insert_by_cost x acc) l acc
               <-> y ∈ acc \/ y ∈ l.
Proof.
  induction l as [|x l IH]; simpl; intros acc Hacc.
  - split; [done|]. intros y. rewrite elem_of_nil. tauto.
  - destruct (IH (insert_by_cost x acc) (insert_by_cost_ascending x acc Hacc))
      as [Hs Hin].
    split; [done|]. intros y. rewrite Hin, insert_by_cost_elem, elem_of_cons. tauto.
Qed.

Lemma sort_by_cost_elem {A} (l : list (A * Q)) y : y ∈ sort_by_cost l <-> y ∈ l.
Proof.
  unfold sort_by_cost. rewrite (proj2 (sort_fold_spec l [] I)), elem_of_nil. tauto.
Qed.

(** The first element of the sorted list is one of the list and the
    cheapest of it. *)
Lemma sort_by_cost_head {A} (l : list (A * Q)) x rest :
  sort_by_cost l = x :: rest ->
  x ∈ l /\ forall y, y ∈ l -> (snd x <= snd y)%Q.
Proof.
  intros Hs. pose proof (proj1 (sort_fold_spec l [] I)) as Hasc.
  fold (sort_by_cost l) in Hasc. rewrite Hs in Hasc. destruct Hasc as [Hmin _].
  split.
  - apply sort_by_cost_elem. rewrite Hs. apply elem_of_cons. by left.
  - intros y Hy%sort_by_cost_elem. rewrite Hs in Hy.
    apply elem_of_cons in Hy as [->|Hy]; [lra | by apply Hmin].
Qed.

Lemma sort_by_cost_nil {A} (l : list (A * Q)) : sort_by_cost l = [] <-> l = [].
Proof.
  split; [|by intros ->].
  intros Hs. apply elem_of_nil_inv. intros y Hy%sort_by_cost_elem.
  rewrite Hs in Hy. by apply elem_of_nil in Hy.
Qed.


(** *** The estimate and its cache *)

Lemma _estimate_provider_cost_eq now pid p caps cache :
  _estimate_provider_cost now pid p caps cache =
    (fst (estimate_models now pid p caps (list_available_models p) cache None),
     default 1%Q
       (snd (estimate_models now pid p caps (list_available_models p) cache None))).
Proof.
  unfold _estimate_provider_cost.
  by destruct (estimate_models now pid p caps (list_available_models p) cache None).
Qed.

(** The estimate of a provider reads the cache at that provider's keys
    only. *)
Lemma estimate_models_agree now pid p caps models : forall cache1 cache2 mc,
  agree_on pid cache1 cache2 ->
  snd (estimate_models now pid p caps models cache1 mc)
  = snd (estimate_models now pid p caps models cache2 mc)
  /\ agree_on pid (fst (estimate_models now pid p caps models cache1 mc))
                  (fst (estimate_models now pid p caps models cache2 mc)).
Proof.
  induction models as [|m models IH]; intros cache1 cache2 mc Hag; [done|].
  simpl. destruct (negb _); [by apply IH|].
  rewrite <- (Hag m). destruct (cache1 !! (pid, m)); [by apply IH|].
  destruct (estimate_cost p m); [|by apply IH].
  apply IH. intros m'. destruct (decide (m = m')) as [->|Hne].
  - by rewrite !lookup_insert_eq.
  - rewrite !lookup_insert_ne by congruence. apply Hag.
Qed.

(** ... and writes it at that provider's keys only. *)
Lemma estimate_models_frame now pid p caps models q : forall cache mc,
  q <> pid ->
  agree_on q (fst (estimate_models now pid p caps models cache mc)) cache.
Proof.
  induction models as [|m models IH]; intros cache mc Hq; [done|].
  simpl. destruct (negb _); [by apply IH|].
  destruct (cache !! (pid, m)); [by apply IH|].
  destruct (estimate_cost p m); [|by apply IH].
  intros m'. rewrite (IH _ _ Hq m').
  apply lookup_insert_ne. congruence.
Qed.

Lemma estimate_agree now cache1 cache2 required e :
  agree_on (fst e) cache1 cache2 ->
  estimate now cache1 required e = estimate now cache2 required e.
Proof.
  intros Hag. unfold estimate. rewrite !_estimate_provider_cost_eq. simpl.
  by rewrite (proj1 (estimate_models_agree now (fst e) (snd e) (Some required)
                       (list_available_models (snd e)) cache1 cache2 None Hag)).
Qed.

Lemma affordable_test mc c :
  match mc with Some m => Qgtb c m | None => false end = false <-> affordable mc c.
Proof. destruct mc as [m|]; simpl; [apply Qgtb_false | tauto]. Qed.

(** The costs [_rank_by_cost] collects: each candidate within the cost
    limit, with its estimate under the cache the selection started from. *)
Lemma rank_loop_elem now required mc cache0 : forall cands cache,
  NoDup (map fst cands) ->
  (forall e, e ∈ cands -> agree_on (fst e) cache cache0) ->
  forall e c,
    (e, c) ∈ snd (rank_loop now required mc cands cache) <->
    e ∈ cands /\ c = estimate now cache0 required e /\ affordable mc c.
Proof.
  induction cands as [|[pid p] cands IH]; intros cache Hnd Hag e c.
  - simpl. rewrite !elem_of_nil. tauto.
  - cbn [map fst] in Hnd. inversion Hnd as [|? ? Hnotin Hnd']; subst.
    assert (Hc0 : default 1%Q
                    (snd (estimate_models now pid p (Some required)
                            (list_available_models p) cache None))
                  = estimate now cache0 required (pid, p)).
    { rewrite <- (estimate_agree now cache cache0) by (apply Hag; by left).
      unfold estimate. by rewrite _estimate_provider_cost_eq. }
    cbn [rank_loop]. rewrite _estimate_provider_cost_eq.
    set (cache1 := fst (estimate_models now pid p (Some required)
                          (list_available_models p) cache None)).
    assert (Hrest : forall e', e' ∈ cands -> agree_on (fst e') cache1 cache0).
    { intros e' He' m. unfold cache1. rewrite estimate_models_frame.
      - apply (Hag e'). by right.
      - intros Heq. apply Hnotin, list_elem_of_In, in_map_iff. exists e'.
        split; [done | by apply list_elem_of_In]. }
    specialize (IH cache1 Hnd' Hrest e c).
    destruct (rank_loop now required mc cands cache1) as [cache2 costs].
    cbn [fst snd] in IH |- *. rewrite Hc0.
    destruct (match mc with Some m => Qgtb _ m | None => false end) eqn:Htest;
      cbn [snd].
    + rewrite IH, elem_of_cons. split; [tauto|].
      intros [[->|He] [-> Haff]]; [|tauto].
      apply affordable_test in Haff. congruence.
    + apply affordable_test in Htest.
      rewrite !elem_of_cons, IH. split.
      * intros [[= -> ->]|H]; tauto.
      * intros [[->|He] [-> Haff]]; [by left | right; tauto].
Qed.

(** *** What [select_provider] answers *)

Lemma select_provider_result now cid req self :
  let required := default [] (capabilities req) in
  let cands := candidate_providers (provider_registry self) required in
  let ranking := rank_loop now required (max_cost req) cands (cost_cache self) in
  snd (select_provider now cid req self) =
    match cands with
    | [] => inl NoProvider
    | _ =>
        match map fst (sort_by_cost (snd ranking)) with
        | [] => inl NoAffordable
        | (provider_id, provider) :: _ =>
            let c := snd (_estimate_provider_cost now provider_id provider
                            (capabilities req) (fst ranking)) in
            if Qltb (get_allocation (credit_manager self) cid) c
               && over_budget (credit_manager self) c
            then inl Insufficient
            else inr (provider_id, provider)
        end
    end.
Proof.
  intros required cands ranking. unfold select_provider.
  fold required. fold cands. destruct cands as [|e0 cands0] eqn:Hc; [done|].
  unfold _rank_by_cost. fold ranking. destruct ranking as [cache1 costs].
  cbn [fst snd]. destruct (map fst (sort_by_cost costs)) as [|[pid p] rest]; [done|].
  destruct (_estimate_provider_cost now pid p (capabilities req) cache1) as [cache2 c].
  cbn [snd]. destruct (Qltb _ c); [|done]. cbn [andb].
  unfold allocate_credits. by destruct (over_budget _ c).
Qed.


(** *** The estimate is the least of the provider's estimates *)

Lemma estimate_models_uncached now pid p caps models : forall cache mc,
  cache_sound pid p cache ->
  snd (estimate_models now pid p caps models cache mc)
  = least_estimate p (filter (fun m => eligible p caps m = true) models) mc.
Proof.
  unfold least_estimate.
  induction models as [|m models IH]; intros cache mc Hsound; [done|].
  cbn [estimate_models]. fold (eligible p caps m).
  destruct (eligible p caps m) eqn:Hel; cbn [negb].
  - rewrite filter_cons_True by done. cbn [fold_left].
    destruct (cache !! (pid, m)) as [e|] eqn:Hlk.
    + rewrite (Hsound m e Hlk). by apply IH.
    + destruct (estimate_cost p m) as [c|] eqn:Hest; [|by apply IH].
      apply IH. intros m' e'. destruct (decide (m = m')) as [<-|Hne].
      * rewrite lookup_insert_eq. by intros [= <-].
      * rewrite lookup_insert_ne by congruence. apply Hsound.
  - rewrite filter_cons_False by (rewrite Hel; done). by apply IH.
Qed.

Lemma cost_min_cases a b :
  (cost_min a b = a \/ cost_min a b = b)
  /\ (forall x, a = Some x -> exists z, cost_min a b = Some z /\ (z <= x)%Q)
  /\ (forall y, b = Some y -> exists z, cost_min a b = Some z /\ (z <= y)%Q).
Proof.
  destruct a as [x|], b as [y|]; simpl; try (destruct (Qltb y x) eqn:Hlt);
    repeat split; auto; intros ? [= <-]; eexists; (split; [reflexivity|]);
    try apply Qltb_true in Hlt; try apply Qltb_false in Hlt; lra.
Qed.

Lemma least_estimate_spec p models : forall start,
  let r := least_estimate p models start in
  (r = start \/ exists m, m ∈ models /\ estimate_cost p m = r)
  /\ (forall x, start = Some x -> exists z, r = Some z /\ (z <= x)%Q)
  /\ (forall m x, m ∈ models -> estimate_cost p m = Some x ->
        exists z, r = Some z /\ (z <= x)%Q).
Proof.
  unfold least_estimate.
  induction models as [|m models IH]; intros start; cbn [fold_left].
  - split; [by left|]. split; [eauto using Qle_refl|].
    intros m x Hm. by apply elem_of_nil in Hm.
  - destruct (IH (cost_min start (estimate_cost p m))) as (Hsel & Hstart & Hall).
    destruct (cost_min_cases start (estimate_cost p m)) as (Hor & Hl & Hr).
    split; [|split].
    + destruct Hsel as [Hsel|(m' & Hm' & Hsel)].
      * rewrite Hsel. destruct Hor as [->| ->]; [by left|].
        right. exists m. split; [by left | done].
      * right. exists m'. split; [by right | done].
    + intros x Hx. destruct (Hl x Hx) as (z & Hz & Hzx).
      destruct (Hstart z Hz) as (z' & Hz' & Hzz). exists z'. split; [done | lra].
    + intros m' x [->|Hm']%elem_of_cons Hest.
      * destruct (Hr x Hest) as (z & Hz & Hzx).
        destruct (Hstart z Hz) as (z' & Hz' & Hzz). exists z'. split; [done | lra].
      * by apply (Hall m' x).
Qed.

(** Under a cache that holds the provider's own answers, the estimate of
    a provider is the least estimate the provider gives for a model that
    has every required capability, and 1 when it gives none. *)
Lemma estimate_is_least now pid p required cache :
  cache_sound pid p cache ->
  let c := estimate now cache required (pid, p) in
  (forall m x, m ∈ list_available_models p -> model_meets p m required = true ->
     estimate_cost p m = Some x -> (c <= x)%Q)
  /\ ((exists m, m ∈ list_available_models p /\ model_meets p m required = true
                 /\ estimate_cost p m = Some c)
      \/ (c = 1%Q /\ forall m, m ∈ list_available_models p ->
                       model_meets p m required = true ->
                       estimate_cost p m = None)).
Proof.
  intros Hsound c. subst c. unfold estimate. rewrite _estimate_provider_cost_eq.
  cbn [fst snd]. rewrite (estimate_models_uncached _ _ _ _ _ _ _ Hsound).
  set (ms := filter (fun m => eligible p (Some required) m = true)
               (list_available_models p)).
  destruct (least_estimate_spec p ms None) as (Hsel & _ & Hall).
  assert (Hms : forall m, m ∈ ms <->
            m ∈ list_available_models p /\ model_meets p m required = true).
  { intros m. unfold ms. rewrite list_elem_of_filter. simpl. tauto. }
  split.
  - intros m x Hm Hmeets Hest.
    destruct (Hall m x (proj2 (Hms m) (conj Hm Hmeets)) Hest) as (z & -> & Hz).
    exact Hz.
  - destruct (least_estimate p ms None) as [z|] eqn:Hr.
    + left. destruct Hsel as [[=]|(m & Hm & Hest)].
      apply Hms in Hm as [Hm Hmeets]. by exists m.
    + right. split; [done|]. intros m Hm Hmeets.
      destruct (estimate_cost p m) as [x|] eqn:Hest; [|done].
      destruct (Hall m x (proj2 (Hms m) (conj Hm Hmeets)) Hest) as (z & [=] & _).
Qed.


Lemma exceeds_iff mc c : exceeds mc c <-> ~ affordable mc c.
Proof.
  destruct mc as [m|]; simpl; [|tauto].
  split; [apply Qlt_not_le | apply Qnot_le_lt].
Qed.

Lemma agree_on_refl pid cache : agree_on pid cache cache.
Proof. by intros m. Qed.

(** The selection, given the candidates and their estimates. *)
Lemma select_provider_ranked now cid req self :
  registry_ok (provider_registry self) ->
  let required := default [] (capabilities req) in
  let cands := candidate_providers (provider_registry self) required in
  let est := estimate now (cost_cache self) required in
  let answer := snd (select_provider now cid req self) in
  (answer = inl NoProvider <-> cands = [])
  /\ (answer = inl NoAffordable <->
        cands <> [] /\ forall e, e ∈ cands -> exceeds (max_cost req) (est e))
  /\ (forall e, answer = inr e ->
        e ∈ cands /\ affordable (max_cost req) (est e)
        /\ forall e', e' ∈ cands -> affordable (max_cost req) (est e') ->
                      (est e <= est e')%Q)
  /\ (budget_limit (credit_manager self) = None ->
        (exists e, e ∈ cands /\ affordable (max_cost req) (est e)) ->
        exists e, answer = inr e).
Proof.
  intros Hreg required cands est answer.
  pose proof (select_provider_result now cid req self) as Hres.
  cbv zeta in Hres. fold required cands answer in Hres.
  pose proof (rank_loop_elem now required (max_cost req) (cost_cache self) cands
                (cost_cache self) (candidates_NoDup _ required Hreg)
                (fun e _ => agree_on_refl (fst e) (cost_cache self))) as Hcosts.
  fold est in Hcosts.
  set (ranking := rank_loop now required (max_cost req) cands (cost_cache self))
    in Hres, Hcosts.
  clearbody ranking. clearbody answer est cands. clear Hreg.
  destruct cands as [|e0 cands0] eqn:Hc.
  { rewrite Hres. split; [done|]. split; [|split].
    - split; [discriminate | by intros [? _]].
    - intros e He. discriminate.
    - intros _ (e & He & _). by apply elem_of_nil in He. }
  rewrite <- Hc in *. assert (Hne : cands <> []) by (rewrite Hc; done).
  destruct (sort_by_cost (snd ranking)) as [|[[pid p] c] rest] eqn:Hsort.
  - cbn [map] in Hres. apply (proj1 (sort_by_cost_nil _)) in Hsort.
    assert (Hnone : forall e, e ∈ cands -> exceeds (max_cost req) (est e)).
    { intros e He. apply exceeds_iff. intros Haff.
      assert (Hin : (e, est e) ∈ snd ranking) by (apply Hcosts; tauto).
      rewrite Hsort in Hin. by apply elem_of_nil in Hin. }
    rewrite Hres.
    split; [|split; [|split]].
    + split; [discriminate | done].
    + split; [done | reflexivity].
    + intros e He. discriminate.
    + intros _ (e & He & Haff).
      destruct (proj1 (exceeds_iff _ _) (Hnone e He) Haff).
  - destruct (sort_by_cost_head _ _ _ Hsort) as [Hin Hmin].
    apply Hcosts in Hin as (Hcand & Hcost & Haff). cbn [fst snd] in *.
    cbn [map fst] in Hres.
    split; [|split; [|split]].
    + split; [|done]. rewrite Hres. by destruct (_ && _).
    + split.
      * rewrite Hres. by destruct (_ && _).
      * intros [_ Hall]. apply Hall, exceeds_iff in Hcand. subst c. done.
    + intros e He. rewrite Hres in He. destruct (_ && _); [done|].
      injection He as <-. rewrite <- Hcost. split; [done|]. split; [done|].
      intros e' He' Haff'.
      apply (Hmin (e', est e')), Hcosts. tauto.
    + intros Hnolimit _. exists (pid, p). rewrite Hres.
      unfold over_budget. rewrite Hnolimit. by rewrite andb_false_r.
Qed.

(** C5, as the code has it. The candidates are the registered providers
    in which every required capability is listed by some model, not
    necessarily by one and the same model. A candidate's estimate is the
    least estimate it gives for a model holding all the required
    capabilities, and 1 when it gives none. The selection fails with
    "No provider found with required capabilities" exactly when there is
    no candidate, and with "No provider found within cost constraints"
    exactly when there are candidates and every estimate exceeds
    max_cost; a provider it returns is a candidate within max_cost whose
    estimate is the least among those, and with no budget limit it does
    return one when one exists. With P1 at cost 0.5 and P2 at cost 1.0,
    both holding the capability, P1 is returned, and with max_cost = 0.3
    the selection fails on the cost constraint. *)
Theorem select_provider_cheapest :
  (forall reg required e,
     e ∈ candidate_providers reg required <->
     e ∈ reg /\ forall cap, cap ∈ required ->
       exists model_id, model_id ∈ list_available_models (snd e)
                        /\ cap ∈ get_model_capabilities (snd e) model_id)
  /\ (forall now pid p required cache,
        cache_sound pid p cache ->
        let c := estimate now cache required (pid, p) in
        (forall m x, m ∈ list_available_models p ->
           model_meets p m required = true ->
           estimate_cost p m = Some x -> (c <= x)%Q)
        /\ ((exists m, m ∈ list_available_models p
                       /\ model_meets p m required = true
                       /\ estimate_cost p m = Some c)
            \/ (c = 1%Q /\ forall m, m ∈ list_available_models p ->
                             model_meets p m required = true ->
                             estimate_cost p m = None)))
  /\ (forall now cid req self,
        registry_ok (provider_registry self) ->
        let required := default [] (capabilities req) in
        let cands := candidate_providers (provider_registry self) required in
        let est := estimate now (cost_cache self) required in
        let answer := snd (select_provider now cid req self) in
        (answer = inl NoProvider <-> cands = [])
        /\ (answer = inl NoAffordable <->
              cands <> [] /\ forall e, e ∈ cands -> exceeds (max_cost req) (est e))
        /\ (forall e, answer = inr e ->
              e ∈ cands /\ affordable (max_cost req) (est e)
              /\ forall e', e' ∈ cands -> affordable (max_cost req) (est e') ->
                            (est e <= est e')%Q)
        /\ (budget_limit (credit_manager self) = None ->
              (exists e, e ∈ cands /\ affordable (max_cost req) (est e)) ->
              exists e, answer = inr e))
  /\ (snd (select_provider 1 "component" wants_text two_providers) = inr ("P1", P1)
      /\ snd (select_provider 1 "component" wants_cheap_text two_providers)
         = inl NoAffordable).
Proof.
  split; [apply candidate_iff|].
  split; [apply estimate_is_least|].
  split; [apply select_provider_ranked|].
  split; reflexivity.
Qed.

Lemma two_providers_ok : registry_ok (provider_registry two_providers).
Proof.
  unfold registry_ok. simpl. apply NoDup_cons. split; [|apply NoDup_singleton].
  intros H%list_elem_of_singleton. discriminate.
Qed.

Lemma select_provider_cheapest_witness :
  registry_ok (provider_registry two_providers)
  /\ snd (select_provider 1 "component" wants_text two_providers) = inr ("P1", P1)
  /\ (estimate 1 (cost_cache two_providers) [TEXT_GENERATION] ("P1", P1)
       <= estimate 1 (cost_cache two_providers) [TEXT_GENERATION] ("P2", P2))%Q.
Proof.
  split; [exact two_providers_ok|]. split; [reflexivity|].
  refine (proj2 (proj2 (proj1 (proj2 (proj2
            (proj1 (proj2 (proj2 select_provider_cheapest))
               1%Q "component" wants_text two_providers two_providers_ok)))
            ("P1", P1) eq_refl)) ("P2", P2) _ I).
  apply elem_of_cons. by left.
Defined.

(** C5 as stated fails: the provider "S" has no single model holding
    both required capabilities (one model has TEXT_GENERATION, the other
    CODE_GENERATION), and yet it is a candidate and is the provider
    selected. *)
Lemma split_capabilities_selected :
  (forall m, m ∈ list_available_models split_provider ->
     model_meets split_provider m [TEXT_GENERATION; CODE_GENERATION] = false)
  /\ candidate_providers (provider_registry split_selector)
       [TEXT_GENERATION; CODE_GENERATION] = [("S", split_provider)]
  /\ snd (select_provider 1 "component" wants_both split_selector)
     = inr ("S", split_provider).
Proof.
  split; [|split; reflexivity].
  intros m Hm. simpl in Hm.
  apply elem_of_cons in Hm as [->|Hm]; [reflexivity|].
  apply list_elem_of_singleton in Hm as ->. reflexivity.
Qed.

End CostSelection.

(** ** The sleep-time scheduler *)

Module SleepScheduler.
Import SleepOptimizer Scenarios.Sleep.

(** *** Lower-casing and search *)

Lemma prefix_lower n : forall h,
  String.prefix n h = true -> String.prefix (lower n) (lower h) = true.
Proof.
  induction n as [|a n IH]; intros h; [by destruct h|].
  destruct h as [|b h]; simpl; [done|].
  destruct (ascii_dec a b) as [->|]; [|done].
  intros H. destruct (ascii_dec (lower_ascii b) (lower_ascii b)); [|done].
  by apply IH.
Qed.

Lemma contains_lower n : forall h,
  contains n h = true -> contains (lower n) (lower h) = true.
Proof.
  induction h as [|b h IH]; simpl.
  - rewrite orb_false_r. intros H. apply (prefix_lower n "") in H.
    simpl in H. by rewrite H.
  - intros [H|H]%orb_true_iff.
    + apply (prefix_lower n (String b h)) in H. simpl in H. by rewrite H.
    + rewrite (IH H). apply orb_true_r.
Qed.

Lemma requeue_after_true err :
  requeue_after err = true <->
  exists e, err = Some e /\ e <> EmptyString /\ contains "critical" (lower e) = false.
Proof.
  unfold requeue_after. destruct err as [e|].
  - rewrite andb_true_iff, !negb_true_iff, bool_decide_eq_false. split.
    + intros [H1 H2]. by exists e.
    + intros (e' & [= <-] & H1 & H2). done.
  - split; [done | by intros (e & [=] & _)].
Qed.

Lemma critical_is_terminal e :
  contains "critical" e = true -> requeue_after (Some e) = false.
Proof.
  intros H%contains_lower. unfold requeue_after.
  change (lower "critical") with "critical" in H. rewrite H.
  apply andb_false_r.
Qed.

Lemma value_lowered p :
  value (lowered p) = Z.max 0 (value p - 1)
  /\ (0 < value p -> value (lowered p) < value p).
Proof. destruct p; vm_compute; split; (reflexivity || discriminate || done). Qed.

(** C8, as the code has it. The test of [mark_task_failed] is
    [error and "critical" not in error.lower()]: the task is put back on
    the queue, at priority max(0, value - 1) and with status pending,
    exactly when the error is a non-empty string whose lower-cased form
    does not contain "critical"; the new priority is strictly lower unless
    it was already 0. Otherwise (no error, an empty error, or "critical"
    in any letter case, so in particular an error that contains
    "critical") the task keeps status failed and its priority, and the
    queue is as it was. *)
Theorem mark_task_failed_requeue :
  (forall now id err self t,
     get_task self id = Some t ->
     let r := mark_task_failed now id err self in
     snd r = true
     /\ (requeue_after err = true ->
           exists t', get_task (fst r) id = Some t'
             /\ status t' = pending
             /\ value (priority t') = Z.max 0 (value (priority t) - 1)
             /\ (0 < value (priority t) -> value (priority t') < value (priority t))
             /\ task_queue (fst r)
                = heappush (task_queue self) (- value (priority t'), id))
     /\ (requeue_after err = false ->
           exists t', get_task (fst r) id = Some t'
             /\ status t' = failed
             /\ priority t' = priority t
             /\ task_queue (fst r) = task_queue self))
  /\ (forall err,
        requeue_after err = true <->
        exists e, err = Some e /\ e <> EmptyString
                  /\ contains "critical" (lower e) = false)
  /\ (forall e, contains "critical" e = true -> requeue_after (Some e) = false).
Proof.
  split; [|split; [apply requeue_after_true | apply critical_is_terminal]].
  intros now id err self t Ht r. subst r. unfold mark_task_failed. rewrite Ht.
  destruct (requeue_after err) eqn:Hre; simpl.
  - split; [done|]. split; [|done]. intros _.
    eexists. unfold get_task. simpl. rewrite lookup_insert_eq.
    split; [reflexivity|]. simpl.
    destruct (value_lowered (priority t)) as [Hv Hs]. done.
  - split; [done|]. split; [done|]. intros _.
    eexists. unfold get_task. simpl. rewrite lookup_insert_eq. done.
Qed.

Lemma mark_task_failed_requeue_witness :
  get_task handed_out "job" = Some (mark_scheduled 5 job)
  /\ requeue_after (Some "transient error") = true
  /\ exists t', get_task (fst (mark_task_failed 9 "job" (Some "transient error")
                                  handed_out)) "job" = Some t'
       /\ status t' = pending /\ priority t' = MEDIUM.
Proof.
  assert (Hg : get_task handed_out "job" = Some (mark_scheduled 5 job))
    by (vm_compute; reflexivity).
  split; [exact Hg|]. split; [reflexivity|].
  destruct (proj1 (proj2 (proj1 mark_task_failed_requeue 9%Q "job"
              (Some "transient error") handed_out _ Hg)) eq_refl)
    as (t' & Ht' & Hst & Hv & _).
  exists t'. split; [exact Ht'|]. split; [exact Hst|].
  destruct (priority t'); vm_compute in Hv; congruence.
Defined.

(** C8 as stated fails: the empty error string does not contain
    "critical", and yet the task stays failed and is not put back on the
    queue. *)
Lemma empty_error_not_requeued :
  contains "critical" "" = false
  /\ (status <$> get_task handed_out "job") = Some scheduled
  /\ task_queue handed_out = []
  /\ (status <$> get_task (fst (mark_task_failed 9 "job" (Some "") handed_out)) "job")
     = Some failed
  /\ task_queue (fst (mark_task_failed 9 "job" (Some "") handed_out)) = [].
Proof. vm_compute. repeat split. Qed.

(** *** [get_next_task] on a blocked head *)

Lemma with_queue_same self : with_queue (task_queue self) self = self.
Proof. by destruct self. Qed.

(** A head task that waits for a dependency is popped and pushed back
    under the key it had: the queue is what it was, and the loop never
    leaves this state. *)
Lemma blocked_head_spins now self k id rest task :
  task_queue self = (k, id) :: rest ->
  tasks self !! id = Some task ->
  id ∉ scheduled_tasks self -> id ∉ completed_tasks self ->
  dependencies_met self task = false ->
  heappush rest (- value (priority task), id) = (k, id) :: rest ->
  forall fuel, get_next_task_fuel fuel now self = None.
Proof.
  intros Hq Ht Hs Hc Hd Hpush fuel.
  induction fuel as [|fuel IH]; [reflexivity|].
  simpl. rewrite Hq, Ht.
  rewrite bool_decide_eq_false_2 by (intros [?|?]; done).
  rewrite Hd. simpl. rewrite Hpush, <- Hq, with_queue_same. exact IH.
Qed.

(** C3 fails on the code. The scheduler holds the single task "a", which
    waits for "x"; no queued task has its dependencies completed, and
    [get_next_task] does not return: whatever the number of loop turns
    allowed, the loop is still turning. *)
Theorem get_next_task_spins :
  forall fuel now, get_next_task_fuel fuel now blocked_scheduler = None.
Proof.
  intros fuel now.
  apply (blocked_head_spins now blocked_scheduler (-1) "a" [] waiting);
    try reflexivity; vm_compute; set_solver.
Qed.

End SleepScheduler.

(** ** The orchestrator: single tasks *)

Module SingleTask.
Import ModelProviderInterface TaskOrchestrator Scenarios.Orchestration.

Lemma get_task_store self id t log id' :
  get_task (store id t log self) id' =
  if decide (id = id') then Some t else get_task self id'.
Proof. unfold get_task, store. simpl. apply lookup_insert. Qed.

(** One unfolding of [execute_task_fuel] when the attempt fails. *)
Lemma execute_task_fuel_failure fuel self id task e :
  get_task self id = Some task ->
  unsatisfied_dependency self (dependencies task) = None ->
  outcome (fst (invoke self id (with_status RUNNING task))) = inl e ->
  let running := with_status RUNNING task in
  let attempt := fst (invoke self id running) in
  let log := snd (invoke self id running) in
  let failed := with_error (Some e)
                  (with_retry_count (retry_count (apply_attempt attempt running) + 1)
                     (apply_attempt attempt running)) in
  execute_task_fuel (S fuel) self id =
    if retry_count task + 1 <? max_retries task
    then execute_task_fuel fuel (store id failed log self) id
    else Some (store id (with_status FAILED failed) log self, inl e).
Proof.
  intros Ht Hdeps Hout. simpl. rewrite Ht, Hdeps.
  destruct (invoke self id (with_status RUNNING task)) as [attempt log] eqn:Hinv.
  simpl in *. rewrite Hout.
  destruct attempt as [[[pid mid]|] tr out]; reflexivity.
Qed.

Lemma retry_count_apply_attempt a t :
  retry_count (apply_attempt a t) = retry_count t
  /\ max_retries (apply_attempt a t) = max_retries t.
Proof. destruct a as [[[pid mid]|] tr out]; done. Qed.

(** [execute_task] returns: the retries left bound the nested calls. *)
Lemma execute_task_fuel_total n : forall self id,
  (forall task, get_task self id = Some task ->
     (Z.to_nat (max_retries task - retry_count task) < n)%nat) ->
  (0 < n)%nat ->
  is_Some (execute_task_fuel n self id).
Proof.
  induction n as [|n IH]; intros self id Hfuel Hn; [lia|].
  simpl. destruct (get_task self id) as [task|] eqn:Ht; [|by eexists].
  destruct (unsatisfied_dependency self (dependencies task)); [by eexists|].
  destruct (invoke self id (with_status RUNNING task)) as [attempt log].
  destruct attempt as [a tr [e|r]]; simpl; [|by eexists].
  assert (Hrc : retry_count (with_assignment a (with_status RUNNING task))
                = retry_count task) by (by destruct a as [[??]|]).
  assert (Hmr : max_retries (with_assignment a (with_status RUNNING task))
                = max_retries task) by (by destruct a as [[??]|]).
  rewrite Hrc, Hmr.
  destruct (Z.ltb_spec (retry_count task + 1) (max_retries task)) as [Hlt|Hge];
    [|by eexists].
  specialize (Hfuel task eq_refl).
  apply IH; [|lia].
  intros task' Ht'. rewrite get_task_store, decide_True in Ht' by done.
  injection Ht' as <-. simpl. rewrite Hmr. lia.
Qed.

Lemma execute_task_total self id : is_Some (execute_task self id).
Proof.
  unfold execute_task, retry_fuel. apply execute_task_fuel_total.
  - intros task Ht. rewrite Ht. lia.
  - destruct (get_task self id); lia.
Qed.

(** C7. When the executor's invocation fails on a task whose
    dependencies are satisfied, the retry count goes up by one; if it is
    then below [max_retries] the call continues as a new [execute_task] on
    the task so updated, and otherwise the task is set to FAILED and the
    error is raised. Every call of [execute_task] returns. For a task with
    max_retries = 3 whose provider fails twice and then succeeds, the
    task ends COMPLETED with retry_count = 2 and three attempts in its
    trace. *)
Theorem execute_task_retries :
  (forall self id task e,
     get_task self id = Some task ->
     unsatisfied_dependency self (dependencies task) = None ->
     outcome (fst (invoke self id (with_status RUNNING task))) = inl e ->
     let running := with_status RUNNING task in
     let attempt := fst (invoke self id running) in
     let log := snd (invoke self id running) in
     let failed := with_error (Some e)
                     (with_retry_count (retry_count (apply_attempt attempt running) + 1)
                        (apply_attempt attempt running)) in
     retry_count failed = retry_count task + 1
     /\ (retry_count failed < max_retries failed ->
           execute_task self id = execute_task (store id failed log self) id)
     /\ (~ retry_count failed < max_retries failed ->
           execute_task self id
           = Some (store id (with_status FAILED failed) log self, inl e)))
  /\ (forall self id, is_Some (execute_task self id))
  /\ (execute_task retrying "T" = Some (retried, inr "done")
      /\ (status <$> get_task retried "T") = Some COMPLETED
      /\ (retry_count <$> get_task retried "T") = Some 2
      /\ (length <$> (execution_trace <$> get_task retried "T")) = Some 3%nat).
Proof.
  split; [|split; [apply execute_task_total | by vm_compute]].
  intros self id task e Ht Hdeps Hout running attempt log failed.
  destruct (retry_count_apply_attempt attempt running) as [Hrc Hmr].
  assert (Hf : retry_count failed = retry_count task + 1)
    by (change (retry_count failed)
          with (retry_count (apply_attempt attempt running) + 1);
        rewrite Hrc; reflexivity).
  assert (Hm : max_retries failed = max_retries task)
    by (change (max_retries failed)
          with (max_retries (apply_attempt attempt running));
        rewrite Hmr; reflexivity).
  split; [exact Hf|]. rewrite Hf, Hm.
  pose proof (execute_task_fuel_failure
                (Z.to_nat (max_retries task - retry_count task))
                self id task e Ht Hdeps Hout) as Hstep.
  cbv zeta in Hstep. fold running attempt log failed in Hstep.
  assert (Hexec : execute_task self id =
            execute_task_fuel (S (Z.to_nat (max_retries task - retry_count task)))
              self id)
    by (unfold execute_task, retry_fuel; by rewrite Ht).
  rewrite Hexec, Hstep. clear Hexec Hstep.
  destruct (Z.ltb_spec (retry_count task + 1) (max_retries task)) as [Hlt|Hge].
  - split; [intros _ | intros Hn; lia].
    unfold execute_task, retry_fuel.
    rewrite get_task_store, decide_True by done. rewrite Hf, Hm.
    f_equal. lia.
  - split; [intros Hn; lia | intros _; reflexivity].
Qed.

Lemma execute_task_retries_witness :
  get_task retrying "T" = Some (new_task "T" "build" "compile the sources" "{}" MEDIUM [] 3)
  /\ execute_task retrying "T"
     = execute_task
         (store "T"
            (with_error (Some "service unavailable")
               (with_retry_count 1
                  (apply_attempt
                     (fst (invoke retrying "T"
                             (with_status RUNNING
                                (new_task "T" "build" "compile the sources" "{}"
                                   MEDIUM [] 3))))
                     (with_status RUNNING
                        (new_task "T" "build" "compile the sources" "{}"
                           MEDIUM [] 3)))))
            ["T"] retrying) "T".
Proof.
  split; [reflexivity|].
  refine (proj1 (proj2 (proj1 execute_task_retries retrying "T"
            (new_task "T" "build" "compile the sources" "{}" MEDIUM [] 3)
            "service unavailable" eq_refl eq_refl eq_refl)) _).
  vm_compute. reflexivity.
Defined.

(** *** Terminal states *)

(** [cancel_task] leaves a task in a terminal state as it is. *)
Lemma cancel_task_keeps_terminal self id task :
  get_task self id = Some task -> terminal (status task) ->
  cancel_task self id = (self, false).
Proof.
  intros Ht Hterm. unfold cancel_task. rewrite Ht.
  rewrite bool_decide_eq_false_2; [done|].
  destruct Hterm as [H|[H|H]]; rewrite H; intros [?|?]; discriminate.
Qed.

(** C1 fails on the code. [execute_task] does not look at the status of
    the task it is given: a task that [cancel_task] has set to CANCELLED is
    run all the same and ends COMPLETED. *)
Theorem execute_task_overwrites_cancelled :
  status_of submitted "T" = Some PENDING
  /\ cancel_task submitted "T" = (cancelled, true)
  /\ status_of cancelled "T" = Some CANCELLED
  /\ execute_task cancelled "T" = Some (executed_after_cancel, inr "ok")
  /\ status_of executed_after_cancel "T" = Some COMPLETED.
Proof. by vm_compute. Qed.

End SingleTask.

(** ** The orchestrator: workflows *)

Module Workflows.
Import ModelProviderInterface TaskOrchestrator Scenarios.Orchestration.
Import SingleTask.

(** *** The graph *)

Lemma dict_keys_elem l x : x ∈ dict_keys l <-> x ∈ l.
Proof.
  induction l as [|y l IH]; [done|]. cbn [dict_keys].
  rewrite !elem_of_cons, list_elem_of_filter, IH.
  destruct (decide (x = y)); tauto.
Qed.

Lemma dict_keys_NoDup l : NoDup (dict_keys l).
Proof.
  induction l as [|y l IH]; [constructor|]. cbn [dict_keys].
  apply NoDup_cons. split; [|by apply NoDup_filter].
  rewrite list_elem_of_filter. by intros [? _].
Qed.

Lemma dependents_elem g x d :
  d ∈ dependents g x <-> d ∈ graph_keys g /\ x ∈ graph_deps g d.
Proof.
  unfold dependents. rewrite list_elem_of_In, in_flat_map. split.
  - intros (t & Ht%list_elem_of_In & Hd%in_flat_map).
    destruct Hd as (dep & Hdep%list_elem_of_In & Hd).
    destruct (decide (dep = x)) as [->|]; [|done].
    apply list_elem_of_In, list_elem_of_singleton in Hd as ->. done.
  - intros [Hd Hx]. exists d. split; [by apply list_elem_of_In|].
    apply in_flat_map. exists x. split; [by apply list_elem_of_In|].
    rewrite decide_True by done. by left.
Qed.

Lemma dependencies_resolved_iff g results d :
  dependencies_resolved g results d = true <->
  forall dep_id, dep_id ∈ graph_deps g d -> dep_id ∈ graph_keys g ->
                 is_Some (results !! dep_id).
Proof.
  unfold dependencies_resolved, in_graph. rewrite forallb_forall. split.
  - intros H dep Hdep%list_elem_of_In Hk. specialize (H dep Hdep).
    apply orb_true_iff in H as [H|H].
    + apply negb_true_iff, bool_decide_eq_false in H. done.
    + by apply bool_decide_eq_true in H.
  - intros H dep Hdep%list_elem_of_In. apply orb_true_iff.
    destruct (decide (dep ∈ graph_keys g)) as [Hk|Hk].
    + right. apply bool_decide_eq_true. by apply H.
    + left. by apply negb_true_iff, bool_decide_eq_false.
Qed.

Lemma initial_ready_elem g x :
  x ∈ initial_ready g <->
  x ∈ graph_keys g /\ forall dep_id, dep_id ∈ graph_deps g x -> dep_id ∉ graph_keys g.
Proof.
  unfold initial_ready, in_graph. rewrite list_elem_of_filter, forallb_forall.
  split.
  - intros [H1 H2]. split; [done|]. intros dep Hdep%list_elem_of_In.
    by apply H1, negb_true_iff, bool_decide_eq_false in Hdep.
  - intros [H1 H2]. split; [|done]. intros dep Hdep%list_elem_of_In.
    by apply negb_true_iff, bool_decide_eq_false, H2.
Qed.

(** *** One round: the results and the next ready list *)

Lemma process_result_snoc g l acc tr :
  fold_left (process_result g) (l ++ [tr]) acc
  = process_result g (fold_left (process_result g) l acc) tr.
Proof. by rewrite fold_left_app. Qed.

Lemma acc_results_step g acc id r :
  dom (acc_results (process_result g acc (id, r))) = {[id]} ∪ dom (acc_results acc).
Proof.
  destruct acc as [[s res] rdy]. destruct r; cbn; apply dom_insert_L.
Qed.

Lemma acc_ready_step g acc id r d :
  d ∈ acc_ready (process_result g acc (id, r)) ->
  d ∈ acc_ready acc
  \/ (d ∈ dependents g id
      /\ dependencies_resolved g (acc_results (process_result g acc (id, r))) d = true).
Proof.
  destruct acc as [[s res] rdy]. destruct r as [e|v]; cbn; [by left|].
  rewrite elem_of_app, list_elem_of_filter. tauto.
Qed.

(** After the entries [l] of a round: the keys with an entry, and what
    holds of a task appended to the ready list. *)
Lemma round_results g s1 results l :
  let out := fold_left (process_result g) l (s1, results, []) in
  dom (acc_results out) = list_to_set (l.*1) ∪ dom results
  /\ forall d, d ∈ acc_ready out ->
       (exists t, t ∈ l.*1 /\ d ∈ dependents g t)
       /\ forall dep_id, dep_id ∈ graph_deps g d -> dep_id ∈ graph_keys g ->
                         dep_id ∈ dom (acc_results out).
Proof.
  induction l as [|[id r] l IH] using rev_ind; intros out; subst out.
  - cbn. split; [set_solver|]. intros d Hd. by apply elem_of_nil in Hd.
  - rewrite process_result_snoc. cbv zeta in IH. destruct IH as [IHdom IHready].
    set (acc := fold_left (process_result g) l (s1, results, [])) in *.
    rewrite acc_results_step, fmap_app, list_to_set_app_L, IHdom. cbn [fmap list_fmap fst].
    split; [set_solver|].
    intros d [Hd|[Hd Hres]]%acc_ready_step.
    + destruct (IHready d Hd) as [(t & Ht & Hdt) Hdeps]. split.
      * exists t. split; [set_solver | done].
      * intros dep Hdep Hk. specialize (Hdeps dep Hdep Hk). set_solver.
    + split.
      * exists id. split; [set_solver | done].
      * intros dep Hdep Hk.
        pose proof (proj1 (dependencies_resolved_iff _ _ _) Hres dep Hdep Hk) as Hs.
        apply elem_of_dom in Hs. by rewrite acc_results_step, IHdom in Hs.
Qed.

Lemma gather_length ids : forall self self1 rs,
  gather self ids = Some (self1, rs) -> length rs = length ids.
Proof.
  induction ids as [|id ids IH]; intros self self1 rs; cbn [gather].
  - by intros [= <- <-].
  - destruct (execute_task self id) as [[s r]|]; [|done].
    destruct (gather s ids) as [[s2 rs2]|] eqn:Hg; [|done].
    intros [= <- <-]. cbn. f_equal. by eapply IH.
Qed.

Lemma gather_total ids : forall self, is_Some (gather self ids).
Proof.
  induction ids as [|id ids IH]; intros self; cbn [gather]; [by eexists|].
  destruct (execute_task_total self id) as [[s r] ->].
  destruct (IH s) as [[s2 rs] ->]. by eexists.
Qed.

(** A round keeps the loop state. *)
Lemma round_loop_state g results ready_tasks self1 rs :
  loop_state g results ready_tasks ->
  length rs = length ready_tasks ->
  let out := fold_left (process_result g) (zip ready_tasks rs) (self1, results, []) in
  loop_state g (acc_results out) (acc_ready out)
  /\ dom (acc_results out) = list_to_set ready_tasks ∪ dom results.
Proof.
  intros [R1 R2 R3 R4 R5 R6] Hlen out.
  destruct (round_results g self1 results (zip ready_tasks rs)) as [Hdom Hready].
  fold out in Hdom, Hready. rewrite fst_zip in Hdom, Hready by lia.
  split; [|done]. split.
  - intros d Hd. destruct (Hready d Hd) as [(t & _ & Hdt) _].
    by apply dependents_elem in Hdt as [? _].
  - intros d Hd. apply not_elem_of_dom. rewrite Hdom. intros Hin.
    destruct (Hready d Hd) as [(t & Ht & Hdt) _].
    apply dependents_elem in Hdt as [Hdk Htd].
    apply elem_of_union in Hin as [Hin|Hin].
    + apply elem_of_list_to_set in Hin.
      destruct (R3 d t Hin Htd (R1 t Ht)) as [? Hsome]. by rewrite R2 in Hsome.
    + apply elem_of_dom in Hin.
      destruct (R5 d t Hin Htd (R1 t Ht)) as [? Hsome]. by rewrite R2 in Hsome.
  - intros d dep Hd Hdep Hk. apply elem_of_dom.
    by apply (proj2 (Hready d Hd)).
  - intros x Hx%elem_of_dom. rewrite Hdom in Hx.
    apply elem_of_union in Hx as [Hx%elem_of_list_to_set|Hx%elem_of_dom]; auto.
  - intros x dep Hx%elem_of_dom Hdep Hk. apply elem_of_dom. rewrite Hdom.
    rewrite Hdom in Hx.
    apply elem_of_union in Hx as [Hx%elem_of_list_to_set|Hx%elem_of_dom].
    + apply elem_of_union_r, elem_of_dom. by apply (R3 x dep).
    + apply elem_of_union_r, elem_of_dom. by apply (R5 x dep).
  - intros x Hx. left. apply elem_of_dom. rewrite Hdom.
    destruct (R6 x Hx) as [Hs|Hr].
    + by apply elem_of_union_r, elem_of_dom.
    + by apply elem_of_union_l, elem_of_list_to_set.
Qed.

Lemma initial_loop_state g : loop_state g ∅ (initial_ready g).
Proof.
  split.
  - intros x Hx. by apply initial_ready_elem in Hx as [? _].
  - intros x _. apply lookup_empty.
  - intros x dep Hx Hdep Hk. apply initial_ready_elem in Hx as [_ Hx].
    by destruct (Hx dep Hdep).
  - intros x [? Hx]. by rewrite lookup_empty in Hx.
  - intros x dep [? Hx]. by rewrite lookup_empty in Hx.
  - intros x Hx. by right.
Qed.

(** *** The loop ends *)

Lemma round_decreases g results ready_tasks results' x :
  loop_state g results ready_tasks ->
  x ∈ ready_tasks ->
  dom results' = list_to_set ready_tasks ∪ dom results ->
  (size (pending_keys g results') < size (pending_keys g results))%nat.
Proof.
  intros [R1 R2 _ _ _ _] Hx Hdom. apply subset_size. unfold pending_keys.
  rewrite Hdom. apply strict_spec_alt. split; [set_solver|].
  intros Heq.
  assert (Hin : x ∈ list_to_set (C:=gset string) (graph_keys g) ∖ dom results).
  { apply elem_of_difference. split.
    - apply elem_of_list_to_set. by apply R1.
    - apply not_elem_of_dom. by apply R2. }
  rewrite <- Heq in Hin. set_solver.
Qed.

Lemma workflow_loop_total g fuel : forall self ready_tasks results,
  loop_state g results ready_tasks ->
  (size (pending_keys g results) < fuel)%nat ->
  is_Some (workflow_loop fuel g self ready_tasks results).
Proof.
  induction fuel as [|fuel IH]; intros self ready_tasks results Hst Hfuel; [lia|].
  cbn [workflow_loop]. destruct ready_tasks as [|x rest] eqn:Hr; [by eexists|].
  rewrite <- Hr in *.
  destruct (gather_total ready_tasks self) as [[self1 rs] Hg]. rewrite Hg.
  pose proof (gather_length _ _ _ _ Hg) as Hlen.
  destruct (round_loop_state g results ready_tasks self1 rs Hst Hlen) as [Hst' Hdom].
  destruct (fold_left (process_result g) (zip ready_tasks rs) (self1, results, []))
    as [[self2 results'] ready'].
  cbn in Hst', Hdom. apply IH; [done|].
  assert (Hx : x ∈ ready_tasks) by (rewrite Hr; by left).
  pose proof (round_decreases g results ready_tasks results' x Hst Hx Hdom). lia.
Qed.

(** What holds at every test of the [while] holds of the returned
    state. *)
Lemma workflow_loop_invariant g
    (P : Orchestrator -> gmap string Entry -> list string -> Prop) :
  (forall self results ready_tasks self1 rs,
     P self results ready_tasks -> ready_tasks <> [] ->
     gather self ready_tasks = Some (self1, rs) ->
     let out := fold_left (process_result g) (zip ready_tasks rs)
                  (self1, results, []) in
     P (acc_self out) (acc_results out) (acc_ready out)) ->
  forall fuel self ready_tasks results self' results',
    P self results ready_tasks ->
    workflow_loop fuel g self ready_tasks results = Some (self', results') ->
    P self' results' [].
Proof.
  intros Hround. induction fuel as [|fuel IH];
    intros self ready_tasks results self' results' HP Hrun.
  - destruct ready_tasks; [|done]. by injection Hrun as <- <-.
  - cbn [workflow_loop] in Hrun.
    destruct ready_tasks as [|x rest] eqn:Hr; [by injection Hrun as <- <-|].
    rewrite <- Hr in *.
    destruct (gather self ready_tasks) as [[self1 rs]|] eqn:Hg; [|done].
    assert (Hne : ready_tasks <> []) by (rewrite Hr; done).
    specialize (Hround self results ready_tasks self1 rs HP Hne Hg).
    destruct (fold_left (process_result g) (zip ready_tasks rs) (self1, results, []))
      as [[self2 results2] ready2].
    by apply (IH self2 ready2 results2).
Qed.


(** *** Tasks whose dependencies succeeded are started *)

Lemma acc_results_lookup_ne g acc id r x :
  x <> id ->
  acc_results (process_result g acc (id, r)) !! x = acc_results acc !! x.
Proof.
  intros Hne. destruct acc as [[s res] rdy].
  destruct r; cbn; by rewrite lookup_insert_ne.
Qed.

Lemma acc_results_lookup_eq g acc id r :
  acc_results (process_result g acc (id, r)) !! id
  = Some (match r with inl e => Error e | inr v => Result v end).
Proof.
  destruct acc as [[s res] rdy]. destruct r; cbn; by rewrite lookup_insert_eq.
Qed.

Lemma acc_ready_mono g acc tr d :
  d ∈ acc_ready acc -> d ∈ acc_ready (process_result g acc tr).
Proof.
  destruct acc as [[s res] rdy], tr as [id [e|v]]; cbn; [done|].
  intros Hd. apply elem_of_app. by left.
Qed.

Lemma acc_ready_success g acc id v d :
  d ∈ dependents g id ->
  dependencies_resolved g (acc_results (process_result g acc (id, inr v))) d = true ->
  d ∈ acc_ready (process_result g acc (id, inr v)).
Proof.
  destruct acc as [[s res] rdy]. cbn. intros Hd Hres.
  apply elem_of_app. right. by apply list_elem_of_filter.
Qed.

(** In a round, a task with a dependency among the round's tasks is
    appended to the ready list once its dependencies in the graph have all
    succeeded. *)
Lemma round_appends g s1 results l :
  let out := fold_left (process_result g) l (s1, results, []) in
  (forall t, t ∈ l.*1 -> t ∈ graph_keys g) ->
  forall x, x ∈ graph_keys g ->
    (exists dep_id, dep_id ∈ graph_deps g x /\ dep_id ∈ l.*1) ->
    dependencies_succeeded g (acc_results out) x ->
    x ∈ acc_ready out.
Proof.
  induction l as [|[id r] l IH] using rev_ind; intros out Hkeys; subst out.
  - intros x _ (dep & _ & Hdep). by apply elem_of_nil in Hdep.
  - rewrite process_result_snoc. cbv zeta in IH.
    assert (Hkeys' : forall t, t ∈ l.*1 -> t ∈ graph_keys g).
    { intros t Ht. apply Hkeys. rewrite fmap_app. apply elem_of_app. by left. }
    specialize (IH Hkeys').
    set (acc := fold_left (process_result g) l (s1, results, [])) in *.
    intros x Hx (dep & Hdep & Hin) Hsucc.
    destruct (decide (id ∈ graph_deps g x)) as [Hid|Hid].
    + assert (Hidk : id ∈ graph_keys g).
      { apply Hkeys. rewrite fmap_app. apply elem_of_app. right.
        apply list_elem_of_singleton. done. }
      destruct (Hsucc id Hid Hidk) as [v Hv].
      rewrite acc_results_lookup_eq in Hv. destruct r as [e|v']; [done|].
      apply acc_ready_success; [by apply dependents_elem|].
      apply dependencies_resolved_iff. intros d Hd Hdk.
      destruct (Hsucc d Hd Hdk) as [w ->]. by eexists.
    + apply acc_ready_mono. apply IH; [done| |].
      * exists dep. split; [done|]. rewrite fmap_app in Hin.
        apply elem_of_app in Hin as [Hin|Hin]; [done|].
        apply list_elem_of_singleton in Hin. cbn in Hin. by subst.
      * intros d Hd Hdk. destruct (Hsucc d Hd Hdk) as [w Hw].
        exists w. rewrite acc_results_lookup_ne in Hw; [done|]. by intros ->.
Qed.


Lemma round_lookup_other g s1 results l x :
  x ∉ l.*1 ->
  acc_results (fold_left (process_result g) l (s1, results, [])) !! x = results !! x.
Proof.
  induction l as [|[id r] l IH] using rev_ind; intros Hx; [done|].
  rewrite process_result_snoc. rewrite fmap_app in Hx.
  apply not_elem_of_app in Hx as [Hx1 Hx2].
  rewrite acc_results_lookup_ne; [by apply IH|].
  intros ->. apply Hx2. by apply list_elem_of_singleton.
Qed.

Lemma round_successors_started g results ready_tasks self1 rs :
  loop_state g results ready_tasks ->
  successors_started g results ready_tasks ->
  length rs = length ready_tasks ->
  let out := fold_left (process_result g) (zip ready_tasks rs) (self1, results, []) in
  successors_started g (acc_results out) (acc_ready out).
Proof.
  intros Hst Hstarted Hlen out x Hx Hsucc.
  assert (Hfst : (zip ready_tasks rs).*1 = ready_tasks) by (apply fst_zip; lia).
  destruct (round_loop_state g results ready_tasks self1 rs Hst Hlen) as [_ Hdom].
  fold out in Hdom.
  destruct (decide (Exists (fun d => d ∈ ready_tasks) (graph_deps g x))) as [Hex|Hno].
  - right. apply Exists_exists in Hex as (dep & Hdep & Hin).
    apply (round_appends g self1 results (zip ready_tasks rs)); [| done | | done].
    + rewrite Hfst. apply (ready_in_graph _ _ _ Hst).
    + exists dep. by rewrite Hfst.
  - left. apply elem_of_dom. rewrite Hdom.
    assert (Hold : dependencies_succeeded g results x).
    { intros dep Hdep Hk. destruct (Hsucc dep Hdep Hk) as [v Hv]. exists v.
      unfold out in Hv. rewrite round_lookup_other in Hv; [done|].
      rewrite Hfst. intros Hin. apply Hno, Exists_exists. by exists dep. }
    destruct (Hstarted x Hx Hold) as [Hs|Hr].
    + by apply elem_of_union_r, elem_of_dom.
    + by apply elem_of_union_l, elem_of_list_to_set.
Qed.

(** *** [execute_workflow] as a whole *)

Lemma build_graph_Some self task_ids g :
  build_graph self task_ids = Some g ->
  graph_keys g = dict_keys task_ids
  /\ graph_deps g = deps_of self
  /\ forall x, x ∈ task_ids -> is_Some (get_task self x).
Proof.
  unfold build_graph. destruct (forallb _ task_ids) eqn:Hall; [|done].
  intros [= <-]. split; [done|]. split; [done|].
  intros x Hx%list_elem_of_In.
  rewrite forallb_forall in Hall. by apply Hall, bool_decide_eq_true in Hx.
Qed.

Lemma execute_workflow_run self workflow_id self' results :
  execute_workflow self workflow_id = Some (self', inr results) ->
  exists task_ids g,
    workflows self !! workflow_id = Some task_ids
    /\ build_graph self task_ids = Some g
    /\ workflow_loop (S (length (graph_keys g))) g self (initial_ready g) ∅
       = Some (self', results).
Proof.
  unfold execute_workflow.
  destruct (workflows self !! workflow_id) as [[|x ids]|]; [done| |done].
  destruct (build_graph self (x :: ids)) as [g|] eqn:Hg; [|done].
  destruct (workflow_loop _ g self (initial_ready g) ∅) as [[s r]|] eqn:Hrun; [|done].
  intros [= <- <-]. by exists (x :: ids), g.
Qed.

Lemma pending_keys_initial g :
  NoDup (graph_keys g) -> size (pending_keys g ∅) = length (graph_keys g).
Proof.
  intros Hnd. unfold pending_keys. rewrite dom_empty_L, difference_empty_L.
  by apply size_list_to_set.
Qed.

Lemma execute_workflow_total self workflow_id :
  is_Some (execute_workflow self workflow_id).
Proof.
  unfold execute_workflow.
  destruct (workflows self !! workflow_id) as [[|x ids]|]; [by eexists| |by eexists].
  destruct (build_graph self (x :: ids)) as [g|] eqn:Hg; [|by eexists].
  destruct (build_graph_Some _ _ _ Hg) as (Hk & _ & _).
  destruct (workflow_loop_total g (S (length (graph_keys g))) self (initial_ready g) ∅
              (initial_loop_state g)) as [[s r] ->]; [|by eexists].
  rewrite pending_keys_initial; [lia|]. rewrite Hk. apply dict_keys_NoDup.
Qed.

(** The loop state at the return of the loop. *)
Lemma workflow_loop_final g fuel self self' results' :
  workflow_loop fuel g self (initial_ready g) ∅ = Some (self', results') ->
  loop_state g results' [] /\ successors_started g results' [].
Proof.
  apply (workflow_loop_invariant g
           (fun _ results ready_tasks =>
              loop_state g results ready_tasks
              /\ successors_started g results ready_tasks)).
  - intros s results ready_tasks s1 rs [Hst Hstarted] _ Hg out.
    pose proof (gather_length _ _ _ _ Hg) as Hlen. split.
    + by apply round_loop_state.
    + by apply round_successors_started.
  - split; [apply initial_loop_state|].
    intros x Hx Hsucc. right. apply initial_ready_elem. split; [done|].
    intros dep Hdep Hk. destruct (Hsucc dep Hdep Hk) as [v Hv].
    by rewrite lookup_empty in Hv.
Qed.

(** With no cycle and no error, every key has its entry. *)
Lemma no_error_all_entries g results (rank : string -> nat) :
  successors_started g results [] ->
  (forall x e, results !! x <> Some (Error e)) ->
  (forall x dep_id, x ∈ graph_keys g -> dep_id ∈ graph_deps g x ->
     dep_id ∈ graph_keys g -> (rank dep_id < rank x)%nat) ->
  forall x, x ∈ graph_keys g -> is_Some (results !! x).
Proof.
  intros Hstarted Hnoerr Hrank.
  assert (H : forall n x, (rank x < n)%nat -> x ∈ graph_keys g ->
                          is_Some (results !! x)).
  { induction n as [|n IH]; intros x Hn Hx; [lia|].
    destruct (Hstarted x Hx) as [Hs|Hr]; [|done|by apply elem_of_nil in Hr].
    intros dep Hdep Hk.
    destruct (IH dep) as [[v|e] Hv]; [|done|by exists v|by destruct (Hnoerr dep e)].
    specialize (Hrank x dep Hx Hdep Hk). lia. }
  intros x Hx. by apply (H (S (rank x))); [lia|].
Qed.

(** C6, as the code has it. [execute_workflow] returns on every state.
    The results it returns have entries only for task ids of the workflow,
    one at most for each id as for the keys of any dictionary; a task with
    an entry has an entry for each dependency it has in the workflow, and
    every task without dependencies in the workflow has one. When no
    entry is an error and the dependencies of the workflow have no cycle,
    every task id of the workflow has its entry. For the chain A, B, C
    with all tasks succeeding, the three tasks have a result. *)
Theorem workflow_results_entries :
  (forall self workflow_id, is_Some (execute_workflow self workflow_id))
  /\ (forall self workflow_id self' results,
        execute_workflow self workflow_id = Some (self', inr results) ->
        exists task_ids,
          workflows self !! workflow_id = Some task_ids
          /\ (forall x, is_Some (results !! x) -> x ∈ task_ids)
          /\ (forall x dep_id, is_Some (results !! x) -> dep_id ∈ deps_of self x ->
                dep_id ∈ task_ids -> is_Some (results !! dep_id))
          /\ (forall x, x ∈ task_ids ->
                (forall dep_id, dep_id ∈ deps_of self x -> dep_id ∉ task_ids) ->
                is_Some (results !! x))
          /\ ((forall x e, results !! x <> Some (Error e)) ->
              acyclic self task_ids ->
              forall x, x ∈ task_ids -> is_Some (results !! x)))
  /\ (linear_results !! "A" = Some (Result "ok")
      /\ linear_results !! "B" = Some (Result "ok")
      /\ linear_results !! "C" = Some (Result "ok")
      /\ dom linear_results = {["A"; "B"; "C"]}).
Proof.
  split; [apply execute_workflow_total|]. split.
  - intros self workflow_id self' results Hrun.
    destruct (execute_workflow_run _ _ _ _ Hrun) as (task_ids & g & Hwf & Hg & Hloop).
    destruct (build_graph_Some _ _ _ Hg) as (Hk & Hd & _).
    destruct (workflow_loop_final _ _ _ _ _ Hloop) as [[R1 R2 R3 R4 R5 R6] Hstarted].
    assert (Hkeys : forall x, x ∈ graph_keys g <-> x ∈ task_ids)
      by (intros x; rewrite Hk; apply dict_keys_elem).
    exists task_ids. split; [done|]. split; [|split; [|split]].
    + intros x Hx. by apply Hkeys, R4.
    + intros x dep Hx Hdep Hin. apply (R5 x dep Hx); [by rewrite Hd | by apply Hkeys].
    + intros x Hx Hroot. destruct (R6 x) as [Hs|Hr]; [|done|by apply elem_of_nil in Hr].
      apply initial_ready_elem. split; [by apply Hkeys|].
      intros dep Hdep Hin. rewrite Hd in Hdep. by apply (Hroot dep Hdep), Hkeys.
    + intros Hnoerr [rank Hrank] x Hx.
      apply (no_error_all_entries g results rank Hstarted Hnoerr); [|by apply Hkeys].
      intros y dep Hy Hdep Hdk. rewrite Hd in Hdep.
      apply Hrank; [by apply Hkeys | done | by apply Hkeys].
  - by vm_compute.
Qed.

Lemma workflow_results_entries_witness :
  execute_workflow chain "w" = Some (chain_after, inr chain_results)
  /\ is_Some (chain_results !! "A")
  /\ "A" ∈ ["A"; "B"; "C"].
Proof.
  assert (Hrun : execute_workflow chain "w" = Some (chain_after, inr chain_results))
    by (by vm_compute).
  split; [exact Hrun|].
  destruct (proj1 (proj2 workflow_results_entries) chain "w" chain_after
              chain_results Hrun) as (task_ids & Hwf & Honly & _).
  assert (Hs : is_Some (chain_results !! "A")) by (by vm_compute; eexists).
  split; [exact Hs|].
  assert (Hids : task_ids = ["A"; "B"; "C"]).
  { vm_compute in Hwf. by injection Hwf as <-. }
  rewrite <- Hids. exact (Honly "A" Hs).
Defined.

(** C6 as stated fails: in the chain A, B, C where A fails, the call
    returns a results dictionary whose only entry is the error of A; B
    and C belong to the workflow and have no entry. *)
Lemma failed_chain_misses_entries :
  workflows chain !! "w" = Some ["A"; "B"; "C"]
  /\ execute_workflow chain "w" = Some (chain_after, inr chain_results)
  /\ chain_results !! "A" = Some (Error "provider error")
  /\ chain_results !! "B" = None
  /\ chain_results !! "C" = None.
Proof. by vm_compute. Qed.

End Workflows.

(** ** The orchestrator: a failed dependency *)

Module FailedDependency.
Import ModelProviderInterface TaskOrchestrator Scenarios.Orchestration.
Import SingleTask Workflows.

(** *** What one [execute_task] touches *)

Lemma same_but_refl id self : same_but id self self.
Proof. by split. Qed.

Lemma same_but_trans id s1 s2 s3 :
  same_but id s1 s2 -> same_but id s2 s3 -> same_but id s1 s3.
Proof.
  intros [A1 A2 A3 A4] [B1 B2 B3 B4]. split.
  - intros x Hx. by rewrite B1, A1.
  - intros x Hx. by rewrite B2, A2.
  - intros x. by rewrite B3, A3.
  - intros x Hx. by apply B4, A4.
Qed.

Lemma calls_of_store id t log self x :
  calls_of (store id t log self) x = length (filter (fun y => y = x) log).
Proof. reflexivity. Qed.

Lemma invoke_log self id running :
  snd (invoke self id running) = invoked self
  \/ snd (invoke self id running) = id :: invoked self.
Proof. unfold invoke. destruct (executor self); [by right | by left]. Qed.

Lemma store_same_but id task task' log self :
  get_task self id = Some task ->
  dependencies task' = dependencies task ->
  log = invoked self \/ log = id :: invoked self ->
  same_but id self (store id task' log self).
Proof.
  intros Ht Hdeps Hlog. split.
  - intros x Hx. rewrite get_task_store. by rewrite decide_False.
  - intros x Hx. rewrite calls_of_store. unfold calls_of.
    destruct Hlog as [->| ->]; [done|]. by rewrite filter_cons_False.
  - intros x. unfold deps_of. rewrite get_task_store.
    destruct (decide (id = x)) as [<-|]; [|done]. by rewrite Ht.
  - intros x Hx. rewrite get_task_store. destruct (decide (id = x)); [by eexists | done].
Qed.

Lemma dependencies_apply_attempt a t :
  dependencies (apply_attempt a t) = dependencies t.
Proof. by destruct a as [[[??]|] ??]. Qed.

Lemma status_apply_attempt a t : status (apply_attempt a t) = status t.
Proof. by destruct a as [[[??]|] ??]. Qed.

(** One unfolding of [execute_task_fuel]. *)
Lemma execute_task_fuel_step fuel self id :
  execute_task_fuel (S fuel) self id =
    match get_task self id with
    | None => Some (self, inl ("Task not found: " +:+ id))
    | Some task =>
        match unsatisfied_dependency self (dependencies task) with
        | Some dep_id => Some (self, inl ("Dependency not satisfied: " +:+ dep_id))
        | None =>
            let running := with_status RUNNING task in
            let attempt := fst (invoke self id running) in
            let log := snd (invoke self id running) in
            let ran := apply_attempt attempt running in
            match outcome attempt with
            | inr r =>
                Some (store id (with_result (Some r) (with_status COMPLETED ran))
                        log self, inr r)
            | inl e =>
                let failed :=
                  with_error (Some e) (with_retry_count (retry_count ran + 1) ran) in
                if retry_count failed <? max_retries failed
                then execute_task_fuel fuel (store id failed log self) id
                else Some (store id (with_status FAILED failed) log self, inl e)
            end
        end
    end.
Proof.
  cbn [execute_task_fuel]. destruct (get_task self id) as [task|]; [|done].
  destruct (unsatisfied_dependency self (dependencies task)); [done|].
  by destruct (invoke self id (with_status RUNNING task)) as [attempt log].
Qed.

(** What a call of [execute_task] does to the table: it touches the
    task [id] only; a call that returns leaves the task COMPLETED, and a
    call that raises leaves a task that was not COMPLETED not COMPLETED;
    with the task missing or a dependency unsatisfied nothing changes and
    the call raises. *)
Lemma execute_task_fuel_effect fuel : forall self id self' r,
  execute_task_fuel fuel self id = Some (self', r) ->
  same_but id self self'
  /\ match r with
     | inr _ => status_of self' id = Some COMPLETED
     | inl _ => status_of self id <> Some COMPLETED ->
                status_of self' id <> Some COMPLETED
     end
  /\ (unsatisfied_dependency self (deps_of self id) <> None ->
      self' = self /\ exists e, r = inl e).
Proof.
  induction fuel as [|fuel IH]; intros self id self' r; [done|].
  rewrite execute_task_fuel_step. unfold deps_of, status_of.
  destruct (get_task self id) as [task|] eqn:Ht.
  2:{ intros [= <- <-]. rewrite Ht. split; [apply same_but_refl|]. split; [done|].
      intros _. split; [done | by eexists]. }
  destruct (unsatisfied_dependency self (dependencies task)) as [dep|] eqn:Hdeps.
  { intros [= <- <-]. rewrite Ht. split; [apply same_but_refl|]. split; [done|].
    intros _. split; [done | by eexists]. }
  cbv zeta.
  set (running := with_status RUNNING task).
  set (attempt := fst (invoke self id running)).
  set (log := snd (invoke self id running)).
  pose proof (invoke_log self id running) as Hlog. fold log in Hlog.
  destruct (outcome attempt) as [e|v].
  - set (failed := with_error (Some e) _).
    assert (Hfd : dependencies failed = dependencies task)
      by (unfold failed, with_error, with_retry_count; cbn [dependencies];
          by rewrite dependencies_apply_attempt).
    destruct (retry_count failed <? max_retries failed).
    + intros Hrun. destruct (IH _ _ _ _ Hrun) as (Hsame & Hst & _).
      split; [|split; [|done]].
      * eapply same_but_trans; [|exact Hsame]. by eapply store_same_but.
      * destruct r as [e'|v']; [|done]. intros _. apply Hst.
        unfold status_of. rewrite get_task_store, decide_True by done.
        cbn [fmap option_fmap option_map].
        unfold failed, with_error, with_retry_count; cbn [status].
        rewrite status_apply_attempt. done.
    + intros [= <- <-]. split; [by eapply store_same_but|]. split; [|done].
      intros _. rewrite get_task_store, decide_True by done. done.
  - intros [= <- <-]. split; [|split; [|done]].
    + eapply store_same_but; [done| |done].
      change (dependencies (apply_attempt attempt running) = dependencies task).
      by rewrite dependencies_apply_attempt.
    + by rewrite get_task_store, decide_True.
Qed.


Lemma execute_task_effect self id self' r :
  execute_task self id = Some (self', r) ->
  same_but id self self'
  /\ match r with
     | inr _ => status_of self' id = Some COMPLETED
     | inl _ => status_of self id <> Some COMPLETED ->
                status_of self' id <> Some COMPLETED
     end
  /\ (unsatisfied_dependency self (deps_of self id) <> None ->
      self' = self /\ exists e, r = inl e).
Proof. apply execute_task_fuel_effect. Qed.

Lemma unsatisfied_dependency_None self deps :
  unsatisfied_dependency self deps = None <->
  forall dep_id, dep_id ∈ deps -> status_of self dep_id = Some COMPLETED.
Proof.
  unfold status_of. induction deps as [|d deps IH]; cbn [unsatisfied_dependency].
  - split; [|done]. intros _ dep Hdep. by apply elem_of_nil in Hdep.
  - destruct (get_task self d) as [task|] eqn:Ht.
    + destruct (decide (status task = COMPLETED)) as [Hc|Hc].
      * rewrite IH. split.
        -- intros H dep [->|Hdep]%elem_of_cons; [|by apply H].
           rewrite Ht, <- Hc. done.
        -- intros H dep Hdep. apply H. by right.
      * split; [done|]. intros H. specialize (H d (list_elem_of_here _ _)).
        rewrite Ht in H. injection H as H. done.
    + split; [done|]. intros H. specialize (H d (list_elem_of_here _ _)).
      by rewrite Ht in H.
Qed.

(** *** What a round of executions touches *)

Lemma gather_effect ids : forall self self1 rs,
  gather self ids = Some (self1, rs) -> NoDup ids ->
  (forall x, x ∉ ids ->
     get_task self1 x = get_task self x /\ calls_of self1 x = calls_of self x)
  /\ (forall x, deps_of self1 x = deps_of self x)
  /\ (forall x, is_Some (get_task self x) -> is_Some (get_task self1 x))
  /\ (forall t r, (t, r) ∈ zip ids rs ->
        match r with
        | inr _ => status_of self1 t = Some COMPLETED
        | inl _ => status_of self t <> Some COMPLETED ->
                   status_of self1 t <> Some COMPLETED
        end
        /\ ((exists dep_id, dep_id ∈ deps_of self t /\ (dep_id ∉ ids)
                            /\ status_of self dep_id <> Some COMPLETED) ->
            get_task self1 t = get_task self t
            /\ calls_of self1 t = calls_of self t
            /\ exists e, r = inl e)).
Proof.
  induction ids as [|id ids IH]; intros self self1 rs; cbn [gather].
  - intros [= <- <-] _. split; [done|]. split; [done|]. split; [done|].
    intros t r Hin. by apply elem_of_nil in Hin.
  - destruct (execute_task self id) as [[s r0]|] eqn:Hexec; [|done].
    destruct (gather s ids) as [[s2 rs']|] eqn:Hg; [|done].
    intros [= <- <-] Hnd. apply NoDup_cons in Hnd as [Hid Hnd].
    destruct (execute_task_effect _ _ _ _ Hexec) as ([E1 E2 E3 E4] & Est & Eblocked).
    destruct (IH _ _ _ Hg Hnd) as (A & B & C & D).
    split; [|split; [|split]].
    + intros x Hx. apply not_elem_of_cons in Hx as [Hne Hx].
      destruct (A x Hx) as [-> ->]. by rewrite E1, E2.
    + intros x. by rewrite B, E3.
    + intros x Hx. by apply C, E4.
    + intros t r Hin. cbn [zip zip_with] in Hin.
      apply elem_of_cons in Hin as [Heq|Hin].
      * injection Heq as Heq1 Heq2. subst t r.
        destruct (A id Hid) as [Ht Hc]. unfold status_of in *. rewrite Ht.
        split; [exact Est|].
        intros (dep & Hdep & Hout & Hst).
        destruct Eblocked as [-> [e ->]].
        { intros Hnone. apply Hst.
          by apply (proj1 (unsatisfied_dependency_None _ _) Hnone). }
        split; [done|]. split; [done | by eexists].
      * assert (Ht : t ∈ ids) by (by apply elem_of_zip_l in Hin).
        assert (Hne : t <> id) by (by intros ->).
        destruct (D t r Hin) as [Dst Dblocked]. unfold status_of in *.
        rewrite <- (E1 t Hne). split; [exact Dst|].
        intros (dep & Hdep & Hout & Hst).
        apply not_elem_of_cons in Hout as [Hdne Hout].
        rewrite <- (E2 t Hne). apply Dblocked. exists dep.
        split; [by rewrite E3|]. split; [done|]. by rewrite (E1 dep Hdne).
Qed.

(** *** Marking the dependents of a failed task *)

Lemma mark_dependents_failed_cons failed_id d ds self :
  mark_dependents_failed failed_id (d :: ds) self =
    mark_dependents_failed failed_id ds
      (match get_task self d with
       | Some t => store d (mark failed_id t) (invoked self) self
       | None => self
       end).
Proof. reflexivity. Qed.

Lemma mark_effect failed_id ds : forall self,
  let self' := mark_dependents_failed failed_id ds self in
  invoked self' = invoked self
  /\ (forall x, deps_of self' x = deps_of self x)
  /\ (forall x, is_Some (get_task self x) -> is_Some (get_task self' x))
  /\ (forall x, x ∉ ds -> get_task self' x = get_task self x)
  /\ (forall x, x ∈ ds -> is_Some (get_task self x) ->
        status_of self' x = Some FAILED
        /\ error_of self' x = Some (Some ("Dependency failed: " +:+ failed_id)))
  /\ (forall x, status_of self x <> Some COMPLETED ->
        status_of self' x <> Some COMPLETED).
Proof.
  induction ds as [|d ds IH]; intros self self'; subst self'.
  - split; [done|]. split; [done|]. split; [done|]. split; [done|].
    split; [|done]. intros x Hx. by apply elem_of_nil in Hx.
  - rewrite mark_dependents_failed_cons.
    set (s1 := match get_task self d with
               | Some t => store d (mark failed_id t) (invoked self) self
               | None => self
               end).
    assert (H1 : invoked s1 = invoked self
                 /\ (forall x, deps_of s1 x = deps_of self x)
                 /\ (forall x, is_Some (get_task self x) -> is_Some (get_task s1 x))
                 /\ (forall x, x <> d -> get_task s1 x = get_task self x)
                 /\ (is_Some (get_task self d) ->
                     status_of s1 d = Some FAILED
                     /\ error_of s1 d = Some (Some ("Dependency failed: " +:+ failed_id)))
                 /\ (forall x, status_of self x <> Some COMPLETED ->
                       status_of s1 x <> Some COMPLETED)).
    { unfold s1, status_of, error_of, deps_of.
      destruct (get_task self d) as [t|] eqn:Ht.
      - split; [done|]. split; [|split; [|split; [|split]]].
        + intros x. rewrite get_task_store.
          destruct (decide (d = x)) as [<-|]; [by rewrite Ht | done].
        + intros x Hx. rewrite get_task_store.
          destruct (decide (d = x)); [by eexists | done].
        + intros x Hx. rewrite get_task_store. by rewrite decide_False.
        + intros _. by rewrite get_task_store, decide_True.
        + intros x Hx. rewrite get_task_store.
          destruct (decide (d = x)); [done | done].
      - split; [done|]. split; [done|]. split; [done|]. split; [done|].
        split; [|done]. by intros [? ?]. }
    destruct H1 as (L1 & L2 & L3 & L4 & L5 & L6).
    destruct (IH s1) as (I1 & I2 & I3 & I4 & I5 & I6).
    split; [by rewrite I1|]. split; [|split; [|split; [|split]]].
    + intros x. by rewrite I2, L2.
    + intros x Hx. by apply I3, L3.
    + intros x Hx. apply not_elem_of_cons in Hx as [Hne Hx]. by rewrite I4, L4.
    + intros x Hx Hsome. destruct (decide (x ∈ ds)) as [Hin|Hnin].
      * apply I5; [done | by apply L3].
      * apply elem_of_cons in Hx as [->|Hx]; [|done].
        unfold status_of, error_of. rewrite (I4 d Hnin). by apply L5.
    + intros x Hx. by apply I6, L6.
Qed.


(** *** The marks of a round *)

Lemma acc_self_step g acc id r :
  acc_self (process_result g acc (id, r)) =
    match r with
    | inl _ => mark_dependents_failed id (dependents g id) (acc_self acc)
    | inr _ => acc_self acc
    end.
Proof. destruct acc as [[s res] rdy]. by destruct r. Qed.

Lemma round_marks g s1 results l :
  let out := fold_left (process_result g) l (s1, results, []) in
  invoked (acc_self out) = invoked s1
  /\ (forall x, deps_of (acc_self out) x = deps_of s1 x)
  /\ (forall x, is_Some (get_task s1 x) -> is_Some (get_task (acc_self out) x))
  /\ (forall d, (forall t e, (t, inl e) ∈ l -> d ∉ dependents g t) ->
        get_task (acc_self out) d = get_task s1 d)
  /\ (forall d t e, (t, inl e) ∈ l -> d ∈ dependents g t ->
        is_Some (get_task s1 d) ->
        exists t' e', (t', inl e') ∈ l /\ d ∈ dependents g t'
          /\ status_of (acc_self out) d = Some FAILED
          /\ error_of (acc_self out) d = Some (Some ("Dependency failed: " +:+ t')))
  /\ (forall x, status_of s1 x <> Some COMPLETED ->
        status_of (acc_self out) x <> Some COMPLETED).
Proof.
  induction l as [|[t0 r0] l IH] using rev_ind; intros out; subst out.
  - cbn. split; [done|]. split; [done|]. split; [done|]. split; [done|].
    split; [|done]. intros d t e Hin. by apply elem_of_nil in Hin.
  - rewrite process_result_snoc. cbv zeta in IH.
    set (acc := fold_left (process_result g) l (s1, results, [])) in *.
    destruct IH as (M1 & M2 & M3 & M4 & M5 & M6).
    rewrite acc_self_step. destruct r0 as [e0|v0].
    + destruct (mark_effect t0 (dependents g t0) (acc_self acc))
        as (K1 & K2 & K3 & K4 & K5 & K6).
      split; [by rewrite K1|]. split; [|split; [|split; [|split]]].
      * intros x. by rewrite K2.
      * intros x Hx. by apply K3, M3.
      * intros d Hd. rewrite K4.
        -- apply M4. intros t e Hin. apply (Hd t e), elem_of_app. by left.
        -- apply (Hd t0 e0), elem_of_app. right. by apply list_elem_of_singleton.
      * intros d t e Hin Hdt Hsome.
        destruct (decide (d ∈ dependents g t0)) as [Hd0|Hd0].
        -- exists t0, e0. split; [apply elem_of_app; right;
                                   by apply list_elem_of_singleton|].
           split; [done|]. apply K5; [done | by apply M3].
        -- apply elem_of_app in Hin as [Hin|Hin].
           ++ destruct (M5 d t e Hin Hdt Hsome) as (t' & e' & Hin' & Hdt' & Hst & Herr).
              exists t', e'. split; [apply elem_of_app; by left|]. split; [done|].
              unfold status_of, error_of in *. by rewrite (K4 d Hd0).
           ++ apply list_elem_of_singleton in Hin. injection Hin as -> ->. done.
      * intros x Hx. by apply K6, M6.
    + split; [done|]. split; [done|]. split; [done|]. split; [|split; [|done]].
      * intros d Hd. apply M4. intros t e Hin. apply (Hd t e), elem_of_app. by left.
      * intros d t e Hin Hdt Hsome.
        apply elem_of_app in Hin as [Hin|Hin].
        -- destruct (M5 d t e Hin Hdt Hsome) as (t' & e' & Hin' & Hrest).
           exists t', e'. split; [apply elem_of_app; by left | done].
        -- apply list_elem_of_singleton in Hin. done.
Qed.

(** With each task once in the round, its entry is that of its
    outcome. *)
Lemma round_entry g s1 results l t r :
  NoDup l.*1 -> (t, r) ∈ l ->
  acc_results (fold_left (process_result g) l (s1, results, [])) !! t
  = Some (entry_of r).
Proof.
  induction l as [|[t0 r0] l IH] using rev_ind; intros Hnd Hin.
  - by apply elem_of_nil in Hin.
  - rewrite process_result_snoc. rewrite fmap_app in Hnd.
    apply NoDup_app in Hnd as (Hnd & Hdisj & _).
    apply elem_of_app in Hin as [Hin|Hin].
    + rewrite acc_results_lookup_ne; [by apply IH|].
      intros ->. apply (Hdisj t0); [|by apply list_elem_of_singleton].
      apply list_elem_of_fmap. by exists (t0, r).
    + apply list_elem_of_singleton in Hin. injection Hin as -> ->.
      apply acc_results_lookup_eq.
Qed.

(** *** The ready list holds each task once *)

Lemma inner_dependents_nil (k t : string) deps :
  t ∉ deps ->
  flat_map (fun dep_id => if decide (dep_id = t) then [k] else []) deps = [].
Proof.
  induction deps as [|d deps IH]; [done|]. intros Ht.
  apply not_elem_of_cons in Ht as [Hne Ht]. cbn [flat_map].
  rewrite decide_False by done. by apply IH.
Qed.

Lemma inner_dependents (k t : string) deps :
  NoDup deps ->
  flat_map (fun dep_id => if decide (dep_id = t) then [k] else []) deps = []
  \/ flat_map (fun dep_id => if decide (dep_id = t) then [k] else []) deps = [k].
Proof.
  induction deps as [|d deps IH]; [by left|]. intros Hnd.
  apply NoDup_cons in Hnd as [Hd Hnd]. cbn [flat_map].
  destruct (decide (d = t)) as [->|Hne].
  - right. by rewrite inner_dependents_nil.
  - by apply IH.
Qed.

Lemma dependents_NoDup g t :
  NoDup (graph_keys g) ->
  (forall x, x ∈ graph_keys g -> NoDup (graph_deps g x)) ->
  NoDup (dependents g t).
Proof.
  unfold dependents. generalize (graph_keys g). intros ks.
  induction ks as [|k ks IH]; intros Hnd Hdeps; [constructor|].
  apply NoDup_cons in Hnd as [Hk Hnd]. cbn [flat_map].
  assert (Hrest : forall d,
    d ∈ flat_map (fun t0 => flat_map (fun dep_id =>
           if decide (dep_id = t) then [t0] else []) (graph_deps g t0)) ks ->
    d ∈ ks).
  { intros d Hd%list_elem_of_In. apply in_flat_map in Hd as (k' & Hk' & Hd).
    apply in_flat_map in Hd as (dep & _ & Hd).
    destruct (decide (dep = t)); [|done].
    destruct Hd as [<-|[]]. by apply list_elem_of_In. }
  apply NoDup_app. split; [|split].
  - destruct (inner_dependents k t (graph_deps g k)) as [-> | ->].
    + apply Hdeps. by left.
    + constructor.
    + apply NoDup_singleton.
  - intros d Hd Hd'. apply Hk.
    destruct (inner_dependents k t (graph_deps g k)) as [Hn|Hn].
    + apply Hdeps. by left.
    + rewrite Hn in Hd. by apply elem_of_nil in Hd.
    + rewrite Hn in Hd. apply list_elem_of_singleton in Hd as ->. by apply Hrest.
  - apply IH; [done|]. intros x Hx. apply Hdeps. by right.
Qed.

Lemma round_ready_NoDup g s1 results l :
  NoDup (graph_keys g) ->
  (forall x, x ∈ graph_keys g -> NoDup (graph_deps g x)) ->
  NoDup l.*1 ->
  (forall t, t ∈ l.*1 -> t ∈ graph_keys g /\ results !! t = None) ->
  NoDup (acc_ready (fold_left (process_result g) l (s1, results, []))).
Proof.
  intros Hkeys Hdeps.
  induction l as [|[t0 r0] l IH] using rev_ind; intros Hnd Hl; [constructor|].
  rewrite process_result_snoc. rewrite fmap_app in Hnd, Hl.
  apply NoDup_app in Hnd as (Hnd & Hdisj & _).
  assert (Hl' : forall t, t ∈ l.*1 -> t ∈ graph_keys g /\ results !! t = None).
  { intros t Ht. apply Hl, elem_of_app. by left. }
  specialize (IH Hnd Hl').
  destruct (round_results g s1 results l) as [Hdom Hready].
  set (acc := fold_left (process_result g) l (s1, results, [])) in *.
  destruct acc as [[s res] rdy] eqn:Hacc. destruct r0 as [e0|v0]; cbn in *; [done|].
  apply NoDup_app. split; [done|]. split.
  - intros d Hd Hd'. apply list_elem_of_filter in Hd' as [_ Hd'].
    apply dependents_elem in Hd' as [Hdk Ht0].
    destruct (Hl t0) as [Ht0k Ht0r]; [apply elem_of_app; right; by left|].
    destruct (Hready d Hd) as [_ Hres]. specialize (Hres t0 Ht0 Ht0k).
    rewrite Hdom in Hres. apply elem_of_union in Hres as [Hres|Hres].
    + apply elem_of_list_to_set in Hres. apply (Hdisj t0 Hres). by left.
    + apply elem_of_dom in Hres as [? Hres]. by rewrite Ht0r in Hres.
  - apply NoDup_filter. by apply dependents_NoDup.
Qed.


(** *** A round keeps the poisoned dependents *)

Lemma zip_elem_exists {A B} (ids : list A) : forall (rs : list B) x,
  length rs = length ids -> x ∈ ids -> exists r, (x, r) ∈ zip ids rs.
Proof.
  induction ids as [|id ids IH]; intros rs x Hlen Hx; [by apply elem_of_nil in Hx|].
  destruct rs as [|r rs]; [done|]. cbn in Hlen.
  apply elem_of_cons in Hx as [->|Hx].
  - exists r. by left.
  - destruct (IH rs x) as [r' Hr']; [lia | done |]. exists r'. by right.
Qed.

Lemma marks_cases g (l : list (string * (string + Payload))) d :
  (forall t e, (t, inl e) ∈ l -> d ∉ dependents g t)
  \/ (exists t e, (t, inl e) ∈ l /\ d ∈ dependents g t).
Proof.
  induction l as [|[t0 r0] l IH].
  - left. intros t e Hin. by apply elem_of_nil in Hin.
  - destruct IH as [IH|(t & e & Hin & Hd)].
    + destruct r0 as [e0|v0].
      * destruct (decide (d ∈ dependents g t0)) as [Hd|Hd].
        -- right. exists t0, e0. split; [by left | done].
        -- left. intros t e [[= -> ->]|Hin]%elem_of_cons; [done | by apply (IH t e)].
      * left. intros t e [[=]|Hin]%elem_of_cons. by apply (IH t e).
    + right. exists t, e. split; [by right | done].
Qed.

Lemma calls_of_invoked s1 s2 x :
  invoked s1 = invoked s2 -> calls_of s1 x = calls_of s2 x.
Proof. unfold calls_of. by intros ->. Qed.

Lemma round_poison_state g self0 self results ready_tasks self1 rs :
  NoDup (graph_keys g) ->
  (forall x, x ∈ graph_keys g -> NoDup (graph_deps g x)) ->
  loop_state g results ready_tasks ->
  poison_state g self0 self results ready_tasks ->
  gather self ready_tasks = Some (self1, rs) ->
  let out := fold_left (process_result g) (zip ready_tasks rs) (self1, results, []) in
  poison_state g self0 (acc_self out) (acc_results out) (acc_ready out).
Proof.
  intros Hkeys Hnodup Hst [P0 P1 P2 P3 P4 P5] Hg out.
  pose proof (gather_length _ _ _ _ Hg) as Hlen.
  pose proof Hst as [R1 R2 R3 R4 R5 R6].
  set (l := zip ready_tasks rs) in *.
  assert (Hfst : l.*1 = ready_tasks) by (apply fst_zip; lia).
  destruct (gather_effect _ _ _ _ Hg P2) as (GA & GB & GC & GD). fold l in GD.
  destruct (round_marks g self1 results l) as (M1 & M2 & M3 & M4 & M5 & M6).
  fold out in M1, M2, M3, M4, M5, M6.
  assert (Hother : forall x, x ∉ ready_tasks -> acc_results out !! x = results !! x).
  { intros x Hx. apply round_lookup_other. by rewrite Hfst. }
  assert (Hentry : forall t r, (t, r) ∈ l -> acc_results out !! t = Some (entry_of r)).
  { intros t r Hin. apply round_entry; [by rewrite Hfst | done]. }
  assert (Hin_l : forall x, x ∈ ready_tasks -> exists r, (x, r) ∈ l).
  { intros x Hx. by apply zip_elem_exists. }
  assert (Hl_in : forall t r, (t, r) ∈ l -> t ∈ ready_tasks).
  { intros t r Hin. by apply elem_of_zip_l in Hin. }
  assert (Hcalls : forall x, calls_of (acc_self out) x = calls_of self1 x).
  { intros x. by apply calls_of_invoked. }
  split.
  - intros x. by rewrite M2, GB.
  - intros x Hx. by apply M3, GC, P1.
  - apply round_ready_NoDup; [done | done | by rewrite Hfst |].
    intros t Ht. rewrite Hfst in Ht. split; [by apply R1 | by apply R2].
  - intros x Hx Hnone.
    assert (Hnr : x ∉ ready_tasks).
    { intros Hr. destruct (Hin_l x Hr) as [r Hr']. by rewrite (Hentry x r Hr') in Hnone. }
    rewrite Hother in Hnone by done.
    destruct (P3 x Hx Hnone) as [Hc Hs]. destruct (GA x Hnr) as [Gt Gc].
    split; [by rewrite Hcalls, Gc|].
    apply M6. unfold status_of in *. by rewrite Gt.
  - intros t e Ht. apply M6.
    destruct (decide (t ∈ ready_tasks)) as [Hr|Hnr].
    + destruct (Hin_l t Hr) as [r Hr']. rewrite (Hentry t r Hr') in Ht.
      destruct r as [e'|v]; [|done].
      apply (proj1 (GD t (inl e') Hr')).
      by apply (P3 t (R1 t Hr) (R2 t Hr)).
    + rewrite Hother in Ht by done. destruct (GA t Hnr) as [Gt _].
      unfold status_of in *. rewrite Gt. by apply (P4 t e).
  - intros t e d Ht Hd Htd.
    destruct (marks_cases g l d) as [Hnone|(t' & e' & Hin' & Hdt')].
    + (* no failed task of the round has d as a dependent *)
      assert (Hnr : t ∉ ready_tasks).
      { intros Hr. destruct (Hin_l t Hr) as [r Hr']. rewrite (Hentry t r Hr') in Ht.
        destruct r as [e0|v]; [|done].
        apply (Hnone t e0 Hr'). by apply dependents_elem. }
      rewrite Hother in Ht by done.
      destruct (P5 t e d Ht Hd Htd) as (Hc & Hs & x & ex & Hx & Hrx & Herr).
      assert (Hxr : x ∉ ready_tasks).
      { intros Hr. by rewrite (R2 x Hr) in Hrx. }
      assert (Hsame : get_task self1 d = get_task self d
                      /\ calls_of self1 d = calls_of self d).
      { destruct (decide (d ∈ ready_tasks)) as [Hdr|Hdr]; [|by apply GA].
        destruct (Hin_l d Hdr) as [r Hr'].
        destruct (proj2 (GD d r Hr')) as (G1 & G2 & _); [|done].
        exists x. split; [by rewrite P0|]. split; [done|]. by apply (P4 x ex). }
      destruct Hsame as [Gt Gc]. specialize (M4 d Hnone).
      split; [by rewrite Hcalls, Gc|]. unfold status_of, error_of in *.
      rewrite M4, Gt. split; [done|]. exists x, ex. split; [done|].
      split; [by rewrite Hother | done].
    + (* d is marked in this round *)
      assert (Ht'r : t' ∈ ready_tasks) by (by apply (Hl_in t' (inl e'))).
      apply dependents_elem in Hdt' as Hdt''. destruct Hdt'' as [_ Ht'd].
      assert (Hdr : d ∉ ready_tasks).
      { intros Hr. destruct (R3 d t' Hr Ht'd (R1 t' Ht'r)) as [? Hs].
        by rewrite (R2 t' Ht'r) in Hs. }
      assert (Hdn : results !! d = None).
      { destruct (results !! d) as [en|] eqn:Hen; [|done].
        destruct (R5 d t' (mk_is_Some _ _ Hen) Ht'd (R1 t' Ht'r)) as [? Hs].
        by rewrite (R2 t' Ht'r) in Hs. }
      destruct (P3 d Hd Hdn) as [Hc _]. destruct (GA d Hdr) as [Gt Gc].
      destruct (M5 d t' e' Hin' Hdt') as (t2 & e2 & Hin2 & Hdt2 & Hs2 & Herr2).
      { by apply GC, P1. }
      split; [by rewrite Hcalls, Gc|]. split; [done|].
      exists t2, e2. split; [by apply dependents_elem in Hdt2 as [_ ?]|].
      split; [|done]. by rewrite (Hentry t2 (inl e2) Hin2).
Qed.

(** *** The whole workflow *)

Lemma initial_ready_NoDup g : NoDup (graph_keys g) -> NoDup (initial_ready g).
Proof. intros H. unfold initial_ready. by apply NoDup_filter. Qed.

Lemma workflow_poison_final g fuel self self' results' :
  NoDup (graph_keys g) ->
  (forall x, x ∈ graph_keys g -> NoDup (graph_deps g x)) ->
  graph_deps g = deps_of self ->
  (forall x, x ∈ graph_keys g -> is_Some (get_task self x)) ->
  (forall x, x ∈ graph_keys g -> status_of self x <> Some COMPLETED) ->
  workflow_loop fuel g self (initial_ready g) ∅ = Some (self', results') ->
  poison_state g self self' results' [].
Proof.
  intros Hkeys Hnodup Hdeps Hpresent Hfresh Hrun.
  refine (proj2 (workflow_loop_invariant g
            (fun s results ready_tasks =>
               loop_state g results ready_tasks
               /\ poison_state g self s results ready_tasks)
            _ fuel self (initial_ready g) ∅ self' results' _ Hrun)).
  - intros s results ready_tasks s1 rs [Hst Hp] _ Hg out. split.
    + exact (proj1 (round_loop_state g results ready_tasks s1 rs Hst
                      (gather_length _ _ _ _ Hg))).
    + by apply (round_poison_state g self s results ready_tasks s1 rs).
  - split; [apply initial_loop_state|]. split.
    + intros x. by rewrite Hdeps.
    + done.
    + by apply initial_ready_NoDup.
    + intros x Hx _. split; [done | by apply Hfresh].
    + intros t e Ht. by rewrite lookup_empty in Ht.
    + intros t e d Ht. by rewrite lookup_empty in Ht.
Qed.

(** C2, as the code has it. In a workflow none of whose tasks is
    COMPLETED when it starts and whose dependency lists name no task
    twice, whenever the entry of a task in the returned results is an
    error, every task of the workflow that has it among its dependencies
    (its direct dependents) ends with status FAILED and with the error
    "Dependency failed: <id>", where <id> is one of its dependencies whose
    entry is an error, and the executor is not handed that task during
    the workflow. In the fan-out of B and C depending on A, with A
    failing, both end FAILED with the error "Dependency failed: A". *)
Theorem failed_dependency_marks_dependents :
  (forall self workflow_id self' results task_ids,
     execute_workflow self workflow_id = Some (self', inr results) ->
     workflows self !! workflow_id = Some task_ids ->
     (forall x, x ∈ task_ids -> status_of self x <> Some COMPLETED) ->
     (forall x, x ∈ task_ids -> NoDup (deps_of self x)) ->
     forall t e d,
       results !! t = Some (Error e) -> d ∈ task_ids -> t ∈ deps_of self d ->
       status_of self' d = Some FAILED
       /\ (exists x e', x ∈ deps_of self d /\ results !! x = Some (Error e')
             /\ error_of self' d = Some (Some ("Dependency failed: " +:+ x)))
       /\ calls_of self' d = calls_of self d)
  /\ (status_of fanout_after "A" = Some FAILED
      /\ status_of fanout_after "B" = Some FAILED
      /\ error_of fanout_after "B" = Some (Some "Dependency failed: A")
      /\ status_of fanout_after "C" = Some FAILED
      /\ error_of fanout_after "C" = Some (Some "Dependency failed: A")
      /\ invoked fanout_after = ["A"]).
Proof.
  split; [|by vm_compute].
  intros self workflow_id self' results task_ids Hrun Hwf Hfresh Hnodup t e d Ht Hd Htd.
  destruct (execute_workflow_run _ _ _ _ Hrun) as (ids & g & Hwf' & Hg & Hloop).
  rewrite Hwf in Hwf'. injection Hwf' as <-.
  destruct (build_graph_Some _ _ _ Hg) as (Hk & Hdeps & Hpresent).
  assert (Hkeys : forall x, x ∈ graph_keys g <-> x ∈ task_ids)
    by (intros x; rewrite Hk; apply dict_keys_elem).
  assert (Hfinal : poison_state g self self' results []).
  { apply (workflow_poison_final g (S (length (graph_keys g))) self self' results);
      try done.
    - rewrite Hk. apply dict_keys_NoDup.
    - intros x Hx. rewrite Hdeps. by apply Hnodup, Hkeys.
    - intros x Hx. by apply Hpresent, Hkeys.
    - intros x Hx. by apply Hfresh, Hkeys. }
  destruct (dependents_poisoned _ _ _ _ _ Hfinal t e d Ht)
    as (Hc & Hs & x & ex & Hx & Hrx & Herr).
  - by apply Hkeys.
  - by rewrite Hdeps.
  - split; [done|]. split; [|done]. exists x, ex. by rewrite <- Hdeps.
Qed.

Lemma chain_fresh x :
  x ∈ ["A"; "B"; "C"] ->
  status_of chain x <> Some COMPLETED /\ NoDup (deps_of chain x).
Proof.
  intros Hx. repeat (apply elem_of_cons in Hx as [->|Hx]).
  - split; [by vm_compute | constructor].
  - split; [by vm_compute | apply NoDup_singleton].
  - split; [by vm_compute | apply NoDup_singleton].
  - by apply elem_of_nil in Hx.
Qed.

Lemma failed_dependency_marks_dependents_witness :
  execute_workflow chain "w" = Some (chain_after, inr chain_results)
  /\ chain_results !! "A" = Some (Error "provider error")
  /\ "A" ∈ deps_of chain "B"
  /\ status_of chain_after "B" = Some FAILED
  /\ calls_of chain_after "B" = calls_of chain "B".
Proof.
  assert (Hrun : execute_workflow chain "w" = Some (chain_after, inr chain_results))
    by (by vm_compute).
  assert (Hdep : "A" ∈ deps_of chain "B") by (vm_compute; by left).
  assert (Hmem : "B" ∈ ["A"; "B"; "C"]) by (right; left).
  split; [exact Hrun|]. split; [reflexivity|]. split; [exact Hdep|].
  destruct (proj1 failed_dependency_marks_dependents chain "w" chain_after
              chain_results ["A"; "B"; "C"] Hrun eq_refl
              (fun x Hx => proj1 (chain_fresh x Hx))
              (fun x Hx => proj2 (chain_fresh x Hx))
              "A" "provider error" "B" eq_refl Hmem Hdep) as (Hs & _ & Hc).
  split; [exact Hs | exact Hc].
Defined.

(** C2 as stated fails: in the chain A, B, C with A failing, C depends
    on A through B; the workflow ends with B marked FAILED with the error
    "Dependency failed: A" (capital D), while C, a transitive dependent
    of A, is still PENDING and has no error. *)
Lemma transitive_dependent_left_pending :
  chain_results !! "A" = Some (Error "provider error")
  /\ deps_of chain "B" = ["A"] /\ deps_of chain "C" = ["B"]
  /\ status_of chain_after "B" = Some FAILED
  /\ error_of chain_after "B" = Some (Some "Dependency failed: A")
  /\ status_of chain_after "C" = Some PENDING
  /\ error_of chain_after "C" = Some None.
Proof. by vm_compute. Qed.

End FailedDependency.

(** * Further properties *)

(** ** The orchestrator: cancelling, creating, blocked and failing tasks *)

Module OrchestratorFacts.
Import ModelProviderInterface TaskOrchestrator Scenarios.Orchestration.
Import Cases.Orchestration SingleTask Workflows FailedDependency.

Lemma cancellable_dec self id : {cancellable self id} + {~ cancellable self id}.
Proof.
  unfold cancellable.
  destruct (decide (status_of self id = Some PENDING
                    \/ status_of self id = Some RUNNING)); [by left | by right].
Qed.

Lemma cancel_task_accepts self id task :
  get_task self id = Some task ->
  status task = PENDING \/ status task = RUNNING ->
  cancel_task self id = (store id (with_status CANCELLED task) (invoked self) self, true).
Proof.
  intros Ht Hs. unfold cancel_task. rewrite Ht. by rewrite bool_decide_eq_true_2.
Qed.

Lemma cancel_task_refuses self id :
  ~ cancellable self id -> cancel_task self id = (self, false).
Proof.
  unfold cancellable, status_of, cancel_task. intros Hn.
  destruct (get_task self id) as [task|]; [|done].
  rewrite bool_decide_eq_false_2; [done|].
  intros [H|H]; apply Hn; cbn; rewrite H; auto.
Qed.

Lemma cancel_task_cases :
  forall self id,
    let r := cancel_task self id in
    (snd r = true <-> cancellable self id)
    /\ (snd r = false -> fst r = self)
    /\ (snd r = true ->
          get_task (fst r) id = with_status CANCELLED <$> get_task self id
          /\ status_of (fst r) id = Some CANCELLED
          /\ (forall x, x <> id -> get_task (fst r) x = get_task self x)
          /\ workflows (fst r) = workflows self
          /\ invoked (fst r) = invoked self).
Proof.
  intros self id r. subst r.
  destruct (cancellable_dec self id) as [Hc|Hc].
  - pose proof Hc as Hc'. unfold cancellable, status_of in Hc'.
    destruct (get_task self id) as [task|] eqn:Ht; [|by destruct Hc'].
    rewrite (cancel_task_accepts self id task Ht).
    2:{ destruct Hc' as [[= H]|[= H]]; auto. }
    cbn [fst snd]. split; [done|]. split; [done|]. intros _.
    unfold status_of. rewrite get_task_store, decide_True by done.
    split; [done|]. split; [done|]. split; [|done].
    intros x Hx. rewrite get_task_store. by rewrite decide_False.
  - rewrite (cancel_task_refuses self id Hc). cbn [fst snd].
    split; [split; [done | by intros ?]|]. split; done.
Qed.

(** [cancel_task] answers true exactly for a task of the table that is
    PENDING or RUNNING; it then sets the status of that task to CANCELLED
    and changes nothing else, and in every other case it leaves the
    orchestrator as it was. *)
Theorem cancel_task_exactly_active :
  forall self id,
    let r := cancel_task self id in
    (snd r = true <-> cancellable self id)
    /\ (snd r = false -> fst r = self)
    /\ (snd r = true ->
          get_task (fst r) id = with_status CANCELLED <$> get_task self id
          /\ status_of (fst r) id = Some CANCELLED
          /\ (forall x, x <> id -> get_task (fst r) x = get_task self x)
          /\ workflows (fst r) = workflows self
          /\ invoked (fst r) = invoked self).
Proof. exact cancel_task_cases. Qed.

Lemma cancel_task_exactly_active_witness :
  snd (cancel_task mixed "B") = true
  /\ status_of (fst (cancel_task mixed "B")) "B" = Some CANCELLED.
Proof.
  split; [reflexivity|].
  exact (proj1 (proj2 (proj2 (proj2 (cancel_task_exactly_active mixed "B")) eq_refl))).
Defined.

(** *** [cancel_workflow] *)

Lemma cancel_all_cons id ids s c :
  cancel_all (id :: ids) (s, c) =
    cancel_all ids (fst (cancel_task s id),
                    if snd (cancel_task s id) then c ++ [id] else c).
Proof. unfold cancel_all. cbn [fold_left]. by destruct (cancel_task s id). Qed.

Lemma cancel_all_spec ids : forall s c0,
  exists new,
    snd (cancel_all ids (s, c0)) = c0 ++ new
    /\ NoDup new
    /\ (forall x, x ∈ new <-> x ∈ ids /\ cancellable s x)
    /\ (forall x, x ∉ new -> get_task (fst (cancel_all ids (s, c0))) x = get_task s x)
    /\ (forall x, x ∈ new ->
          status_of (fst (cancel_all ids (s, c0))) x = Some CANCELLED)
    /\ workflows (fst (cancel_all ids (s, c0))) = workflows s.
Proof.
  induction ids as [|id ids IH]; intros s c0.
  - exists []. cbn. rewrite app_nil_r. split; [done|]. split; [constructor|].
    split; [|split; [done|split; [|done]]].
    + intros x. rewrite !elem_of_nil. tauto.
    + intros x Hx. by apply elem_of_nil in Hx.
  - rewrite cancel_all_cons.
    destruct (cancel_task_cases s id) as (Hiff & Hfalse & Htrue).
    destruct (cancellable_dec s id) as [Hc|Hc].
    + pose proof (proj2 Hiff Hc) as Hok. rewrite Hok.
      destruct (Htrue Hok) as (_ & Hst & Hother & Hwf & _).
      set (s1 := fst (cancel_task s id)) in *.
      destruct (IH s1 (c0 ++ [id])) as (new & Hsnd & Hnd & Hmem & Hkeep & Hcanc & Hw).
      assert (Hs1 : forall x, cancellable s1 x <-> x <> id /\ cancellable s x).
      { intros x. unfold cancellable, status_of in *.
        destruct (decide (x = id)) as [->|Hne].
        - rewrite Hst. split; [intros [[=]|[=]] | by intros [? _]].
        - rewrite (Hother x Hne). tauto. }
      exists (id :: new). rewrite Hsnd, <- app_assoc. split; [done|].
      split; [|split; [|split; [|split]]].
      * apply NoDup_cons. split; [|done]. rewrite Hmem, Hs1. tauto.
      * intros x. rewrite !elem_of_cons, Hmem, Hs1.
        destruct (decide (x = id)) as [->|Hne]; [tauto|]. tauto.
      * intros x Hx. apply not_elem_of_cons in Hx as [Hne Hx].
        by rewrite (Hkeep x Hx), (Hother x Hne).
      * intros x [->|Hx]%elem_of_cons; [|by apply Hcanc].
        destruct (decide (id ∈ new)) as [Hin|Hnin]; [by apply Hcanc|].
        unfold status_of in *. by rewrite (Hkeep id Hnin).
      * by rewrite Hw.
    + assert (Hok : snd (cancel_task s id) = false).
      { destruct (snd (cancel_task s id)); [|done]. exfalso. by apply Hc, Hiff. }
      rewrite Hok, (Hfalse Hok).
      destruct (IH s c0) as (new & Hsnd & Hnd & Hmem & Hkeep & Hcanc & Hw).
      exists new. split; [done|]. split; [done|]. split; [|done].
      intros x. rewrite Hmem, elem_of_cons. split; [tauto|].
      intros [[->|Hx] Hcx]; [done | tauto].
Qed.

Lemma cancel_workflow_eq self workflow_id task_ids :
  workflows self !! workflow_id = Some task_ids -> task_ids <> [] ->
  cancel_workflow self workflow_id =
    (fst (cancel_all task_ids (self, [])), Some (snd (cancel_all task_ids (self, [])))).
Proof.
  intros Hwf Hne. unfold cancel_workflow. rewrite Hwf.
  destruct task_ids as [|x ids]; [done|].
  fold (cancel_all (x :: ids) (self, [])).
  by destruct (cancel_all (x :: ids) (self, [])).
Qed.

(** [cancel_workflow] on a workflow with at least one task returns,
    each once, the task ids of the workflow that were PENDING or RUNNING;
    these are CANCELLED afterwards, every other task is as it was, no task
    of the workflow is left PENDING or RUNNING, and a second call returns
    the empty list. A workflow that is unknown or has no task makes it
    raise, with nothing changed. *)
Theorem cancel_workflow_cancels_active :
  (forall self workflow_id task_ids,
     workflows self !! workflow_id = Some task_ids -> task_ids <> [] ->
     let r := cancel_workflow self workflow_id in
     exists cancelled,
       snd r = Some cancelled
       /\ NoDup cancelled
       /\ (forall x, x ∈ cancelled <-> x ∈ task_ids /\ cancellable self x)
       /\ (forall x, x ∈ cancelled -> status_of (fst r) x = Some CANCELLED)
       /\ (forall x, x ∉ cancelled -> get_task (fst r) x = get_task self x)
       /\ (forall x, x ∈ task_ids -> ~ cancellable (fst r) x)
       /\ snd (cancel_workflow (fst r) workflow_id) = Some [])
  /\ (forall self workflow_id,
        workflows self !! workflow_id = None
        \/ workflows self !! workflow_id = Some [] ->
        cancel_workflow self workflow_id = (self, None)).
Proof.
  split.
  - intros self workflow_id task_ids Hwf Hne r. subst r.
    rewrite (cancel_workflow_eq _ _ _ Hwf Hne). cbn [fst snd].
    destruct (cancel_all_spec task_ids self [])
      as (new & Hsnd & Hnd & Hmem & Hkeep & Hcanc & Hw).
    set (s1 := fst (cancel_all task_ids (self, []))) in *.
    assert (Hnone : forall x, x ∈ task_ids -> ~ cancellable s1 x).
    { intros x Hx Hcx. destruct (decide (x ∈ new)) as [Hin|Hnin].
      - unfold cancellable in Hcx. rewrite (Hcanc x Hin) in Hcx.
        by destruct Hcx as [[=]|[=]].
      - apply Hnin, Hmem. split; [done|]. unfold cancellable, status_of in *.
        by rewrite <- (Hkeep x Hnin). }
    exists new. split; [by rewrite Hsnd|]. split; [done|]. split; [done|].
    split; [done|]. split; [done|]. split; [done|].
    assert (Hwf1 : workflows s1 !! workflow_id = Some task_ids) by (by rewrite Hw).
    rewrite (cancel_workflow_eq _ _ _ Hwf1 Hne). cbn [snd].
    destruct (cancel_all_spec task_ids s1 []) as (new2 & Hsnd2 & _ & Hmem2 & _).
    rewrite Hsnd2. cbn. f_equal. apply elem_of_nil_inv. intros x Hx.
    apply Hmem2 in Hx as [Hx Hcx]. by apply (Hnone x).
  - intros self workflow_id [H|H]; unfold cancel_workflow; by rewrite H.
Qed.

Lemma mixed_workflow : workflows mixed !! "w" = Some ["A"; "B"; "C"].
Proof. by vm_compute. Qed.

Lemma cancel_workflow_cancels_active_witness :
  workflows mixed !! "w" = Some ["A"; "B"; "C"]
  /\ exists cancelled,
       snd (cancel_workflow mixed "w") = Some cancelled
       /\ ("A" ∈ cancelled <-> "A" ∈ ["A"; "B"; "C"] /\ cancellable mixed "A").
Proof.
  split; [exact mixed_workflow|].
  destruct (proj1 cancel_workflow_cancels_active mixed "w" ["A"; "B"; "C"]
              mixed_workflow ltac:(discriminate))
    as (cancelled & Hsnd & _ & Hmem & _).
  exists cancelled. split; [exact Hsnd | exact (Hmem "A")].
Defined.


(** *** A workflow as [create_workflow] makes it *)

Lemma add_tasks_present ts : forall self t,
  t ∈ ts ->
  is_Some (get_task (fold_left (fun s t => fst (add_task t s)) ts self) (task_id t)).
Proof.
  assert (Hkeep : forall ts self x, is_Some (get_task self x) ->
            is_Some (get_task (fold_left (fun s t => fst (add_task t s)) ts self) x)).
  { induction ts0 as [|t0 ts0 IH]; intros self x Hx; [done|]. cbn [fold_left].
    apply IH. unfold get_task, add_task. cbn.
    destruct (decide (task_id t0 = x)) as [->|Hne].
    - rewrite lookup_insert_eq. by eexists.
    - by rewrite lookup_insert_ne. }
  induction ts as [|t0 ts IH]; intros self t Ht; [by apply elem_of_nil in Ht|].
  cbn [fold_left]. apply elem_of_cons in Ht as [->|Ht]; [|by apply IH].
  apply Hkeep. unfold get_task, add_task. cbn. rewrite lookup_insert_eq. by eexists.
Qed.

Lemma create_workflow_state workflow_id ts self :
  let s := fst (create_workflow workflow_id ts self) in
  workflows s !! workflow_id = Some (map task_id ts)
  /\ forall x, x ∈ map task_id ts -> is_Some (get_task s x).
Proof.
  intros s. subst s. unfold create_workflow. cbn. split; [apply lookup_insert_eq|].
  intros x Hx%list_elem_of_In. apply in_map_iff in Hx as (t & <- & Ht).
  apply list_elem_of_In in Ht. by apply (add_tasks_present ts self t).
Qed.

(** A workflow made by [create_workflow] from at least one task is
    executed without an exception: [execute_workflow] returns a results
    dictionary, every task id of the workflow being in the table. Made
    from no task, the workflow is stored with an empty list and
    [execute_workflow] raises "Workflow not found" for it. *)
Theorem created_workflow_executes :
  (forall workflow_id ts self,
     ts <> [] ->
     let s := fst (create_workflow workflow_id ts self) in
     workflows s !! workflow_id = Some (map task_id ts)
     /\ (forall t, t ∈ ts -> is_Some (get_task s (task_id t)))
     /\ exists s' results, execute_workflow s workflow_id = Some (s', inr results))
  /\ (forall workflow_id self,
        let s := fst (create_workflow workflow_id [] self) in
        workflows s !! workflow_id = Some []
        /\ execute_workflow s workflow_id
           = Some (s, inl ("Workflow not found: " +:+ workflow_id))).
Proof.
  split.
  - intros workflow_id ts self Hne s.
    destruct (create_workflow_state workflow_id ts self) as [Hwf Hpresent].
    fold s in Hwf, Hpresent. split; [done|]. split.
    { intros t Ht. apply Hpresent, list_elem_of_In, in_map. by apply list_elem_of_In. }
    destruct (execute_workflow_total s workflow_id) as [[s' r] Hrun].
    exists s'. unfold execute_workflow in *. rewrite Hwf in *.
    destruct (map task_id ts) as [|x ids] eqn:Hids; [by destruct ts|].
    destruct (build_graph s (x :: ids)) as [g|] eqn:Hg.
    + destruct (workflow_loop _ g s (initial_ready g) ∅) as [[s2 results]|]; [|done].
      injection Hrun as <- <-. by exists results.
    + exfalso. unfold build_graph in Hg.
      destruct (forallb _ (x :: ids)) eqn:Hall; [done|].
      apply not_true_iff_false in Hall. apply Hall, forallb_forall.
      intros y Hy. apply bool_decide_eq_true, Hpresent. by apply list_elem_of_In.
  - intros workflow_id self s. subst s. unfold create_workflow, execute_workflow.
    cbn. by rewrite lookup_insert_eq.
Qed.

Lemma created_workflow_executes_witness :
  exists s' results,
    execute_workflow
      (fst (create_workflow "w" [new_task "A" "" "" "" MEDIUM ["Z"] 3] doomed)) "w"
    = Some (s', inr results).
Proof.
  exact (proj2 (proj2 (proj1 created_workflow_executes "w"
           [new_task "A" "" "" "" MEDIUM ["Z"] 3] doomed ltac:(discriminate)))).
Defined.

(** *** A task that cannot start *)

Lemma unsatisfied_dependency_Some self deps dep_id :
  unsatisfied_dependency self deps = Some dep_id <->
  exists before rest,
    deps = before ++ dep_id :: rest
    /\ (forall x, x ∈ before -> status_of self x = Some COMPLETED)
    /\ status_of self dep_id <> Some COMPLETED.
Proof.
  unfold status_of. induction deps as [|d deps IH]; cbn [unsatisfied_dependency].
  - split; [done|]. intros (before & rest & H & _). by destruct before.
  - destruct (get_task self d) as [task|] eqn:Ht.
    + destruct (decide (status task = COMPLETED)) as [Hc|Hc].
      * rewrite IH. split.
        -- intros (before & rest & -> & Hb & Hd). exists (d :: before), rest.
           split; [done|]. split; [|done].
           intros x [->|Hx]%elem_of_cons; [|by apply Hb]. rewrite Ht. cbn. by rewrite Hc.
        -- intros (before & rest & Heq & Hb & Hd). destruct before as [|b before].
           ++ injection Heq as -> ->. rewrite Ht in Hd. cbn in Hd. by rewrite Hc in Hd.
           ++ injection Heq as -> ->. exists before, rest. split; [done|].
              split; [|done]. intros x Hx. apply Hb. by right.
      * split.
        -- intros [= <-]. exists [], deps. split; [done|]. split.
           ++ intros x Hx. by apply elem_of_nil in Hx.
           ++ rewrite Ht. cbn. by intros [= ?].
        -- intros (before & rest & Heq & Hb & Hd). destruct before as [|b before].
           ++ by injection Heq as -> ->.
           ++ injection Heq as -> ->. specialize (Hb b (list_elem_of_here _ _)).
              rewrite Ht in Hb. cbn in Hb. by injection Hb as Hb.
    + split.
      * intros [= <-]. exists [], deps. split; [done|]. split.
        -- intros x Hx. by apply elem_of_nil in Hx.
        -- by rewrite Ht.
      * intros (before & rest & Heq & Hb & Hd). destruct before as [|b before].
        -- by injection Heq as -> ->.
        -- injection Heq as -> ->. specialize (Hb b (list_elem_of_here _ _)).
           by rewrite Ht in Hb.
Qed.

(** [execute_task] on an id that is not in the table raises "Task not
    found" and changes nothing. On a task with a dependency that is
    missing from the table or not COMPLETED it raises "Dependency not
    satisfied" naming the first such dependency of the list, and changes
    nothing: the task is not set to RUNNING, its retry count is not
    touched and the executor is not called. *)
Theorem execute_task_refuses_to_start :
  (forall self id,
     get_task self id = None ->
     execute_task self id = Some (self, inl ("Task not found: " +:+ id)))
  /\ (forall self id task before dep_id rest,
        get_task self id = Some task ->
        dependencies task = before ++ dep_id :: rest ->
        (forall x, x ∈ before -> status_of self x = Some COMPLETED) ->
        status_of self dep_id <> Some COMPLETED ->
        execute_task self id
        = Some (self, inl ("Dependency not satisfied: " +:+ dep_id))).
Proof.
  split.
  - intros self id Ht. unfold execute_task, retry_fuel. rewrite Ht.
    rewrite execute_task_fuel_step. by rewrite Ht.
  - intros self id task before dep rest Ht Hdeps Hb Hd.
    unfold execute_task, retry_fuel. rewrite Ht, execute_task_fuel_step, Ht.
    rewrite (proj2 (unsatisfied_dependency_Some self (dependencies task) dep)); [done|].
    by exists before, rest.
Qed.

Lemma execute_task_refuses_to_start_witness :
  get_task chain "B" = Some (new_task "B" "" "" "" MEDIUM ["A"] 0)
  /\ status_of chain "A" <> Some COMPLETED
  /\ execute_task chain "B" = Some (chain, inl "Dependency not satisfied: A").
Proof.
  assert (Ha : status_of chain "A" <> Some COMPLETED) by (by vm_compute).
  split; [reflexivity|]. split; [exact Ha|].
  refine (proj2 execute_task_refuses_to_start chain "B"
            (new_task "B" "" "" "" MEDIUM ["A"] 0) [] "A" [] eq_refl eq_refl _ Ha).
  intros x Hx. by apply elem_of_nil in Hx.
Defined.


(** *** A task whose every attempt fails *)

Lemma calls_of_store_cons id t self :
  calls_of (store id t (id :: invoked self) self) id = S (calls_of self id).
Proof. rewrite calls_of_store. unfold calls_of. by rewrite filter_cons_True. Qed.

Lemma status_of_store_ne id t log self x :
  x <> id -> status_of (store id t log self) x = status_of self x.
Proof. intros Hne. unfold status_of. rewrite get_task_store. by rewrite decide_False. Qed.

Lemma exhausts_retries_fuel ex id fuel : forall self task,
  always_failing ex ->
  get_task self id = Some task ->
  executor self = Some ex ->
  (forall dep_id, dep_id ∈ dependencies task ->
     dep_id <> id /\ status_of self dep_id = Some COMPLETED) ->
  (Z.to_nat (max_retries task - retry_count task) < fuel)%nat ->
  exists s' e,
    execute_task_fuel fuel self id = Some (s', inl e)
    /\ status_of s' id = Some FAILED
    /\ error_of s' id = Some (Some e)
    /\ (retry_count <$> get_task s' id)
       = Some (Z.max (retry_count task + 1) (max_retries task))
    /\ calls_of s' id
       = (calls_of self id
          + Z.to_nat (Z.max 1 (max_retries task - retry_count task)))%nat.
Proof.
  induction fuel as [|fuel IH]; intros self task Hfail Ht Hex Hdeps Hfuel; [lia|].
  rewrite execute_task_fuel_step, Ht.
  rewrite (proj2 (unsatisfied_dependency_None self (dependencies task)))
    by (intros dep Hdep; by apply Hdeps).
  cbv zeta.
  assert (Hinv : invoke self id (with_status RUNNING task)
                 = (ex (length (invoked self)) (with_status RUNNING task),
                    id :: invoked self)) by (unfold invoke; by rewrite Hex).
  rewrite Hinv. cbn [fst snd].
  set (running := with_status RUNNING task).
  set (attempt := ex (length (invoked self)) running).
  destruct (Hfail (length (invoked self)) running) as [e He]. fold attempt in He.
  rewrite He.
  destruct (retry_count_apply_attempt attempt running) as [Hrc Hmr].
  set (failed := with_error (Some e)
                   (with_retry_count (retry_count (apply_attempt attempt running) + 1)
                      (apply_attempt attempt running))).
  assert (Hfrc : retry_count failed = retry_count task + 1)
    by (change (retry_count failed)
          with (retry_count (apply_attempt attempt running) + 1);
        rewrite Hrc; reflexivity).
  assert (Hfmr : max_retries failed = max_retries task)
    by (change (max_retries failed)
          with (max_retries (apply_attempt attempt running));
        rewrite Hmr; reflexivity).
  assert (Hfdeps : dependencies failed = dependencies task)
    by (change (dependencies failed)
          with (dependencies (apply_attempt attempt running));
        by rewrite dependencies_apply_attempt).
  rewrite Hfrc, Hfmr.
  destruct (Z.ltb_spec (retry_count task + 1) (max_retries task)) as [Hlt|Hge].
  - set (s1 := store id failed (id :: invoked self) self).
    destruct (IH s1 failed Hfail) as (s' & e' & Hrun & Hst & Herr & Hr & Hc).
    + unfold s1. by rewrite get_task_store, decide_True.
    + done.
    + intros dep Hdep. rewrite Hfdeps in Hdep. destruct (Hdeps dep Hdep) as [Hne Hs].
      split; [done|]. unfold s1. by rewrite status_of_store_ne.
    + rewrite Hfrc, Hfmr. lia.
    + exists s', e'. split; [done|]. split; [done|]. split; [done|].
      rewrite Hr, Hc, Hfrc, Hfmr. unfold s1. rewrite calls_of_store_cons.
      split; [f_equal; lia | lia].
  - exists (store id (with_status FAILED failed) (id :: invoked self) self), e.
    split; [done|]. unfold status_of, error_of.
    rewrite get_task_store, decide_True by done. cbn [fmap option_fmap option_map].
    split; [done|]. split; [done|]. rewrite calls_of_store_cons.
    change (retry_count (with_status FAILED failed)) with (retry_count failed).
    rewrite Hfrc. split; [f_equal; lia | lia].
Qed.

(** When the executor fails at every call, [execute_task] on a task
    whose dependencies are COMPLETED raises after
    max(1, max_retries - retry_count) calls of the executor: the task ends
    FAILED with the last error, and its retry count is the larger of
    max_retries and the count it had plus one. So max_retries bounds the
    attempts, the first one included, and a task with max_retries = 0 is
    still attempted once. *)
Theorem execute_task_exhausts_retries :
  forall self id task ex,
    always_failing ex ->
    get_task self id = Some task ->
    executor self = Some ex ->
    (forall dep_id, dep_id ∈ dependencies task ->
       dep_id <> id /\ status_of self dep_id = Some COMPLETED) ->
    exists s' e,
      execute_task self id = Some (s', inl e)
      /\ status_of s' id = Some FAILED
      /\ error_of s' id = Some (Some e)
      /\ (retry_count <$> get_task s' id)
         = Some (Z.max (retry_count task + 1) (max_retries task))
      /\ calls_of s' id
         = (calls_of self id
            + Z.to_nat (Z.max 1 (max_retries task - retry_count task)))%nat.
Proof.
  intros self id task ex Hfail Ht Hex Hdeps.
  unfold execute_task, retry_fuel. rewrite Ht.
  apply (exhausts_retries_fuel ex id); try done. lia.
Qed.

Lemma broken_always_failing : always_failing broken.
Proof. intros calls task. by eexists. Qed.

Lemma execute_task_exhausts_retries_witness :
  exists s' e,
    execute_task doomed "T" = Some (s', inl e)
    /\ status_of s' "T" = Some FAILED
    /\ calls_of s' "T" = 2%nat.
Proof.
  destruct (execute_task_exhausts_retries doomed "T"
              (new_task "T" "" "" "" MEDIUM [] 2) broken
              broken_always_failing eq_refl eq_refl)
    as (s' & e & Hrun & Hst & _ & _ & Hc).
  - intros dep Hdep. by apply elem_of_nil in Hdep.
  - exists s', e. split; [exact Hrun|]. split; [exact Hst | exact Hc].
Defined.

End OrchestratorFacts.
(** ** The provider registry and the role manager *)

Module ProviderFacts.
Import ModelProviderInterface ResourceOptimization Scenarios.Selection Cases.Providers.

Lemma get_provider_None reg id :
  get_provider reg id = None <-> id ∉ list_providers reg.
Proof.
  induction reg as [|[k p] reg IH]; cbn.
  - split; [intros _; apply not_elem_of_nil | done].
  - rewrite not_elem_of_cons. destruct (decide (k = id)) as [->|Hne].
    + split; [done | by intros [? _]].
    + rewrite IH. split; [by intros ? | by intros [_ ?]].
Qed.

Lemma get_provider_app reg1 reg2 id :
  get_provider (reg1 ++ reg2) id
  = match get_provider reg1 id with
    | Some p => Some p
    | None => get_provider reg2 id
    end.
Proof.
  induction reg1 as [|[k p] reg1 IH]; cbn; [done|].
  by destruct (decide (k = id)).
Qed.

Lemma get_provider_elem reg id p :
  get_provider reg id = Some p -> (id, p) ∈ reg.
Proof.
  induction reg as [|[k q] reg IH]; cbn; [done|].
  destruct (decide (k = id)) as [->|Hne].
  - intros [= ->]. apply elem_of_cons. by left.
  - intros H. apply elem_of_cons. right. by apply IH.
Qed.

Lemma get_provider_NoDup reg id p :
  registry_ok reg -> (id, p) ∈ reg -> get_provider reg id = Some p.
Proof.
  unfold registry_ok, list_providers.
  induction reg as [|[k q] reg IH]; cbn; intros Hnd Hin.
  - by apply elem_of_nil in Hin.
  - apply NoDup_cons in Hnd as [Hk Hnd]. apply elem_of_cons in Hin as [Heq|Hin].
    + injection Heq as <- <-. by rewrite decide_True.
    + destruct (decide (k = id)) as [->|Hne]; [|by apply IH].
      exfalso. apply Hk. apply list_elem_of_fmap. by exists (id, p).
Qed.

Lemma register_provider_cases reg provider_id p :
  match register_provider provider_id p reg with
  | None => is_Some (get_provider reg provider_id)
  | Some reg' =>
      get_provider reg provider_id = None
      /\ reg' = reg ++ [(provider_id, p)]
  end.
Proof.
  unfold register_provider. destruct (get_provider reg provider_id) eqn:H; [by eexists|done].
Qed.

Lemma register_provider_step reg provider_id p :
  match register_provider provider_id p reg with
  | None => is_Some (get_provider reg provider_id)
  | Some reg' =>
      get_provider reg provider_id = None
      /\ get_provider reg' provider_id = Some p
      /\ (forall x, x <> provider_id -> get_provider reg' x = get_provider reg x)
      /\ list_providers reg' = list_providers reg ++ [provider_id]
      /\ (registry_ok reg -> registry_ok reg')
  end.
Proof.
  pose proof (register_provider_cases reg provider_id p) as H.
  destruct (register_provider provider_id p reg) as [reg'|]; [|done].
  destruct H as [Hnone ->]. split; [done|].
  split. { rewrite get_provider_app, Hnone. cbn. by rewrite decide_True. }
  split. { intros x Hx. rewrite get_provider_app. cbn. rewrite decide_False by done.
           by destruct (get_provider reg x). }
  split. { unfold list_providers. by rewrite map_app. }
  unfold registry_ok, list_providers. rewrite map_app. cbn. intros Hnd.
  apply NoDup_app. split; [done|]. split.
  - intros x Hx Hx'. apply list_elem_of_singleton in Hx' as ->.
    by apply (proj1 (get_provider_None reg provider_id)).
  - apply NoDup_singleton.
Qed.

Lemma register_each_snoc calls c reg :
  register_each (calls ++ [c]) reg
  = default (register_each calls reg)
      (register_provider (fst c) (snd c) (register_each calls reg)).
Proof. unfold register_each. by rewrite fold_left_app. Qed.

(** Whatever [register_provider] calls are made on an empty registry,
    refused ones included, the provider ids stay distinct, an id is
    listed exactly when some call named it, and [get_provider] returns
    for an id the provider of the first call that named it: a later
    registration under the same id never replaces the first. *)
Theorem registry_first_registration_wins :
  forall calls : list (string * ModelProvider),
    let reg := register_each calls [] in
    registry_ok reg
    /\ (forall provider_id,
          provider_id ∈ list_providers reg <-> provider_id ∈ calls.*1)
    /\ (forall provider_id,
          get_provider reg provider_id
          = snd <$> head (filter (fun c => fst c = provider_id) calls)).
Proof.
  intros calls. cbv zeta.
  induction calls as [|[id p] calls IH] using rev_ind.
  - split; [apply NoDup_nil_2|]. split; [done|]. done.
  - destruct IH as (Hok & Hdom & Hget).
    rewrite register_each_snoc. cbn [fst snd].
    set (reg := register_each calls []) in *.
    pose proof (register_provider_step reg id p) as Hstep.
    assert (Hhead : forall x,
      snd <$> head (filter (fun c : string * ModelProvider => fst c = x)
                      (calls ++ [(id, p)]))
      = match get_provider reg x with
        | Some q => Some q
        | None => if decide (id = x) then Some p else None
        end).
    { intros x. rewrite filter_app, Hget.
      destruct (filter (fun c : string * ModelProvider => fst c = x) calls)
        as [|c l]; [|done].
      cbn [app fmap option_fmap option_map head].
      destruct (decide (id = x)) as [->|Hne].
      - by rewrite filter_cons_True.
      - by rewrite filter_cons_False. }
    destruct (register_provider id p reg) as [reg'|]; cbn [from_option Datatypes.id].
    + destruct Hstep as (Hnone & Hnew & Hold & Hlist & Hinv).
      split; [by apply Hinv|]. split.
      * intros x. rewrite Hlist, fmap_app, !elem_of_app, Hdom. done.
      * intros x. rewrite Hhead. destruct (decide (id = x)) as [->|Hne].
        -- by rewrite Hnew, Hnone.
        -- rewrite (Hold x) by done. by destruct (get_provider reg x).
    + destruct Hstep as [q Hq]. split; [done|]. split.
      * intros x. rewrite fmap_app, elem_of_app, Hdom. cbn.
        split; [by left|]. intros [H|H]; [done|].
        apply list_elem_of_singleton in H as ->. apply Hdom.
        destruct (decide (id ∈ list_providers reg)) as [Hin|Hnin]; [done|].
        apply get_provider_None in Hnin. congruence.
      * intros x. rewrite Hhead. destruct (get_provider reg x) eqn:E; [done|].
        destruct (decide (id = x)) as [->|Hne]; [congruence|done].
Qed.

Lemma registry_first_registration_wins_witness :
  get_provider
    (register_each [("c", coder); ("c", text_provider 1%Q); ("d", coder)] [])
    "c" = Some coder.
Proof.
  exact (proj2 (proj2 (registry_first_registration_wins
           [("c", coder); ("c", text_provider 1%Q); ("d", coder)])) "c").
Defined.

(** *** Providers of a capability *)

Lemma has_all_capabilities_single (p : ModelProvider) capability :
  has_all_capabilities p [capability]
  = existsb (fun model_id =>
      bool_decide (capability ∈ get_model_capabilities p model_id))
      (list_available_models p).
Proof. unfold has_all_capabilities. cbn [forallb]. apply andb_true_r. Qed.

Lemma matching_providers_fold capability (reg : ProviderRegistry) : forall acc,
  fold_left (fun matching_providers (e : string * ModelProvider) =>
    if existsb (fun model_id =>
         bool_decide (capability ∈ get_model_capabilities (snd e) model_id))
         (list_available_models (snd e))
    then matching_providers ++ [fst e] else matching_providers) reg acc
  = acc ++ (candidate_providers reg [capability]).*1.
Proof.
  unfold candidate_providers.
  induction reg as [|e reg IH]; intros acc; cbn [fold_left].
  - by rewrite app_nil_r.
  - rewrite IH. pose proof (has_all_capabilities_single (snd e) capability) as Hs.
    destruct (existsb _ (list_available_models (snd e))) eqn:E.
    + rewrite filter_cons_True by done.
      rewrite fmap_cons, <- app_assoc. done.
    + rewrite filter_cons_False by (by rewrite Hs).
      done.
Qed.

(** [get_provider_for_capability] returns, in registration order, the
    ids of the providers one of whose models lists the capability; these
    are the candidates [select_provider] considers when that capability
    is the only one required. *)
Theorem get_provider_for_capability_spec :
  forall reg capability,
    get_provider_for_capability reg capability
    = (candidate_providers reg [capability]).*1
    /\ (forall provider_id,
          provider_id ∈ get_provider_for_capability reg capability
          <-> exists p model_id,
                (provider_id, p) ∈ reg
                /\ model_id ∈ list_available_models p
                /\ capability ∈ get_model_capabilities p model_id)
    /\ get_provider_for_capability reg capability `sublist_of` list_providers reg.
Proof.
  intros reg capability.
  assert (Heq : get_provider_for_capability reg capability
                = (candidate_providers reg [capability]).*1)
    by (unfold get_provider_for_capability; by rewrite matching_providers_fold).
  split; [done|]. rewrite Heq. split.
  - intros id. unfold candidate_providers. rewrite list_elem_of_fmap. split.
    + intros ([k p] & -> & Hin). apply list_elem_of_filter in Hin as [Hp Hin].
      cbn [snd] in Hp. rewrite has_all_capabilities_single in Hp.
      apply existsb_exists in Hp as (m & Hm & Hc).
      apply bool_decide_eq_true in Hc. exists p, m.
      split; [done|]. split; [by apply list_elem_of_In | done].
    + intros (p & m & Hin & Hm & Hc). exists (id, p). split; [done|].
      apply list_elem_of_filter. split; [|done].
      cbn [snd]. rewrite has_all_capabilities_single.
      apply existsb_exists. exists m. split; [by apply list_elem_of_In|].
      by apply bool_decide_eq_true.
  - unfold candidate_providers, list_providers.
    apply (fmap_sublist fst). apply sublist_filter.
Qed.

Lemma get_provider_for_capability_spec_witness :
  "c" ∈ get_provider_for_capability [("c", coder)] SUMMARIZATION.
Proof.
  apply (proj1 (proj2 (get_provider_for_capability_spec [("c", coder)] SUMMARIZATION)) "c").
  exists coder, "m1". split; [apply list_elem_of_here|].
  split; [apply list_elem_of_here|]. cbn. apply elem_of_cons. right. apply list_elem_of_here.
Defined.

(** *** Roles given by capability *)

Lemma assign_by_capabilities_role provider_id model_id capabilities rm role :
  role_assignments (assign_by_capabilities provider_id model_id capabilities rm) role
  = role_assignments rm role
    ++ (if decide (qualifies role capabilities) then [(provider_id, model_id)] else []).
Proof.
  unfold assign_by_capabilities.
  destruct (decide (qualifies role capabilities)) as [Hq|Hq];
    destruct role; cbn [qualifies] in Hq;
    repeat case_bool_decide;
    destruct (Nat.leb_spec 3 (length capabilities));
    cbn; rewrite ?app_nil_r; try done; try lia.
Qed.

Lemma assign_models_role provider_id (p : ModelProvider) role models : forall rm,
  role_assignments
    (fold_left (fun rm model_id =>
       assign_by_capabilities provider_id model_id
         (get_model_capabilities p model_id) rm) models rm) role
  = role_assignments rm role
    ++ (pair provider_id
          <$> filter (fun m => qualifies role (get_model_capabilities p m)) models).
Proof.
  induction models as [|m models IH]; intros rm; cbn [fold_left].
  - by rewrite app_nil_r.
  - rewrite IH, assign_by_capabilities_role, <- app_assoc. f_equal.
    destruct (decide (qualifies role (get_model_capabilities p m))).
    + by rewrite filter_cons_True.
    + by rewrite filter_cons_False.
Qed.

Lemma assign_providers_role (reg : ProviderRegistry) role ids : forall rm,
  role_assignments
    (fold_left (fun rm provider_id =>
       match get_provider reg provider_id with
       | None => rm
       | Some provider =>
           fold_left (fun rm model_id =>
             assign_by_capabilities provider_id model_id
               (get_model_capabilities provider model_id) rm)
             (list_available_models provider) rm
       end) ids rm) role
  = role_assignments rm role
    ++ (ids ≫= fun provider_id =>
          match get_provider reg provider_id with
          | None => []
          | Some p =>
              pair provider_id
                <$> filter (fun m => qualifies role (get_model_capabilities p m))
                      (list_available_models p)
          end).
Proof.
  induction ids as [|id ids IH]; intros rm; cbn [fold_left].
  - by rewrite app_nil_r.
  - rewrite IH. cbn [mbind list_bind]. rewrite app_assoc. f_equal.
    destruct (get_provider reg id) as [p|]; [|by rewrite app_nil_r].
    apply assign_models_role.
Qed.

Lemma auto_assign_roles_elem reg rm role provider_id model_id :
  (provider_id, model_id) ∈ role_assignments (auto_assign_roles reg rm) role
  <-> exists p,
        get_provider reg provider_id = Some p
        /\ model_id ∈ list_available_models p
        /\ qualifies role (get_model_capabilities p model_id).
Proof.
  unfold auto_assign_roles. rewrite assign_providers_role. cbn [app role_assignments new_role_manager].
  rewrite list_elem_of_bind. split.
  - intros (id & Hin & Hid). destruct (get_provider reg id) as [p|] eqn:E.
    + apply list_elem_of_fmap in Hin as (m & Heq & Hm). injection Heq as -> ->.
      apply list_elem_of_filter in Hm as [Hq Hm]. by exists p.
    + by apply elem_of_nil in Hin.
  - intros (p & Hp & Hm & Hq). exists provider_id. split.
    + rewrite Hp. apply list_elem_of_fmap. exists model_id. split; [done|].
      by apply list_elem_of_filter.
    + destruct (decide (provider_id ∈ list_providers reg)) as [|Hn]; [done|].
      apply get_provider_None in Hn. congruence.
Qed.

(** After [auto_assign_roles] a model holds a role exactly when its
    provider is registered and its capability list passes the role's
    test: CODE_GENERATION for EXECUTOR, SUMMARIZATION for ANALYZER,
    TEXT_GENERATION for GENERATOR, at least three entries for
    ORCHESTRATOR. Assignments made before are gone, and no model is ever
    given VALIDATOR or OPTIMIZER, so [get_best_model_for_role] raises for
    these two roles. *)
Theorem auto_assign_roles_by_capability :
  forall reg rm,
    let rm' := auto_assign_roles reg rm in
    (forall role provider_id model_id,
       (provider_id, model_id) ∈ get_models_for_role rm' role
       <-> exists p,
             get_provider reg provider_id = Some p
             /\ model_id ∈ list_available_models p
             /\ qualifies role (get_model_capabilities p model_id))
    /\ get_best_model_for_role rm' VALIDATOR
       = inl "No models available for role: ModelRole.VALIDATOR"
    /\ get_best_model_for_role rm' OPTIMIZER
       = inl "No models available for role: ModelRole.OPTIMIZER".
Proof.
  intros reg rm rm'. split; [intros; apply auto_assign_roles_elem|].
  assert (Hnone : forall role, (forall caps, ~ qualifies role caps) ->
            role_assignments rm' role = []).
  { intros role Hq. apply elem_of_nil_inv. intros [pid m] Hin.
    apply auto_assign_roles_elem in Hin as (p & _ & _ & H). by apply Hq in H. }
  unfold get_best_model_for_role.
  rewrite (Hnone VALIDATOR), (Hnone OPTIMIZER) by (intros caps H; exact H). done.
Qed.

Lemma auto_assign_roles_by_capability_witness :
  ("c", "m1") ∈ get_models_for_role
                  (auto_assign_roles [("c", coder)] new_role_manager) ANALYZER.
Proof.
  apply (proj1 (auto_assign_roles_by_capability [("c", coder)] new_role_manager)
           ANALYZER "c" "m1").
  exists coder. split; [reflexivity|]. split; [apply list_elem_of_here|].
  cbn. apply elem_of_cons. right. apply list_elem_of_here.
Defined.

End ProviderFacts.

(** ** The model executor under the orchestrator *)

Module ExecutorFacts.
Import ModelProviderInterface TaskOrchestrator Scenarios.Orchestration
  Cases.Orchestration Cases.Providers SingleTask Workflows FailedDependency
  OrchestratorFacts.

Lemma rejected_fuel ex id msg d fuel : forall self task,
  rejects ex d msg ->
  description task = d ->
  get_task self id = Some task ->
  executor self = Some ex ->
  (forall dep_id, dep_id ∈ dependencies task ->
     dep_id <> id /\ status_of self dep_id = Some COMPLETED) ->
  (Z.to_nat (max_retries task - retry_count task) < fuel)%nat ->
  exists s',
    execute_task_fuel fuel self id = Some (s', inl msg)
    /\ status_of s' id = Some FAILED
    /\ error_of s' id = Some (Some msg)
    /\ (assigned_provider <$> get_task s' id) = Some (assigned_provider task)
    /\ (assigned_model <$> get_task s' id) = Some (assigned_model task)
    /\ (execution_trace <$> get_task s' id) = Some (execution_trace task)
    /\ (result <$> get_task s' id) = Some (result task).
Proof.
  induction fuel as [|fuel IH]; intros self task Hrej Hd Ht Hex Hdeps Hfuel; [lia|].
  rewrite execute_task_fuel_step, Ht.
  rewrite (proj2 (unsatisfied_dependency_None self (dependencies task)))
    by (intros dep Hdep; by apply Hdeps).
  cbv zeta. unfold invoke. rewrite Hex.
  rewrite (Hrej (length (invoked self)) (with_status RUNNING task)) by done.
  cbn [fst snd outcome apply_attempt assignment trace with_assignment].
  set (failed := with_error (Some msg) _).
  assert (Hfrc : retry_count failed = retry_count task + 1) by reflexivity.
  assert (Hfmr : max_retries failed = max_retries task) by reflexivity.
  assert (Htr : execution_trace failed = execution_trace task)
    by (cbn; apply app_nil_r).
  rewrite Hfrc, Hfmr.
  destruct (Z.ltb_spec (retry_count task + 1) (max_retries task)) as [Hlt|Hge].
  - set (s1 := store id failed (id :: invoked self) self).
    destruct (IH s1 failed Hrej) as (s' & Hrun & Hst & Herr & Hp & Hm & Htrace & Hres).
    + done.
    + unfold s1. by rewrite get_task_store, decide_True.
    + done.
    + intros dep Hdep. destruct (Hdeps dep Hdep) as [Hne Hs].
      split; [done|]. unfold s1. by rewrite status_of_store_ne.
    + rewrite Hfrc, Hfmr. lia.
    + exists s'. rewrite Htr in Htrace. done.
  - eexists. split; [done|]. unfold status_of, error_of.
    rewrite get_task_store, decide_True by done.
    cbn [fmap option_fmap option_map]. rewrite <- Htr. done.
Qed.

Lemma role_by_description t task :
  description t = description task ->
  _determine_role_for_task t = _determine_role_for_task task.
Proof. unfold _determine_role_for_task. by intros ->. Qed.

Lemma unassigned_role_rejects reg rm task :
  get_models_for_role rm (_determine_role_for_task task) = [] ->
  rejects (ModelTaskExecutor reg rm) (description task)
    ("No models available for role: "
       +:+ role_name (_determine_role_for_task task)).
Proof.
  intros Hnone calls t Ht. unfold ModelTaskExecutor, get_best_model_for_role.
  rewrite (role_by_description t task Ht).
  unfold get_models_for_role in Hnone. by rewrite Hnone.
Qed.

(** When the role manager holds no model for the role a task's
    description selects, [execute_task] under the [ModelTaskExecutor]
    raises "No models available for role: <role>": the task ends FAILED
    with that error, and no provider, model, trace record or result is
    written on it. The role manager the constructor of the orchestrator
    builds holds no model at all, so with the default executor this is
    the outcome for every task. *)
Theorem unassigned_role_fails_task :
  (forall reg rm self id task,
     executor self = Some (ModelTaskExecutor reg rm) ->
     get_models_for_role rm (_determine_role_for_task task) = [] ->
     get_task self id = Some task ->
     (forall dep_id, dep_id ∈ dependencies task ->
        dep_id <> id /\ status_of self dep_id = Some COMPLETED) ->
     exists s',
       execute_task self id
       = Some (s', inl ("No models available for role: "
                          +:+ role_name (_determine_role_for_task task)))
       /\ status_of s' id = Some FAILED
       /\ (assigned_provider <$> get_task s' id) = Some (assigned_provider task)
       /\ (assigned_model <$> get_task s' id) = Some (assigned_model task)
       /\ (execution_trace <$> get_task s' id) = Some (execution_trace task)
       /\ (result <$> get_task s' id) = Some (result task))
  /\ (forall reg role,
        exists rm,
          executor (new_orchestrator (Some reg)) = Some (ModelTaskExecutor reg rm)
          /\ get_models_for_role rm role = []).
Proof.
  split.
  - intros reg rm self id task Hex Hnone Ht Hdeps.
    unfold execute_task, retry_fuel. rewrite Ht.
    destruct (rejected_fuel (ModelTaskExecutor reg rm) id _ _
                (S (Z.to_nat (max_retries task - retry_count task))) self task
                (unassigned_role_rejects reg rm task Hnone) eq_refl Ht Hex Hdeps)
      as (s' & Hrun & Hst & _ & Hrest); [lia|].
    by exists s'.
  - intros reg role. by exists {| role_assignments := fun _ => [] |}.
Qed.

Lemma unassigned_role_fails_task_witness :
  exists s',
    execute_task unserved "T"
    = Some (s', inl "No models available for role: ModelRole.VALIDATOR")
    /\ status_of s' "T" = Some FAILED.
Proof.
  destruct (proj1 unassigned_role_fails_task [("c", coder)]
              (auto_assign_roles [("c", coder)] new_role_manager) unserved "T"
              (new_task "T" "check" "Validate the plan" "" MEDIUM [] 1)
              eq_refl eq_refl eq_refl)
    as (s' & Hrun & Hst & _).
  - intros dep Hdep. by apply elem_of_nil in Hdep.
  - exists s'. split; [exact Hrun | exact Hst].
Defined.

End ExecutorFacts.

(** ** The ledger's books *)

Module LedgerReport.
Import ModelProviderInterface ResourceOptimization Scenarios.Ledger Cases.Ledger
  Float64 CreditLedger.
Local Open Scope Q_scope.

Lemma running_sum_snoc l e :
  running_sum (l ++ [e]) = fl (running_sum l + entry_amount e).
Proof. unfold running_sum. by rewrite fold_left_app. Qed.

Lemma allocated_to_snoc c h e :
  allocated_to c (h ++ [e])
  = if decide (entry_component e = c)
    then if is_allocate e then fl (allocated_to c h + entry_amount e)
         else allocated_to c h
    else allocated_to c h.
Proof.
  unfold allocated_to. rewrite filter_app.
  destruct (decide (entry_component e = c)) as [Hc|Hc].
  - rewrite (filter_cons_True _ e []) by done. rewrite filter_app.
    destruct (is_allocate e) eqn:E.
    + rewrite (filter_cons_True _ e []) by done. apply running_sum_snoc.
    + rewrite (filter_cons_False _ e []) by (by rewrite E). by rewrite app_nil_r.
  - rewrite (filter_cons_False _ e []) by done. by rewrite app_nil_r.
Qed.

Lemma used_by_snoc c h e :
  used_by c (h ++ [e])
  = if decide (entry_component e = c)
    then if is_allocate e then used_by c h
         else fl (used_by c h + entry_amount e)
    else used_by c h.
Proof.
  unfold used_by, is_use. rewrite filter_app.
  destruct (decide (entry_component e = c)) as [Hc|Hc].
  - rewrite (filter_cons_True _ e []) by done. rewrite filter_app.
    destruct (is_allocate e) eqn:E.
    + rewrite (filter_cons_False _ e []) by (by rewrite E). by rewrite app_nil_r.
    + rewrite (filter_cons_True _ e []) by (by rewrite E). apply running_sum_snoc.
  - rewrite (filter_cons_False _ e []) by done. by rewrite app_nil_r.
Qed.

Lemma no_entry_no_sums c h :
  c ∉ entry_component <$> h -> allocated_to c h = 0 /\ used_by c h = 0.
Proof.
  intros Hc. unfold allocated_to, used_by.
  assert (Hnil : filter (fun e => entry_component e = c) h = []).
  { apply elem_of_nil_inv. intros e He. apply list_elem_of_filter in He as [He Hin].
    apply Hc. apply list_elem_of_fmap. by exists e. }
  by rewrite Hnil.
Qed.

(** The grouping loop gives each component with an entry its two sums. *)
Lemma component_usage_lookup h c :
  fold_left group_entry h ∅ !! c
  = if decide (c ∈ entry_component <$> h)
    then Some {| allocated := allocated_to c h; used := used_by c h |}
    else None.
Proof.
  induction h as [|e h IH] using rev_ind.
  - cbn. rewrite decide_False by apply not_elem_of_nil. apply lookup_empty.
  - rewrite fold_left_app. cbn [fold_left]. unfold group_entry at 1.
    rewrite fmap_app, allocated_to_snoc, used_by_snoc. cbn [fmap list_fmap].
    destruct (decide (entry_component e = c)) as [Hc|Hc].
    + rewrite Hc, lookup_insert_eq.
      rewrite decide_True by (apply elem_of_app; right; apply list_elem_of_here).
      rewrite IH. f_equal.
      destruct (decide (c ∈ entry_component <$> h)) as [Hin|Hin];
        cbn [default from_option Datatypes.id allocated used].
      * by destruct (is_allocate e).
      * destruct (no_entry_no_sums c h Hin) as [-> ->]. by destruct (is_allocate e).
    + rewrite lookup_insert_ne by done. rewrite IH.
      destruct (decide (c ∈ entry_component <$> h)) as [Hin|Hin].
      * by rewrite decide_True by (apply elem_of_app; by left).
      * rewrite decide_False; [done|]. intros [H|H]%elem_of_app; [done|].
        apply list_elem_of_singleton in H. by apply Hc.
Qed.

(** The report for one component sees the entries of that component. *)
Lemma component_filter_idem c (h : list UsageEntry) :
  filter (fun e => entry_component e = c) (filter (fun e => entry_component e = c) h)
  = filter (fun e => entry_component e = c) h.
Proof.
  induction h as [|e h IH]; [done|].
  destruct (decide (entry_component e = c)) as [Hc|Hc].
  - rewrite (filter_cons_True _ e h) by done. rewrite filter_cons_True by done.
    by rewrite IH.
  - by rewrite filter_cons_False by done.
Qed.

Lemma component_filter_elem c (h : list UsageEntry) :
  c ∈ entry_component <$> filter (fun e => entry_component e = c) h
  <-> c ∈ entry_component <$> h.
Proof.
  rewrite !list_elem_of_fmap. split.
  - intros (e & He & Hin). apply list_elem_of_filter in Hin as [_ Hin]. by exists e.
  - intros (e & He & Hin). exists e. split; [done|].
    apply list_elem_of_filter. by split.
Qed.

Lemma recorded_balance_snoc b0 h e :
  recorded_balance b0 (h ++ [e])
  = match e with
    | AllocateEntry _ _ _ b' => b'
    | UseEntry _ _ _ _ => recorded_balance b0 h
    end.
Proof. unfold recorded_balance. by rewrite fold_left_app. Qed.

Lemma books_new b0 limit : books b0 (new_manager b0 limit).
Proof. split; cbn; [done|]. intros c _. apply lookup_empty. Qed.

Lemma books_allocate b0 now cid a m :
  books b0 m -> books b0 (fst (allocate_credits now cid a m)).
Proof.
  intros [Hb Hk]. destruct (over_budget m a) eqn:E.
  - by rewrite allocate_refused.
  - rewrite allocate_granted by done. cbn [fst]. split; cbn [balance usage_history allocations].
    + by rewrite recorded_balance_snoc.
    + intros c Hc. rewrite fmap_app in Hc. apply not_elem_of_app in Hc as [Hc Hc'].
      rewrite lookup_insert_ne; [by apply Hk|].
      intros ->. apply Hc'. apply list_elem_of_here.
Qed.

Lemma books_use b0 now cid a m :
  books b0 m -> books b0 (fst (use_credits now cid a m)).
Proof.
  intros [Hb Hk]. destruct (Qlt_le_dec (get_allocation m cid) a) as [Hlt|Hle].
  - by rewrite use_refused.
  - rewrite use_granted by done. cbn [fst]. split; cbn [balance usage_history allocations].
    + by rewrite recorded_balance_snoc.
    + intros c Hc. rewrite fmap_app in Hc. apply not_elem_of_app in Hc as [Hc Hc'].
      rewrite lookup_insert_ne; [by apply Hk|].
      intros ->. apply Hc'. apply list_elem_of_here.
Qed.

Lemma books_run_calls b0 cs : forall m, books b0 m -> books b0 (run_calls cs m).
Proof.
  induction cs as [|c cs IH]; intros m Hm; [done|].
  cbn. apply IH. destruct c; [by apply books_allocate | by apply books_use].
Qed.

(** After any calls of [allocate_credits] and [use_credits] on a new
    ledger, whatever their amounts and results, the usage report agrees
    with the history. A component is listed in "component_usage" exactly
    when a granted call named it, and a component that is not listed has
    no allocation. The two figures of a listed component are the amounts
    of its allocate records and of its use records, added in the order
    of the history with every addition rounded to binary64; the report
    filtered by that component lists it alone, with the same figures.
    "current_balance" is the balance that the last allocate record
    carries, the initial balance when there is none. None of this
    depends on how the builtin [sum] rounds the two totals. *)
Theorem usage_report_matches_history :
  forall float_sum cs initial_balance limit,
    let m := run_calls cs (new_manager initial_balance limit) in
    let r := get_usage_report float_sum None None None m in
    (forall c, is_Some (component_usage r !! c)
               <-> c ∈ entry_component <$> usage_history m)
    /\ (forall c, component_usage r !! c = None ->
          current_allocations r !! c = None)
    /\ (forall c u,
          component_usage r !! c = Some u ->
          let rc := get_usage_report float_sum (Some c) None None m in
          allocated u = allocated_to c (usage_history m)
          /\ used u = used_by c (usage_history m)
          /\ component_usage rc !! c = Some u
          /\ forall c', c' <> c -> component_usage rc !! c' = None)
    /\ current_balance r = recorded_balance initial_balance (usage_history m).
Proof.
  intros float_sum cs b0 limit m r.
  destruct (books_run_calls b0 cs _ (books_new b0 limit)) as [Hb Hk].
  fold m in Hb, Hk. subst r. unfold get_usage_report.
  cbn [current_balance total_allocated total_used component_usage current_allocations].
  split; [|split; [|split; [|done]]].
  - intros c. rewrite component_usage_lookup.
    destruct (decide (c ∈ entry_component <$> usage_history m)) as [Hin|Hin].
    + split; [done | by eexists].
    + split; [by intros [? ?] | done].
  - intros c. rewrite component_usage_lookup.
    destruct (decide (c ∈ entry_component <$> usage_history m)); [done|].
    intros _. by apply Hk.
  - intros c u. rewrite component_usage_lookup.
    destruct (decide (c ∈ entry_component <$> usage_history m)) as [Hin|]; [|done].
    intros [= <-]. cbn [allocated used].
    split; [done|]. split; [done|]. split.
    + rewrite component_usage_lookup.
      rewrite decide_True by (by apply component_filter_elem).
      unfold allocated_to, used_by. by rewrite component_filter_idem.
    + intros c' Hc'. rewrite component_usage_lookup. rewrite decide_False; [done|].
      intros (e & He & Hine)%list_elem_of_fmap.
      apply list_elem_of_filter in Hine as [Hce _]. congruence.
Qed.

Lemma usage_report_matches_history_witness :
  let m := run_calls plain_calls open_ledger in
  exists u,
    component_usage (get_usage_report left_to_right None None None m) !! "c" = Some u
    /\ allocated u = allocated_to "c" (usage_history m).
Proof.
  eexists. split; [by vm_compute|].
  apply (proj1 (proj2 (proj2 (usage_report_matches_history left_to_right
                                plain_calls 0 None))) "c").
  by vm_compute.
Defined.

(** *** Using credits *)



End LedgerReport.

(** ** The batch schedule *)

Module BatchSchedule.
Import ModelProviderInterface ResourceOptimization Cases.Scheduling Float64
  CreditLedger.

(** *** The order of the keys *)

Lemma deadline_ltb_asym a b : deadline_ltb a b = true -> deadline_ltb b a = false.
Proof.
  destruct a as [x|], b as [y|]; cbn; try done.
  rewrite Qltb_true, Qltb_false. apply Qlt_le_weak.
Qed.

Lemma deadline_le_trans a b c :
  deadline_ltb b a = false -> deadline_ltb c b = false -> deadline_ltb c a = false.
Proof.
  destruct a as [x|], b as [y|], c as [z|]; cbn; try done.
  rewrite !Qltb_false. intros H1 H2. by eapply Qle_trans.
Qed.

Lemma key_le_iff a b :
  key_le a b <->
  entry_priority b <= entry_priority a
  /\ (entry_priority b = entry_priority a -> no_later (deadline a) (deadline b)).
Proof.
  unfold key_le, key_ltb, sort_key, no_later. cbn [fst snd].
  destruct (Z.eqb_spec (- entry_priority b) (- entry_priority a)) as [Heq|Hne].
  - split; [intros H; split; [lia | done] | intros [_ H]; apply H; lia].
  - rewrite Z.ltb_ge. split; [intros H; split; [lia | intros; lia] | intros [H _]; lia].
Qed.

Lemma key_le_trans a b c : key_le a b -> key_le b c -> key_le a c.
Proof.
  rewrite !key_le_iff. unfold no_later. intros [H1 H1'] [H2 H2']. split; [lia|].
  intros Heq. assert (entry_priority b = entry_priority a) by lia.
  assert (entry_priority c = entry_priority b) by lia.
  eapply deadline_le_trans; eauto.
Qed.

Lemma key_ltb_le a b : key_ltb (sort_key a) (sort_key b) = true -> key_le a b.
Proof.
  unfold key_le, key_ltb, sort_key. cbn [fst snd].
  destruct (Z.eqb_spec (- entry_priority a) (- entry_priority b)) as [Heq|Hne].
  - rewrite Heq, Z.eqb_refl. apply deadline_ltb_asym.
  - rewrite (proj2 (Z.eqb_neq _ _)) by lia. rewrite Z.ltb_lt, Z.ltb_ge. lia.
Qed.

(** *** Sorting *)

Lemma insert_by_key_perm x l : insert_by_key x l ≡ₚ x :: l.
Proof.
  induction l as [|y l IH]; cbn; [done|].
  destruct (key_ltb (sort_key x) (sort_key y)); [done|].
  rewrite IH. apply Permutation_swap.
Qed.

Lemma insert_by_key_in_order x l : in_order l -> in_order (insert_by_key x l).
Proof.
  induction l as [|y l IH]; cbn; intros Hl.
  - split; [|done]. intros y Hy. by apply elem_of_nil in Hy.
  - destruct Hl as [Hy Hl].
    destruct (key_ltb (sort_key x) (sort_key y)) eqn:E.
    + split; [|by split]. intros z Hz. apply elem_of_cons in Hz as [->|Hz].
      * by apply key_ltb_le.
      * eapply key_le_trans; [by apply key_ltb_le|]. by apply Hy.
    + split; [|by apply IH]. intros z Hz.
      rewrite insert_by_key_perm in Hz. apply elem_of_cons in Hz as [->|Hz].
      * exact E.
      * by apply Hy.
Qed.

Lemma sort_fold_perm l : forall acc,
  fold_left (fun acc x => insert_by_key x acc) l acc ≡ₚ acc ++ l.
Proof.
  induction l as [|x l IH]; intros acc; cbn.
  - by rewrite app_nil_r.
  - rewrite IH, insert_by_key_perm. cbn [app]. apply Permutation_middle.
Qed.

Lemma sort_fold_in_order l : forall acc,
  in_order acc -> in_order (fold_left (fun acc x => insert_by_key x acc) l acc).
Proof.
  induction l as [|x l IH]; intros acc Hacc; cbn; [done|].
  apply IH. by apply insert_by_key_in_order.
Qed.

Lemma _sort_schedule_perm l : _sort_schedule l ≡ₚ l.
Proof. unfold _sort_schedule. by rewrite sort_fold_perm. Qed.

Lemma _sort_schedule_in_order l : in_order (_sort_schedule l).
Proof. apply sort_fold_in_order. exact I. Qed.

Lemma in_order_app_del before x after :
  in_order (before ++ x :: after) -> in_order (before ++ after).
Proof.
  induction before as [|y before IH]; cbn.
  - by intros [_ H].
  - intros [Hy H]. split; [|by apply IH].
    intros z Hz. apply Hy. apply elem_of_app in Hz as [Hz|Hz].
    + apply elem_of_app. by left.
    + apply elem_of_app. right. apply elem_of_cons. by right.
Qed.

Lemma schedule_batch_cases float_sum now c size prio dl self :
  match snd (schedule_batch float_sum now c size prio dl self) with
  | inl _ => current_schedule (fst (schedule_batch float_sum now c size prio dl self))
             = current_schedule self
  | inr entry =>
      current_schedule (fst (schedule_batch float_sum now c size prio dl self))
      = _sort_schedule (current_schedule self ++ [entry])
      /\ schedule_id entry = (int_of now, length (current_schedule self))
      /\ entry_component_id entry = c
      /\ entry_batch_size entry = size
      /\ entry_priority entry = prio
      /\ deadline entry = dl
      /\ entry_status entry = scheduled
  end.
Proof.
  unfold schedule_batch.
  destruct (predict_resource_usage float_sum size self) as [e|resources]; [done|].
  destruct (predict_execution_time float_sum size self) as [e|time]; [done|].
  destruct (negb (Qgeb _ _)); [destruct (allocate_credits _ _ _ _) as [cm' []]|]; done.
Qed.

(** A batch that [schedule_batch] accepts joins the schedule, which
    holds the entries it held and the new one and is in order: of two
    entries the one with the higher priority comes first, and at equal
    priority the one with the earlier deadline, an entry without
    deadline last. [get_next_batch] then returns an entry that no entry
    of the schedule precedes in this order, and leaves it scheduled. *)
Theorem schedule_batch_orders :
  forall float_sum now c size prio dl self self' entry,
    schedule_batch float_sum now c size prio dl self = (self', inr entry) ->
    current_schedule self' ≡ₚ entry :: current_schedule self
    /\ in_order (current_schedule self')
    /\ exists next,
         snd (get_next_batch self') = Some next
         /\ entry_status next = executing
         /\ length (current_schedule (fst (get_next_batch self')))
            = S (length (current_schedule self))
         /\ forall e, e ∈ current_schedule self' ->
              entry_priority e <= entry_priority next
              /\ (entry_priority e = entry_priority next ->
                  no_later (deadline next) (deadline e)).
Proof.
  intros float_sum now c size prio dl self self' entry Hrun.
  pose proof (schedule_batch_cases float_sum now c size prio dl self) as H.
  rewrite Hrun in H. cbn [fst snd] in H. destruct H as (Hs & _).
  assert (Hperm : current_schedule self' ≡ₚ entry :: current_schedule self).
  { rewrite Hs, _sort_schedule_perm. by rewrite <- Permutation_cons_append. }
  assert (Hord : in_order (current_schedule self'))
    by (rewrite Hs; apply _sort_schedule_in_order).
  split; [done|]. split; [done|].
  unfold get_next_batch.
  destruct (current_schedule self') as [|x rest] eqn:E.
  { apply Permutation_nil_cons in Hperm. done. }
  exists (with_entry_status executing x). cbn [fst snd current_schedule].
  split; [done|]. split; [done|]. split.
  { apply Permutation_length in Hperm. cbn in *. lia. }
  intros e He. destruct Hord as [Hx _].
  change (entry_priority (with_entry_status executing x)) with (entry_priority x).
  change (deadline (with_entry_status executing x)) with (deadline x).
  apply elem_of_cons in He as [->|He].
  - split; [lia|]. intros _. unfold no_later.
    destruct (deadline x) as [d|]; cbn; [|done]. apply Qltb_false. apply Qle_refl.
  - by apply key_le_iff, Hx.
Qed.

Lemma schedule_batch_orders_witness :
  exists next,
    snd (get_next_batch three_batches) = Some next
    /\ entry_component_id next = "d"
    /\ forall e, e ∈ current_schedule three_batches ->
         entry_priority e <= entry_priority next.
Proof.
  edestruct (schedule_batch_orders left_to_right 100 "d" 4 2 None
               (fst (schedule_batch left_to_right 100 "c" 4 1 (Some 300%Q)
                       (fst (schedule_batch left_to_right 100 "c" 4 1 (Some 500%Q) idle_scheduler))))
               three_batches)
    as (_ & _ & next & Hnext & _ & _ & Hmax).
  - vm_compute. reflexivity.
  - exists next. split; [exact Hnext|]. split.
    + vm_compute in Hnext. injection Hnext as <-. reflexivity.
    + intros e He. exact (proj1 (Hmax e He)).
Defined.

(** *** The workload history *)

Lemma trim_history_snoc h e :
  trim_history (h ++ [e]) `suffix_of` h ++ [e]
  /\ last (trim_history (h ++ [e])) = Some e
  /\ length (trim_history (h ++ [e])) = Nat.min (S (length h)) 1000.
Proof.
  unfold trim_history. rewrite length_app. cbn [length].
  destruct (Nat.ltb_spec 1000 (length h + 1)) as [Hlt|Hge].
  - split; [apply suffix_drop|]. split.
    + rewrite drop_app_le by lia. apply last_snoc.
    + rewrite length_drop, length_app. cbn [length]. lia.
  - split; [done|]. split; [apply last_snoc|]. rewrite length_app. cbn [length]. lia.
Qed.

(** [record_workload] keeps the history at no more than 1000 records:
    the history afterwards is the old one with the new record at its
    end, cut at the front to the last 1000 when it is longer. The
    schedule and the ledger are not touched. *)
Theorem record_workload_bounded :
  forall now size time usage self,
    let s' := record_workload now size time usage self in
    workload_history s'
      `suffix_of` workload_history self ++ [workload now size time usage]
    /\ last (workload_history s') = Some (workload now size time usage)
    /\ length (workload_history s')
       = Nat.min (S (length (workload_history self))) 1000
    /\ current_schedule s' = current_schedule self
    /\ scheduler_credit_manager s' = scheduler_credit_manager self.
Proof.
  intros now size time usage self s'. subst s'.
  unfold record_workload. cbn [workload_history current_schedule scheduler_credit_manager].
  destruct (trim_history_snoc (workload_history self) (workload now size time usage))
    as (H1 & H2 & H3).
  done.
Qed.

(** *** Completing a batch *)

Lemma find_entry_spec id l :
  match find_entry id l with
  | None => forall e, e ∈ l -> schedule_id e <> id
  | Some (before, entry, after) =>
      l = before ++ entry :: after
      /\ schedule_id entry = id
      /\ (forall e, e ∈ before -> schedule_id e <> id)
  end.
Proof.
  induction l as [|x l IH]; cbn.
  - intros e He. by apply elem_of_nil in He.
  - destruct (decide (schedule_id x = id)) as [Hx|Hx].
    + split; [done|]. split; [done|]. intros e He. by apply elem_of_nil in He.
    + destruct (find_entry id l) as [[[before entry] after]|].
      * destruct IH as (-> & Hid & Hb). split; [done|]. split; [done|].
        intros e He. apply elem_of_cons in He as [->|He]; [done | by apply Hb].
      * intros e He. apply elem_of_cons in He as [->|He]; [done | by apply IH].
Qed.

(** [complete_batch] raises exactly when no entry of the schedule has
    the id. Otherwise it removes the first entry with the id and nothing
    else, so that an ordered schedule stays ordered, and appends to the
    history a record with that entry's batch size. The credits reported
    as used are taken from the allocation of the entry's component when
    the allocation covers them, the difference rounded to binary64; when
    it does not, the ledger is left as it was and the batch is completed
    all the same. The balance is never
    changed, and [success] is not read. *)
Theorem complete_batch_removes_first :
  forall now id time usage success self,
    complete_batch now id time usage (negb success) self
    = complete_batch now id time usage success self
    /\ match complete_batch now id time usage success self with
       | None => forall e, e ∈ current_schedule self -> schedule_id e <> id
       | Some s' =>
           exists before entry after,
             current_schedule self = before ++ entry :: after
             /\ schedule_id entry = id
             /\ (forall e, e ∈ before -> schedule_id e <> id)
             /\ current_schedule s' = before ++ after
             /\ last (workload_history s')
                = Some (workload now (entry_batch_size entry) time usage)
             /\ (in_order (current_schedule self) -> in_order (current_schedule s'))
             /\ let cm := scheduler_credit_manager self in
                let cm' := scheduler_credit_manager s' in
                let credits := default 0%Q (usage !! "credits") in
                let c := entry_component_id entry in
                balance cm' = balance cm
                /\ ((credits <= get_allocation cm c)%Q ->
                      get_allocation cm' c = fl (get_allocation cm c - credits)
                      /\ (representable (get_allocation cm c - credits) ->
                            (get_allocation cm' c == get_allocation cm c - credits)%Q))
                /\ ((get_allocation cm c < credits)%Q -> cm' = cm)
       end.
Proof.
  intros now id time usage success self. split; [done|].
  unfold complete_batch.
  pose proof (find_entry_spec id (current_schedule self)) as Hfind.
  destruct (find_entry id (current_schedule self)) as [[[before entry] after]|];
    [|done].
  destruct Hfind as (Hs & Hid & Hb). exists before, entry, after.
  cbn [current_schedule workload_history scheduler_credit_manager record_workload].
  split; [done|]. split; [done|]. split; [done|]. split; [done|].
  split; [apply trim_history_snoc|].
  split; [rewrite Hs; apply in_order_app_del|].
  cbv zeta. split; [apply use_credits_balance|]. split.
  - intros Hle. rewrite use_granted by done. cbn [fst].
    rewrite get_allocation_insert, decide_True by done. split; [done|]. by intros H.
  - intros Hlt. by rewrite use_refused.
Qed.

Lemma three_batches_in_order : in_order (current_schedule three_batches).
Proof.
  change (in_order (_sort_schedule (current_schedule three_batches))).
  apply _sort_schedule_in_order.
Qed.

Lemma three_batches_has_second :
  exists e, e ∈ current_schedule three_batches /\ schedule_id e = (100, 1%nat).
Proof.
  assert (H : existsb (fun e => bool_decide (schedule_id e = (100, 1%nat)))
                (current_schedule three_batches) = true)
    by (vm_compute; reflexivity).
  apply existsb_exists in H as (e & Hin & He).
  exists e. split; [by apply list_elem_of_In | by apply bool_decide_eq_true in He].
Qed.

Lemma complete_batch_removes_first_witness :
  exists s',
    complete_batch 200 (100, 1%nat) 3 ∅ true three_batches = Some s'
    /\ in_order (current_schedule s').
Proof.
  assert (H : forall s, s = three_batches ->
            exists s', complete_batch 200 (100, 1%nat) 3 ∅ true s = Some s'
                       /\ in_order (current_schedule s')).
  { intros s Hs.
    pose proof (proj2 (complete_batch_removes_first 200 (100, 1%nat) 3 ∅ true s))
      as H.
    destruct (complete_batch 200 (100, 1%nat) 3 ∅ true s) as [s'|].
    - destruct H as (before & entry & after & _ & _ & _ & _ & _ & Hord & _).
      exists s'. split; [done|]. apply Hord. rewrite Hs.
      exact three_batches_in_order.
    - exfalso. destruct three_batches_has_second as (e & Hin & He).
      rewrite <- Hs in Hin. exact (H e Hin He). }
  exact (H three_batches eq_refl).
Defined.

(** *** A history of empty batches *)

Lemma min_by_elem {A} (key : A -> Z) rest : forall best,
  min_by key best rest ∈ best :: rest.
Proof.
  induction rest as [|x rest IH]; intros best; cbn.
  - apply list_elem_of_here.
  - specialize (IH (if key x <? key best then x else best)).
    apply elem_of_cons in IH as [->|IH].
    + destruct (key x <? key best).
      * apply elem_of_cons. right. apply list_elem_of_here.
      * apply list_elem_of_here.
    + apply elem_of_cons. right. apply elem_of_cons. by right.
Qed.

Lemma closest_entry_elem size h e : closest_entry size h = Some e -> e ∈ h.
Proof.
  destruct h as [|x h]; cbn; [done|]. intros [= <-]. apply min_by_elem.
Qed.

(** A positive factor times a batch size of at least 1 rounds to a
    positive float, and of at most -1 to a negative one. *)
Lemma float_of_pos size : 0 < size -> (1 <= float_of size)%Q.
Proof.
  intros Hsize.
  assert (E : fl (inject_Z 1) = 1%Q) by (vm_compute; reflexivity).
  rewrite <- E. apply fl_mono. rewrite <- Zle_Qle. lia.
Qed.

Lemma float_of_neg size : size < 0 -> (float_of size <= - (1))%Q.
Proof.
  intros Hsize.
  assert (E : fl (inject_Z (-1)) = (- (1))%Q) by (vm_compute; reflexivity).
  rewrite <- E. apply fl_mono. rewrite <- Zle_Qle. lia.
Qed.

Lemma scaled_size_pos factor size :
  (0 < fl factor)%Q -> 0 < size -> (0 < fl (fl factor * float_of size))%Q.
Proof.
  intros Hf Hsize. pose proof (float_of_pos size Hsize) as H1.
  apply Qlt_le_trans with (fl (fl factor)).
  - pose proof (fl_idem factor) as Hi. unfold representable in Hi. by rewrite Hi.
  - apply fl_mono. set (a := fl factor) in *. set (f := float_of size) in *. nra.
Qed.

Lemma scaled_size_neg factor size :
  (0 < fl factor)%Q -> size < 0 -> (fl (fl factor * float_of size) < 0)%Q.
Proof.
  intros Hf Hsize. pose proof (float_of_neg size Hsize) as H1.
  apply Qle_lt_trans with (fl (- fl factor)).
  - apply fl_mono. set (a := fl factor) in *. set (f := float_of size) in *. nra.
  - rewrite fl_opp. pose proof (fl_idem factor) as Hi. unfold representable in Hi.
    rewrite Hi. lra.
Qed.

Lemma lower_factor_pos : (0 < fl (4 # 5))%Q.
Proof. vm_compute. reflexivity. Qed.

Lemma upper_factor_pos : (0 < fl (6 # 5))%Q.
Proof. vm_compute. reflexivity. Qed.

Lemma similar_zero size entry :
  size <> 0 -> batch_size entry = 0 -> similar size entry = false.
Proof.
  intros Hsize Hz. unfold similar. rewrite Hz.
  apply andb_false_iff.
  destruct (Z.lt_total size 0) as [Hneg|[?|Hpos]]; [|done|].
  - right. apply not_true_iff_false. rewrite Qle_bool_iff.
    pose proof (scaled_size_neg (6 # 5) size upper_factor_pos Hneg) as H.
    change (inject_Z 0) with 0%Q. lra.
  - left. apply not_true_iff_false. rewrite Qle_bool_iff.
    pose proof (scaled_size_pos (4 # 5) size lower_factor_pos Hpos) as H.
    change (inject_Z 0) with 0%Q. lra.
Qed.

(** When every record of a non-empty history has batch size 0, as
    after completing batches of no task, the two predictions divide by
    that size for every other batch size and raise [ZeroDivisionError];
    [schedule_batch] passes the error on and schedules nothing. *)
Theorem zero_size_history_breaks_scheduling :
  forall float_sum self size,
    size <> 0 ->
    workload_history self <> [] ->
    (forall e, e ∈ workload_history self -> batch_size e = 0) ->
    predict_execution_time float_sum size self = inl ZeroDivision
    /\ predict_resource_usage float_sum size self = inl ZeroDivision
    /\ forall now c prio dl,
         schedule_batch float_sum now c size prio dl self = (self, inl ZeroDivision).
Proof.
  intros float_sum self size Hsize Hne Hzero.
  assert (Hsim : similar_batches size self = []).
  { apply elem_of_nil_inv. intros e He. apply list_elem_of_filter in He as [He Hin].
    rewrite (similar_zero size e Hsize (Hzero e Hin)) in He. done. }
  assert (Hres : predict_resource_usage float_sum size self = inl ZeroDivision).
  { unfold predict_resource_usage. rewrite Hsim.
    destruct (workload_history self) as [|x h] eqn:E; [done|].
    destruct (closest_entry size (x :: h)) as [closest|] eqn:Ec; [|done].
    apply closest_entry_elem in Ec. by rewrite decide_True by (by apply Hzero). }
  assert (Htime : predict_execution_time float_sum size self = inl ZeroDivision).
  { unfold predict_execution_time. rewrite Hsim.
    destruct (workload_history self) as [|x h] eqn:E; [done|].
    destruct (closest_entry size (x :: h)) as [closest|] eqn:Ec; [|done].
    apply closest_entry_elem in Ec. by rewrite decide_True by (by apply Hzero). }
  split; [done|]. split; [done|].
  intros now c prio dl. unfold schedule_batch. by rewrite Hres.
Qed.

Lemma zero_size_history_breaks_scheduling_witness :
  workload_history after_empty_batch = [workload 101 0 (1 # 2) ∅]
  /\ schedule_batch left_to_right 102 "c" 5 1 None after_empty_batch
     = (after_empty_batch, inl "division by zero").
Proof.
  assert (Hh : workload_history after_empty_batch = [workload 101 0 (1 # 2) ∅])
    by (by vm_compute).
  split; [exact Hh|].
  apply (zero_size_history_breaks_scheduling left_to_right after_empty_batch 5).
  - lia.
  - by rewrite Hh.
  - intros e He. rewrite Hh in He. apply list_elem_of_singleton in He as ->.
    reflexivity.
Defined.

End BatchSchedule.

(** ** The sleep-time scheduler, its monitor and the idle detector *)

Module SleepFacts.
Import SleepOptimizer Scenarios.Sleep Cases.Sleep Float64 CreditLedger
  SleepScheduler.

(** *** The idle detector *)

Lemma check_all_snoc readings r d :
  check_all (readings ++ [r]) d
  = fst (check_idle_state (fst r) (snd r) (check_all readings d)).
Proof. unfold check_all. by rewrite fold_left_app. Qed.

Lemma idle_stretch_snoc readings r :
  idle_stretch (readings ++ [r])
  = if fst r then idle_stretch readings ++ [snd r] else [].
Proof. unfold idle_stretch. by rewrite fold_left_app. Qed.

(** After any readings, [idle_start_time] is the time of the first idle
    reading since the last reading that was not idle, and the detector
    reports idle exactly when a later reading of that stretch came at
    least [min_idle_time] after that first one, the difference of the
    two times taken in binary64. So the first idle
    reading of a stretch never reports idle, whatever [min_idle_time]
    is, and one reading that is not idle resets the detector. *)
Theorem check_idle_state_needs_a_stretch :
  forall threshold min_time readings,
    let d := check_all readings (new_detector threshold min_time) in
    idle_start_time d = head (idle_stretch readings)
    /\ min_idle_time d = min_time
    /\ (is_idle d = true <->
        exists start t,
          head (idle_stretch readings) = Some start
          /\ t ∈ tail (idle_stretch readings)
          /\ (min_time <= fl (t - start))%Q).
Proof.
  intros threshold min_time readings. cbv zeta.
  induction readings as [|[b t] readings IH] using rev_ind.
  - cbn. split; [done|]. split; [done|]. split; [done|].
    by intros (start & t & [=] & _).
  - rewrite check_all_snoc, idle_stretch_snoc. cbn [fst snd].
    set (d := check_all readings (new_detector threshold min_time)) in *.
    destruct IH as (Hstart & Hmin & Hidle). clearbody d.
    unfold check_idle_state. cbn [fst]. destruct b.
    + destruct (is_idle d) eqn:Ei; cbn [negb].
      * destruct (proj1 Hidle eq_refl) as (start & t0 & Hh & Ht0 & Hle).
        destruct (idle_stretch readings) as [|s l]; [done|].
        cbn in Hh, Ht0 |- *. injection Hh as ->.
        split; [by rewrite Hstart|]. split; [done|]. rewrite Ei.
        split; [|done]. intros _. exists start, t0. split; [done|].
        split; [|done]. apply elem_of_app. by left.
      * destruct (idle_start_time d) as [s|] eqn:Es.
        -- destruct (idle_stretch readings) as [|s' l]; [done|].
           cbn in Hstart. injection Hstart as ->. cbn [app head tail].
           destruct (Qgeb (fl (t - s')) (min_idle_time d)) eqn:Eg;
             cbn [idle_start_time min_idle_time is_idle].
           ++ split; [done|]. split; [done|]. split; [|done]. intros _.
              exists s', t. split; [done|]. split.
              ** apply elem_of_app. right. apply list_elem_of_here.
              ** unfold Qgeb in Eg. apply Qle_bool_iff in Eg. by rewrite <- Hmin.
           ++ rewrite Es, Ei. split; [done|]. split; [done|].
              split; [done|]. intros (start & t' & [= <-] & Ht' & Hle).
              apply elem_of_app in Ht' as [Ht'|Ht'].
              ** assert (false = true); [|done]. apply Hidle.
                 exists s', t'. by cbn.
              ** apply list_elem_of_singleton in Ht' as ->.
                 assert (Qgeb (fl (t - s')) (min_idle_time d) = true); [|congruence].
                 unfold Qgeb. apply Qle_bool_iff. by rewrite Hmin.
        -- destruct (idle_stretch readings) as [|s' l]; [|done].
           cbn [app head tail idle_start_time min_idle_time is_idle].
           split; [done|]. split; [done|]. split; [done|].
           intros (start & t' & _ & Ht' & _). by apply elem_of_nil in Ht'.
    + cbn [idle_start_time min_idle_time is_idle head].
      split; [done|]. split; [done|]. split; [done|].
      by intros (start & t' & [=] & _).
Qed.

Lemma check_idle_state_needs_a_stretch_witness :
  is_idle (check_all [(true, 0%Q); (false, 20%Q); (true, 21%Q); (true, 40%Q)]
             (new_detector (3 # 10) 10)) = true.
Proof.
  apply (check_idle_state_needs_a_stretch (3 # 10) 10
           [(true, 0%Q); (false, 20%Q); (true, 21%Q); (true, 40%Q)]).
  exists 21%Q, 40%Q. split; [reflexivity|]. split.
  - apply list_elem_of_here.
  - by vm_compute.
Defined.

(** *** What a task may ask of the monitor *)

Lemma available_limit m resource :
  available m resource
  = (fun l => headroom l (usage_of m resource)) <$> limit_of m resource.
Proof.
  unfold available, limit_of, usage_of.
  destruct (decide (resource = "cpu")); [done|].
  destruct (decide (resource = "memory")); [done|].
  by destruct (decide (resource = "credits")).
Qed.

Lemma fits_headroom required limit usage :
  match headroom (Some limit) usage with
  | Some a => negb (Qltb a required)
  | None => true
  end = true
  <-> (required <= 0 \/ required <= fl (limit - usage))%Q.
Proof.
  cbn. rewrite negb_true_iff, Qltb_false.
  destruct (Qgtb (fl (limit - usage)) 0) eqn:E.
  - apply Qgtb_true in E. split; [by right | intros [H|H]; lra].
  - apply Qgtb_false in E. split; [by left | intros [H|H]; lra].
Qed.

Lemma can_execute_task_iff m task :
  can_execute_task m task = true
  <-> forall resource required limit,
        estimated_resources task !! resource = Some required ->
        limit_of m resource = Some (Some limit) ->
        (required <= 0 \/ required <= fl (limit - usage_of m resource))%Q.
Proof.
  unfold can_execute_task. rewrite forallb_forall. split.
  - intros H resource required limit Hreq Hlim.
    specialize (H (resource, required)). cbn [fst snd] in H.
    rewrite available_limit, Hlim in H. cbn [fmap option_fmap option_map] in H.
    apply fits_headroom, H. apply list_elem_of_In. by apply elem_of_map_to_list.
  - intros H [resource required] Hin. cbn [fst snd].
    apply list_elem_of_In, elem_of_map_to_list in Hin.
    rewrite available_limit.
    destruct (limit_of m resource) as [[limit|]|] eqn:Hlim; [|done..].
    cbn [fmap option_fmap option_map]. apply fits_headroom. by eapply H.
Qed.

Lemma busier_usage m m' resource limit :
  busier m m' -> limit_of m resource = Some limit ->
  limit_of m' resource = Some limit
  /\ (usage_of m resource <= usage_of m' resource)%Q.
Proof.
  intros (Hl & Hc & Hm & Hk). unfold limit_of, usage_of. rewrite Hl.
  destruct (decide (resource = "cpu")); [done|].
  destruct (decide (resource = "memory")); [done|].
  by destruct (decide (resource = "credits")).
Qed.

(** [can_execute_task] accepts a task exactly when each amount it asks
    of a tracked resource with a finite limit is at most what is free,
    the binary64 difference limit - usage, or does not exceed 0. An amount asked of a resource
    the monitor does not track, or of one without limit, never blocks
    the task. A task accepted under some usage is accepted under any
    lower usage at the same limits. *)
Theorem can_execute_task_spec :
  forall m task,
    (can_execute_task m task = true
     <-> forall resource required limit,
           estimated_resources task !! resource = Some required ->
           limit_of m resource = Some (Some limit) ->
           (required <= 0 \/ required <= fl (limit - usage_of m resource))%Q)
    /\ (forall m', busier m m' ->
          can_execute_task m' task = true -> can_execute_task m task = true).
Proof.
  intros m task. split; [apply can_execute_task_iff|].
  intros m' Hb. rewrite !can_execute_task_iff.
  intros H resource required limit Hreq Hlim.
  destruct (busier_usage m m' resource (Some limit) Hb Hlim) as [Hlim' Hle].
  destruct (H resource required limit Hreq Hlim') as [H0|H1]; [by left|right].
  apply Qle_trans with (fl (limit - usage_of m' resource)); [done|].
  apply fl_mono. lra.
Qed.

Lemma can_execute_task_spec_witness :
  can_execute_task new_monitor
    (new_task "t" "" "" LOW 1 {["gpu" := 8%Q; "credits" := 1000000%Q]} []) = true.
Proof.
  apply (proj1 (can_execute_task_spec new_monitor _)).
  intros resource required limit Hreq Hlim.
  unfold limit_of in Hlim. cbn in Hlim.
  destruct (decide (resource = "cpu")) as [->|]; [by vm_compute in Hreq|].
  destruct (decide (resource = "memory")) as [->|]; [by vm_compute in Hreq|].
  destruct (decide (resource = "credits")); done.
Defined.

(** *** The order of the queue *)

Lemma string_ltb_asym a b : String.ltb a b = true -> String.ltb b a = false.
Proof.
  unfold String.ltb. rewrite (String.compare_antisym b a).
  by destruct (String.compare a b).
Qed.

Lemma string_le_trans a b c :
  String.ltb b a = false -> String.ltb c b = false -> String.ltb c a = false.
Proof.
  unfold String.ltb. intros Hba Hcb.
  destruct (String.compare c a) eqn:Hca; try done. exfalso.
  assert (Hlt : String_as_OT.lt c a) by (by apply String_as_OT.cmp_lt).
  destruct (String.compare b a) eqn:E; [| done |].
  - apply String.compare_eq_iff in E. subst b. by rewrite Hca in Hcb.
  - assert (Hab : String_as_OT.lt a b).
    { apply String_as_OT.cmp_lt. change (String.compare a b = Lt).
      by rewrite String.compare_antisym, E. }
    pose proof (String_as_OT.lt_trans _ _ _ Hlt Hab) as Hcb'.
    apply String_as_OT.cmp_lt in Hcb'. change (String.compare c b = Lt) in Hcb'.
    by rewrite Hcb' in Hcb.
Qed.

Lemma pair_ltb_le a b : pair_ltb a b = true -> pair_le a b.
Proof.
  unfold pair_le, pair_ltb. destruct a as [x s], b as [y t]. cbn [fst snd].
  intros H. apply orb_true_iff in H as [H|H].
  - apply Z.ltb_lt in H. apply orb_false_iff. split; [by apply Z.ltb_ge; lia|].
    apply andb_false_iff. left. apply Z.eqb_neq. lia.
  - apply andb_true_iff in H as [H1 H2]. apply Z.eqb_eq in H1 as ->.
    rewrite Z.ltb_irrefl, Z.eqb_refl. cbn. by apply string_ltb_asym.
Qed.

Lemma pair_le_trans a b c : pair_le a b -> pair_le b c -> pair_le a c.
Proof.
  unfold pair_le, pair_ltb. destruct a as [x s], b as [y t], c as [z u].
  cbn [fst snd]. intros H1 H2.
  apply orb_false_iff in H1 as [H1 H1']. apply orb_false_iff in H2 as [H2 H2'].
  apply Z.ltb_ge in H1, H2. apply orb_false_iff. split; [apply Z.ltb_ge; lia|].
  destruct (Z.eqb_spec z x) as [->|Hne]; [|done]. cbn.
  assert (y = x) as -> by lia. rewrite Z.eqb_refl in H1', H2'. cbn in H1', H2'.
  by eapply string_le_trans.
Qed.

Lemma heappush_elem q x p : p ∈ heappush q x <-> p = x \/ p ∈ q.
Proof.
  induction q as [|y q IH]; cbn.
  - rewrite list_elem_of_singleton. split; [by left | intros [H|H]; [done|]].
    by apply elem_of_nil in H.
  - destruct (pair_ltb y x).
    + rewrite !elem_of_cons, IH. tauto.
    + rewrite !elem_of_cons. tauto.
Qed.

Lemma heappush_sorted q x : sorted_queue q -> sorted_queue (heappush q x).
Proof.
  induction q as [|y q IH]; cbn.
  - intros _. split; [|done]. intros z Hz. by apply elem_of_nil in Hz.
  - intros [Hy Hq]. destruct (pair_ltb y x) eqn:E; cbn.
    + split; [|by apply IH]. intros z Hz. apply heappush_elem in Hz as [->|Hz].
      * by apply pair_ltb_le.
      * by apply Hy.
    + split; [|by split]. intros z Hz. apply elem_of_cons in Hz as [->|Hz].
      * exact E.
      * eapply pair_le_trans; [exact E|]. by apply Hy.
Qed.

Lemma heappop_sorted q : sorted_queue q -> sorted_queue (heappop q).
Proof. destruct q as [|x q]; cbn; [done | by intros [_ H]]. Qed.

Lemma heappop_elem q p : p ∈ heappop q -> p ∈ q.
Proof. destruct q as [|x q]; cbn; [done|]. intros H. apply elem_of_cons. by right. Qed.

Lemma sorted_queue_app_r q1 q2 : sorted_queue (q1 ++ q2) -> sorted_queue q2.
Proof. induction q1 as [|x q1 IH]; cbn; [done|]. intros [_ H]. by apply IH. Qed.

(** *** What the methods keep *)

Lemma well_formed_new m : well_formed (new_scheduler m).
Proof.
  split; cbn; try done; intros x Hx;
    first [by apply elem_of_nil in Hx | by apply elem_of_empty in Hx].
Qed.

Lemma well_formed_queue q self :
  well_formed self ->
  (forall p, p ∈ q -> exists sc, (sc, snd p) ∈ task_queue self) ->
  sorted_queue q ->
  well_formed (with_queue q self).
Proof.
  intros [] Hq Hs. split; cbn; try done.
  intros p Hp. destruct (Hq p Hp) as [sc Hsc]. by apply (queue_known0 (sc, snd p)).
Qed.

Lemma well_formed_monitor m self :
  well_formed self ->
  well_formed {| resource_monitor := m; task_queue := task_queue self;
                 tasks := tasks self; scheduled_tasks := scheduled_tasks self;
                 completed_tasks := completed_tasks self;
                 failed_tasks := failed_tasks self |}.
Proof. intros []. by split. Qed.

Lemma is_Some_insert {A} (m : gmap string A) i j x :
  is_Some (m !! j) -> is_Some (<[i := x]> m !! j).
Proof.
  intros H. destruct (decide (i = j)) as [->|Hne].
  - rewrite lookup_insert_eq. by eexists.
  - by rewrite lookup_insert_ne.
Qed.

Lemma well_formed_add_task task self self' id :
  well_formed self -> add_task task self = Some (self', id) -> well_formed self'.
Proof.
  intros [] Hadd. unfold add_task in Hadd.
  destruct (tasks self !! task_id task) eqn:E; [done|].
  injection Hadd as <- <-. split; cbn.
  - intros p Hp. apply heappush_elem in Hp as [->|Hp]; cbn.
    + rewrite lookup_insert_eq. by eexists.
    + by apply is_Some_insert, queue_known0.
  - by apply heappush_sorted.
  - intros i t. destruct (decide (task_id task = i)) as [<-|Hne].
    + rewrite lookup_insert_eq. by intros [= <-].
    + rewrite lookup_insert_ne by done. apply key_is_id0.
  - intros i Hi. by apply is_Some_insert, scheduled_known0.
  - intros i Hi. by apply is_Some_insert, completed_known0.
  - intros i Hi. by apply is_Some_insert, failed_known0.
  - done.
Qed.

Lemma well_formed_mark_task_completed now id res self :
  well_formed self -> well_formed (fst (mark_task_completed now id res self)).
Proof.
  intros []. unfold mark_task_completed, get_task.
  destruct (tasks self !! id) as [t|] eqn:E; [|by split].
  split; cbn.
  - intros p Hp. by apply is_Some_insert, queue_known0.
  - done.
  - intros i t'. destruct (decide (id = i)) as [<-|Hne].
    + rewrite lookup_insert_eq. intros [= <-]. cbn. by apply key_is_id0.
    + rewrite lookup_insert_ne by done. apply key_is_id0.
  - intros i Hi. apply is_Some_insert, scheduled_known0. set_solver.
  - intros i Hi. apply elem_of_union in Hi as [Hi|Hi].
    + apply elem_of_singleton in Hi as ->. rewrite lookup_insert_eq. by eexists.
    + by apply is_Some_insert, completed_known0.
  - intros i Hi. by apply is_Some_insert, failed_known0.
  - intros i Hi. apply elem_of_difference in Hi as [Hi Hne].
    apply not_elem_of_union. split; [done|]. by apply scheduled_not_completed0.
Qed.

Lemma well_formed_mark_task_failed now id err self :
  well_formed self -> well_formed (fst (mark_task_failed now id err self)).
Proof.
  intros []. unfold mark_task_failed, get_task.
  destruct (tasks self !! id) as [t|] eqn:E; [|by split].
  destruct (requeue_after err); split; cbn.
  - intros p Hp. apply heappush_elem in Hp as [->|Hp]; cbn.
    + rewrite lookup_insert_eq. by eexists.
    + by apply is_Some_insert, queue_known0.
  - by apply heappush_sorted.
  - intros i t'. destruct (decide (id = i)) as [<-|Hne].
    + rewrite lookup_insert_eq. intros [= <-]. cbn. by apply key_is_id0.
    + rewrite lookup_insert_ne by done. apply key_is_id0.
  - intros i Hi. apply is_Some_insert, scheduled_known0. set_solver.
  - intros i Hi. by apply is_Some_insert, completed_known0.
  - intros i Hi. apply elem_of_union in Hi as [Hi|Hi].
    + apply elem_of_singleton in Hi as ->. rewrite lookup_insert_eq. by eexists.
    + by apply is_Some_insert, failed_known0.
  - intros i Hi. apply elem_of_difference in Hi as [Hi Hne].
    by apply scheduled_not_completed0.
  - intros p Hp. by apply is_Some_insert, queue_known0.
  - done.
  - intros i t'. destruct (decide (id = i)) as [<-|Hne].
    + rewrite lookup_insert_eq. intros [= <-]. cbn. by apply key_is_id0.
    + rewrite lookup_insert_ne by done. apply key_is_id0.
  - intros i Hi. apply is_Some_insert, scheduled_known0. set_solver.
  - intros i Hi. by apply is_Some_insert, completed_known0.
  - intros i Hi. apply elem_of_union in Hi as [Hi|Hi].
    + apply elem_of_singleton in Hi as ->. rewrite lookup_insert_eq. by eexists.
    + by apply is_Some_insert, failed_known0.
  - intros i Hi. apply elem_of_difference in Hi as [Hi Hne].
    by apply scheduled_not_completed0.
Qed.

(** One turn of the loop of [get_next_task]. *)
Lemma get_next_task_fuel_step fuel now self :
  get_next_task_fuel (S fuel) now self =
    match task_queue self with
    | [] => Some (self, Returned None)
    | (_, id) :: _ =>
        match tasks self !! id with
        | None => Some (self, KeyError id)
        | Some task =>
            if bool_decide (id ∈ scheduled_tasks self \/ id ∈ completed_tasks self)
            then get_next_task_fuel fuel now
                   (with_queue (heappop (task_queue self)) self)
            else if negb (dependencies_met self task)
            then get_next_task_fuel fuel now
                   (with_queue (heappush (heappop (task_queue self))
                                  (- value (priority task), id)) self)
            else if negb (can_execute_task (resource_monitor self) task)
            then Some (self, Returned None)
            else
              let task' := mark_scheduled now task in
              Some ({| resource_monitor := resource_monitor self;
                       task_queue := heappop (task_queue self);
                       tasks := <[id := task']> (tasks self);
                       scheduled_tasks := {[id]} ∪ scheduled_tasks self;
                       completed_tasks := completed_tasks self;
                       failed_tasks := failed_tasks self |},
                    Returned (Some task'))
        end
    end.
Proof. reflexivity. Qed.

Lemma well_formed_get_next_task fuel now : forall self self' o,
  well_formed self ->
  get_next_task_fuel fuel now self = Some (self', o) ->
  well_formed self' /\ exists r, o = Returned r.
Proof.
  induction fuel as [|fuel IH]; intros self self' o Hwf Hrun; [done|].
  rewrite get_next_task_fuel_step in Hrun.
  destruct (task_queue self) as [|[sc id] rest] eqn:Eq.
  { injection Hrun as <- <-. split; [done | by eexists]. }
  destruct (tasks self !! id) as [task|] eqn:Et.
  2:{ destruct (queue_known self Hwf (sc, id)) as [t Ht].
      - rewrite Eq. apply list_elem_of_here.
      - cbn in Ht. congruence. }
  case_bool_decide as Hdone.
  { apply IH in Hrun; [done|]. apply well_formed_queue; [done| |].
    - intros p Hp. exists (fst p). rewrite Eq. cbn in Hp.
      apply elem_of_cons. right. by destruct p.
    - cbn. pose proof (queue_sorted self Hwf) as Hs. rewrite Eq in Hs. by destruct Hs. }
  destruct (dependencies_met self task); cbn [negb] in Hrun.
  2:{ apply IH in Hrun; [done|]. apply well_formed_queue; [done| |].
      - intros p Hp. cbn in Hp. apply heappush_elem in Hp as [->|Hp].
        + exists sc. rewrite Eq. apply list_elem_of_here.
        + exists (fst p). rewrite Eq. apply elem_of_cons. right. by destruct p.
      - apply heappush_sorted. cbn.
        pose proof (queue_sorted self Hwf) as Hs. rewrite Eq in Hs. by destruct Hs. }
  destruct (can_execute_task (resource_monitor self) task); cbn [negb] in Hrun.
  2:{ injection Hrun as <- <-. split; [done | by eexists]. }
  injection Hrun as <- <-. split; [|by eexists].
  destruct Hwf. rewrite Eq in *. split; cbn.
  - intros p Hp. apply is_Some_insert, queue_known0. apply elem_of_cons. by right.
  - by destruct queue_sorted0.
  - intros i t'. destruct (decide (id = i)) as [<-|Hne].
    + rewrite lookup_insert_eq. intros [= <-]. cbn. by apply key_is_id0.
    + rewrite lookup_insert_ne by done. apply key_is_id0.
  - intros i Hi. apply elem_of_union in Hi as [Hi|Hi].
    + apply elem_of_singleton in Hi as ->. rewrite lookup_insert_eq. by eexists.
    + by apply is_Some_insert, scheduled_known0.
  - intros i Hi. by apply is_Some_insert, completed_known0.
  - intros i Hi. by apply is_Some_insert, failed_known0.
  - intros i Hi. apply elem_of_union in Hi as [Hi|Hi].
    + apply elem_of_singleton in Hi as ->. intros Hc. apply Hdone. by right.
    + by apply scheduled_not_completed0.
Qed.

Lemma well_formed_step self self' : well_formed self -> step self self' -> well_formed self'.
Proof.
  intros Hwf Hstep. destruct Hstep.
  - by eapply well_formed_add_task.
  - by eapply well_formed_get_next_task.
  - by apply well_formed_mark_task_completed.
  - by apply well_formed_mark_task_failed.
  - by apply well_formed_monitor.
Qed.

Lemma well_formed_rtc self self' :
  well_formed self -> rtc step self self' -> well_formed self'.
Proof.
  intros Hwf Hsteps. induction Hsteps as [|x y z Hxy _ IH]; [done|].
  apply IH. by eapply well_formed_step.
Qed.

Lemma reachable_well_formed self : reachable self -> well_formed self.
Proof. intros [m Hm]. eapply well_formed_rtc; [apply well_formed_new | done]. Qed.

Lemma three_tasks_reachable : reachable three_tasks.
Proof.
  exists new_monitor.
  eapply rtc_l; [eapply (step_add_task (new_task "big" "" "" HIGH 1
                                          {["memory" := 2000%Q]} [])); reflexivity|].
  eapply rtc_l; [eapply (step_add_task (new_task "a" "" "" MEDIUM 1 ∅ []));
                 reflexivity|].
  eapply rtc_l; [eapply (step_add_task (new_task "b" "" "" MEDIUM 1 ∅ []));
                 reflexivity|].
  apply rtc_refl.
Qed.

(** In every state that calls of [add_task], [get_next_task],
    [mark_task_completed] and [mark_task_failed] reach from a new
    scheduler, each id in the queue and in the three sets is the key
    of a task, each task is stored under its own id, and no id is both
    scheduled and completed; so the lookup [self.tasks[task_id]] of
    [get_next_task] never raises [KeyError]. *)
Theorem scheduler_stays_consistent :
  forall self,
    reachable self ->
    (forall fuel now self' o,
       get_next_task_fuel fuel now self = Some (self', o) ->
       exists r, o = Returned r)
    /\ (forall id t, get_task self id = Some t -> task_id t = id)
    /\ (forall p, p ∈ task_queue self -> is_Some (get_task self (snd p)))
    /\ (forall id,
          id ∈ scheduled_tasks self ∪ completed_tasks self ∪ failed_tasks self ->
          is_Some (get_task self id))
    /\ scheduled_tasks self ## completed_tasks self.
Proof.
  intros self Hr. pose proof (reachable_well_formed self Hr) as Hwf.
  split; [intros fuel now self' o Hrun;
          by destruct (well_formed_get_next_task fuel now self self' o Hwf Hrun)|].
  destruct Hwf. split; [done|]. split; [done|]. split.
  - intros id Hid. apply elem_of_union in Hid as [Hid|Hid];
      [apply elem_of_union in Hid as [Hid|Hid]|]; unfold get_task; auto.
  - intros id H1 H2. by apply (scheduled_not_completed0 id).
Qed.

Lemma scheduler_stays_consistent_witness :
  forall fuel now self' o,
    get_next_task_fuel fuel now three_tasks = Some (self', o) ->
    exists r, o = Returned r.
Proof.
  exact (proj1 (scheduler_stays_consistent three_tasks three_tasks_reachable)).
Defined.

(** *** What [get_next_task] hands out *)

Lemma dependencies_met_iff self task :
  dependencies_met self task = true
  <-> forall dep_id, dep_id ∈ dependencies task -> dep_id ∈ completed_tasks self.
Proof.
  unfold dependencies_met. rewrite forallb_forall. split.
  - intros H dep Hdep. apply list_elem_of_In in Hdep.
    specialize (H dep Hdep). by apply bool_decide_eq_true in H.
  - intros H dep Hdep. apply bool_decide_eq_true_2, H. by apply list_elem_of_In.
Qed.

Lemma get_next_task_sound fuel now : forall self self' t,
  get_next_task_fuel fuel now self = Some (self', Returned (Some t)) ->
  exists id task,
    get_task self id = Some task
    /\ (exists sc, (sc, id) ∈ task_queue self)
    /\ t = mark_scheduled now task
    /\ ~ handed_or_done self id
    /\ dependencies_met self task = true
    /\ can_execute_task (resource_monitor self) task = true
    /\ tasks self' = <[id := t]> (tasks self)
    /\ scheduled_tasks self' = {[id]} ∪ scheduled_tasks self
    /\ completed_tasks self' = completed_tasks self.
Proof.
  induction fuel as [|fuel IH]; intros self self' t Hrun; [done|].
  rewrite get_next_task_fuel_step in Hrun.
  destruct (task_queue self) as [|[sc id] rest] eqn:Eq; [done|].
  destruct (tasks self !! id) as [task|] eqn:Et; [|done].
  case_bool_decide as Hdone.
  { apply IH in Hrun as (id' & task' & Hget & [sc' Hq] & Hrest).
    exists id', task'. split; [done|]. split; [|done].
    exists sc'. cbn in Hq. apply elem_of_cons. by right. }
  destruct (dependencies_met self task) eqn:Ed; cbn [negb] in Hrun.
  2:{ apply IH in Hrun as (id' & task' & Hget & [sc' Hq] & Hrest).
      exists id', task'. split; [done|]. split; [|done].
      cbn in Hq. apply heappush_elem in Hq as [[= -> ->]|Hq].
      - exists sc. apply list_elem_of_here.
      - exists sc'. apply elem_of_cons. by right. }
  destruct (can_execute_task (resource_monitor self) task) eqn:Ec;
    cbn [negb] in Hrun; [|done].
  injection Hrun as <- <-. exists id, task. cbn.
  split; [done|]. split; [exists sc; apply list_elem_of_here|]. done.
Qed.

(** Whatever the state, a task that [get_next_task] returns was in
    the queue, was neither scheduled nor completed, has all its
    dependencies completed and passes [can_execute_task]; it is returned
    with status "scheduled", joins [scheduled_tasks], and no other task
    is changed. *)
Theorem get_next_task_hands_out_ready :
  forall fuel now self self' t,
    get_next_task_fuel fuel now self = Some (self', Returned (Some t)) ->
    exists id task,
      get_task self id = Some task
      /\ (exists sc, (sc, id) ∈ task_queue self)
      /\ t = mark_scheduled now task
      /\ status t = scheduled
      /\ (id ∉ scheduled_tasks self)
      /\ (id ∉ completed_tasks self)
      /\ (forall dep_id, dep_id ∈ dependencies task ->
            dep_id ∈ completed_tasks self)
      /\ can_execute_task (resource_monitor self) task = true
      /\ get_task self' id = Some t
      /\ (forall x, x <> id -> get_task self' x = get_task self x)
      /\ scheduled_tasks self' = {[id]} ∪ scheduled_tasks self
      /\ completed_tasks self' = completed_tasks self.
Proof.
  intros fuel now self self' t Hrun.
  destruct (get_next_task_sound fuel now self self' t Hrun)
    as (id & task & Hget & Hq & -> & Hnot & Hdeps & Hcan & Ht & Hs & Hc).
  exists id, task. split; [done|]. split; [done|]. split; [done|]. split; [done|].
  split; [intros H; apply Hnot; by left|].
  split; [intros H; apply Hnot; by right|].
  split; [by apply dependencies_met_iff|]. split; [done|].
  unfold get_task. rewrite Ht. split; [by rewrite lookup_insert_eq|].
  split; [intros x Hx; by rewrite lookup_insert_ne|]. done.
Qed.

Lemma get_next_task_hands_out_ready_witness :
  exists self' t,
    get_next_task_fuel 1 5 queued = Some (self', Returned (Some t))
    /\ status t = scheduled.
Proof.
  remember (get_next_task_fuel 1 5 queued) as r eqn:E.
  destruct r as [[self' [[t|]|k]]|]; try (exfalso; vm_compute in E; discriminate E).
  exists self', t. split; [reflexivity|].
  destruct (get_next_task_hands_out_ready 1 5 queued self' t (eq_sym E))
    as (id & task & _ & _ & _ & Hst & _).
  exact Hst.
Defined.

(** *** The first ready task *)

Lemma get_next_task_skips now skipped : forall self rest fuel,
  task_queue self = skipped ++ rest ->
  (forall p, p ∈ skipped ->
     handed_or_done self (snd p) /\ is_Some (tasks self !! snd p)) ->
  get_next_task_fuel (length skipped + fuel) now self
  = get_next_task_fuel fuel now (with_queue rest self).
Proof.
  induction skipped as [|[sc id] skipped IH]; intros self rest fuel Hq Hs.
  - cbn in *. destruct self. cbn in Hq. by subst.
  - cbn [length Nat.add]. rewrite get_next_task_fuel_step, Hq. cbn [app].
    destruct (Hs (sc, id)) as [Hdone [t Ht]]; [apply list_elem_of_here|].
    cbn in Hdone, Ht. rewrite Ht. rewrite bool_decide_eq_true_2 by done.
    change (heappop ((sc, id) :: skipped ++ rest)) with (skipped ++ rest).
    rewrite (IH (with_queue (skipped ++ rest) self) rest fuel); [done|done|].
    intros p Hp. apply Hs. apply elem_of_cons. by right.
Qed.

(** In a reachable state whose queue holds, after entries that are
    scheduled or completed already, a task that is neither and whose
    dependencies are all completed, [get_next_task] returns within one
    turn of its loop per entry up to that task. If the monitor accepts
    the task it is returned, marked scheduled, and the entries up to it
    leave the queue; no entry left in the queue comes before it in the
    order of the queue, score first and then id. If the monitor does not
    accept it the call returns None and hands out nothing, whatever else
    is in the queue. *)
Theorem get_next_task_first_ready :
  forall now self skipped sc id rest task fuel,
    reachable self ->
    task_queue self = skipped ++ (sc, id) :: rest ->
    (forall p, p ∈ skipped -> handed_or_done self (snd p)) ->
    ~ handed_or_done self id ->
    get_task self id = Some task ->
    (forall dep_id, dep_id ∈ dependencies task -> dep_id ∈ completed_tasks self) ->
    (length skipped < fuel)%nat ->
    exists self' r,
      get_next_task_fuel fuel now self = Some (self', Returned r)
      /\ (forall p, p ∈ rest -> pair_le (sc, id) p)
      /\ completed_tasks self' = completed_tasks self
      /\ if can_execute_task (resource_monitor self) task
         then r = Some (mark_scheduled now task)
              /\ task_queue self' = rest
              /\ get_task self' id = Some (mark_scheduled now task)
              /\ scheduled_tasks self' = {[id]} ∪ scheduled_tasks self
         else r = None
              /\ task_queue self' = (sc, id) :: rest
              /\ tasks self' = tasks self
              /\ scheduled_tasks self' = scheduled_tasks self.
Proof.
  intros now self skipped sc id rest task fuel Hr Hq Hskip Hnot Hget Hdeps Hfuel.
  pose proof (reachable_well_formed self Hr) as Hwf.
  assert (Hmin : forall p, p ∈ rest -> pair_le (sc, id) p).
  { pose proof (queue_sorted self Hwf) as Hs. rewrite Hq in Hs.
    apply sorted_queue_app_r in Hs. by destruct Hs. }
  replace fuel with (length skipped + S (fuel - S (length skipped)))%nat by lia.
  rewrite (get_next_task_skips now skipped self ((sc, id) :: rest)); [|done|].
  2:{ intros p Hp. split; [by apply Hskip|].
      apply (queue_known self Hwf). rewrite Hq. apply elem_of_app. by left. }
  rewrite get_next_task_fuel_step. cbn [task_queue with_queue tasks].
  unfold get_task in Hget. rewrite Hget.
  rewrite bool_decide_eq_false_2 by done.
  change (dependencies_met (with_queue ((sc, id) :: rest) self) task)
    with (dependencies_met self task).
  rewrite (proj2 (dependencies_met_iff self task)) by done. cbn [negb].
  change (resource_monitor (with_queue ((sc, id) :: rest) self))
    with (resource_monitor self).
  destruct (can_execute_task (resource_monitor self) task); cbn [negb].
  - eexists _, _. split; [done|]. split; [done|].
    split; [done|]. split; [done|]. split; [done|]. split; [|done].
    unfold get_task. cbn [tasks]. apply lookup_insert_eq.
  - eexists _, _. split; [done|]. split; [done|]. by cbn.
Qed.

Lemma three_tasks_queue :
  task_queue three_tasks = [] ++ (-2, "big") :: [(-1, "a"); (-1, "b")].
Proof. by vm_compute. Qed.

Lemma get_next_task_first_ready_witness :
  exists self',
    get_next_task_fuel 1 7 three_tasks = Some (self', Returned None)
    /\ task_queue self' = [(-2, "big"); (-1, "a"); (-1, "b")].
Proof.
  destruct (get_next_task_first_ready 7 three_tasks [] (-2) "big"
              [(-1, "a"); (-1, "b")]
              (new_task "big" "" "" HIGH 1 {["memory" := 2000%Q]} []) 1
              three_tasks_reachable three_tasks_queue)
    as (self' & r & Hrun & _ & _ & Hcase).
  - intros p Hp. by apply elem_of_nil in Hp.
  - intros [H|H]; by vm_compute in H.
  - by vm_compute.
  - intros dep Hdep. by apply elem_of_nil in Hdep.
  - cbn. lia.
  - assert (Hcan : can_execute_task (resource_monitor three_tasks)
             (new_task "big" "" "" HIGH 1 {["memory" := 2000%Q]} []) = false)
      by (by vm_compute).
    rewrite Hcan in Hcase. destruct Hcase as (-> & Hq & _).
    exists self'. split; [exact Hrun | exact Hq].
Defined.

(** *** A completed task *)

Lemma get_next_task_completed fuel now : forall self self' o,
  get_next_task_fuel fuel now self = Some (self', o) ->
  completed_tasks self' = completed_tasks self.
Proof.
  induction fuel as [|fuel IH]; intros self self' o Hrun; [done|].
  rewrite get_next_task_fuel_step in Hrun.
  destruct (task_queue self) as [|[sc id] rest]; [by injection Hrun as <- <-|].
  destruct (tasks self !! id) as [task|]; [|by injection Hrun as <- <-].
  case_bool_decide; [by apply IH in Hrun|].
  destruct (dependencies_met self task); cbn [negb] in Hrun; [|by apply IH in Hrun].
  destruct (can_execute_task (resource_monitor self) task); cbn [negb] in Hrun;
    by injection Hrun as <- <-.
Qed.

Lemma step_completed self self' :
  step self self' -> completed_tasks self ⊆ completed_tasks self'.
Proof.
  intros Hstep. destruct Hstep as [task self self' id Hadd| fuel now self self' o Hrun
                                  | now id res self | now id err self | m self].
  - unfold add_task in Hadd. destruct (tasks self !! task_id task); [done|].
    by injection Hadd as <- <-.
  - by rewrite (get_next_task_completed fuel now self self' o Hrun).
  - unfold mark_task_completed. destruct (get_task self id); cbn; set_solver.
  - unfold mark_task_failed. destruct (get_task self id); [|done].
    by destruct (requeue_after err).
  - done.
Qed.

Lemma rtc_completed self self' :
  rtc step self self' -> completed_tasks self ⊆ completed_tasks self'.
Proof.
  intros Hsteps. induction Hsteps as [|x y z Hxy _ IH]; [done|].
  etrans; [by apply step_completed | done].
Qed.

(** [mark_task_completed] returns false for an unknown id and changes
    nothing; for a known id it returns true, stores the result, sets the
    status to "completed" and moves the id from [scheduled_tasks] to
    [completed_tasks]. From a reachable state on, a completed id stays
    in [completed_tasks] through every later call, and [get_next_task]
    never returns that task again, also not after [mark_task_failed] has
    put it back into the queue. *)
Theorem completed_task_never_handed_out :
  forall now id res self,
    reachable self ->
    let r := mark_task_completed now id res self in
    (snd r = true <-> is_Some (get_task self id))
    /\ (snd r = false -> fst r = self)
    /\ (snd r = true ->
          (status <$> get_task (fst r) id) = Some completed
          /\ (result <$> get_task (fst r) id) = Some res
          /\ id ∈ completed_tasks (fst r)
          /\ (id ∉ scheduled_tasks (fst r))
          /\ task_queue (fst r) = task_queue self
          /\ forall later fuel now' self' t,
               rtc step (fst r) later ->
               get_next_task_fuel fuel now' later = Some (self', Returned (Some t)) ->
               id ∈ completed_tasks later /\ task_id t <> id).
Proof.
  intros now id res self Hr r. subst r.
  pose proof (reachable_well_formed self Hr) as Hwf.
  pose proof (well_formed_mark_task_completed now id res self Hwf) as Hwf'.
  unfold mark_task_completed in *. destruct (get_task self id) as [task|] eqn:Et.
  - cbn [fst snd] in *. split; [split; [by eexists | done]|]. split; [done|].
    intros _. unfold get_task. cbn [tasks completed_tasks scheduled_tasks task_queue].
    rewrite lookup_insert_eq. cbn.
    split; [done|]. split; [done|]. split; [set_solver|]. split; [set_solver|].
    split; [done|].
    intros later fuel now' self' t Hsteps Hrun.
    assert (Hin : id ∈ completed_tasks later).
    { apply (rtc_completed _ _ Hsteps). cbn. set_solver. }
    split; [done|].
    destruct (get_next_task_sound fuel now' later self' t Hrun)
      as (id' & task' & Hget & _ & -> & Hnot & _).
    pose proof (well_formed_rtc _ _ Hwf' Hsteps) as Hwfl.
    cbn. rewrite (key_is_id later Hwfl id' task' Hget).
    intros ->. apply Hnot. by right.
  - cbn [fst snd]. split; [split; [done | by intros [? ?]]|]. split; [done|]. done.
Qed.

Lemma completed_task_never_handed_out_witness :
  let r := mark_task_completed 9 "job" (Some "ok") handed_out in
  snd r = true /\ "job" ∈ completed_tasks (fst r).
Proof.
  assert (Hr : reachable handed_out).
  { exists new_monitor.
    eapply rtc_l; [eapply (step_add_task job); reflexivity|].
    eapply rtc_l; [eapply (step_get_next_task 1 5); reflexivity|].
    apply rtc_refl. }
  destruct (completed_task_never_handed_out 9 "job" (Some "ok") handed_out Hr)
    as (_ & _ & Hdone).
  assert (Hok : snd (mark_task_completed 9 "job" (Some "ok") handed_out) = true)
    by (by vm_compute).
  split; [exact Hok|]. exact (proj1 (proj2 (proj2 (Hdone Hok)))).
Defined.

End SleepFacts.

(** ** Micro-batching *)

Module BatchingFacts.
Import TaskOrchestrator MicroBatching Cases.Batching.

Lemma slice_split {A} (l : list A) k : slice_to l k ++ slice_from l k = l.
Proof. apply take_drop. Qed.

Lemma slice_to_length {A} (l : list A) k :
  0 <= k -> Z.of_nat (length (slice_to l k)) = Z.min k (Z.of_nat (length l)).
Proof.
  intros Hk. unfold slice_to, slice_index.
  rewrite (proj2 (Z.ltb_ge k 0)) by done. rewrite length_take. lia.
Qed.

Lemma with_pending_same self : with_pending (pending_tasks self) self = self.
Proof. by destruct self. Qed.

Lemma slice_to_nil {A} (l : list A) k : slice_to l k = [] -> slice_from l k = l.
Proof. intros H. by rewrite <- (slice_split l k) at 2; rewrite H. Qed.

Lemma form_batch_frame config self :
  snd (form_batch config self) ++ pending_tasks (fst (form_batch config self))
  = pending_tasks self
  /\ active_batches (fst (form_batch config self)) = active_batches self
  /\ completed_batches (fst (form_batch config self)) = completed_batches self
  /\ default_config (fst (form_batch config self)) = default_config self
  /\ (snd (form_batch config self) = [] -> fst (form_batch config self) = self).
Proof.
  unfold form_batch.
  destruct (pending_tasks self) as [|t l] eqn:E; [cbn [fst snd]; by rewrite E|].
  destruct (_ <? _); cbn [fst snd]; [by rewrite E|].
  rewrite <- E. split; [apply slice_split|]. split; [done|]. split; [done|].
  split; [done|]. intros H%slice_to_nil. rewrite H. apply with_pending_same.
Qed.

Lemma form_optimal_batch_frame evaluate rule_ids self :
  let r := form_optimal_batch evaluate rule_ids self in
  snd r ++ pending_tasks (fst r) = pending_tasks self
  /\ active_batches (fst r) = active_batches self
  /\ completed_batches (fst r) = completed_batches self
  /\ default_config (fst r) = default_config self
  /\ (snd r = [] -> fst r = self).
Proof.
  cbv zeta. unfold form_optimal_batch.
  destruct (pending_tasks self) as [|t l] eqn:E; [cbn [fst snd]; by rewrite E|].
  destruct (recommended evaluate rule_ids (t :: l)) as [|z zs];
    [rewrite <- E; apply form_batch_frame|].
  cbn [fst snd]. rewrite <- E. split; [apply slice_split|].
  split; [done|]. split; [done|]. split; [done|].
  intros H%slice_to_nil. rewrite H. apply with_pending_same.
Qed.

(** [form_batch] and [form_optimal_batch] cut the batch off the front
    of the queue: the batch followed by the tasks left pending is the
    queue as it was, for every configuration and every recommendation,
    a negative size included, and nothing else of the controller
    changes. With a minimum size of at least 1, [form_batch] returns a
    batch exactly when min(max_batch_size, number pending) reaches the
    minimum, and the batch then has that many tasks. When no rule gives
    a size, [form_optimal_batch] is [form_batch] under the default
    configuration. *)
Theorem batch_is_front_of_queue :
  forall config evaluate rule_ids self,
    let r := form_batch config self in
    let o := form_optimal_batch evaluate rule_ids self in
    let cfg := default (default_config self) config in
    let size :=
      Z.min (max_batch_size cfg) (Z.of_nat (length (pending_tasks self))) in
    snd r ++ pending_tasks (fst r) = pending_tasks self
    /\ snd o ++ pending_tasks (fst o) = pending_tasks self
    /\ (snd r = [] -> fst r = self)
    /\ (snd o = [] -> fst o = self)
    /\ (1 <= min_batch_size cfg ->
          (snd r <> [] <-> min_batch_size cfg <= size)
          /\ (snd r <> [] -> Z.of_nat (length (snd r)) = size))
    /\ (recommended evaluate rule_ids (pending_tasks self) = [] ->
          o = form_batch None self).
Proof.
  intros config evaluate rule_ids self r o cfg size. subst r o.
  destruct (form_batch_frame config self) as (H1 & _ & _ & _ & H2).
  destruct (form_optimal_batch_frame evaluate rule_ids self) as (H3 & _ & _ & _ & H4).
  split; [done|]. split; [done|]. split; [done|]. split; [done|]. split.
  - intros Hmin. subst size cfg. unfold form_batch.
    destruct (pending_tasks self) as [|t l] eqn:E.
    { cbn [snd length]. split; [split; [done|lia]|done]. }
    rewrite <- E. set (cfg := default (default_config self) config) in *.
    set (size := Z.min (max_batch_size cfg) (Z.of_nat (length (pending_tasks self)))).
    destruct (Z.ltb_spec size (min_batch_size cfg)) as [Hlt|Hge]; cbn [snd].
    + split; [split; [done|lia]|done].
    + assert (Hlen : Z.of_nat (length (slice_to (pending_tasks self) size)) = size).
      { rewrite slice_to_length by lia. subst size. lia. }
      split; [|done]. split; [done|]. intros _ Hnil. rewrite Hnil in Hlen.
      cbn in Hlen. lia.
  - intros Hnone. unfold form_optimal_batch. rewrite Hnone.
    destruct (pending_tasks self) eqn:E; [|done].
    unfold form_batch. by rewrite E.
Qed.

Lemma batch_is_front_of_queue_witness :
  length (snd (form_batch (Some threes) seven_pending)) = 3%nat
  /\ snd (form_batch (Some threes) seven_pending)
     ++ pending_tasks (fst (form_batch (Some threes) seven_pending))
     = pending_tasks seven_pending.
Proof.
  destruct (batch_is_front_of_queue (Some threes) (fun _ _ => None) [] seven_pending)
    as (Hsplit & _ & _ & _ & Hsize & _).
  split; [|exact Hsplit].
  destruct Hsize as [Hiff Hlen]; [by vm_compute|].
  apply Nat2Z.inj. rewrite Hlen; [by vm_compute|].
  apply Hiff. by vm_compute.
Defined.

(** *** Processing the queue *)

Section Loop.
Variable processor_func : nat -> list Task -> string + Payload.
Variable clock : nat -> Q.
Variable config : option BatchConfig.
Variable evaluate : string -> list Task -> option Z.
Variable rule_ids : list string.
Variable use_rules : bool.

Lemma former_frame self :
  let r := if use_rules then form_optimal_batch evaluate rule_ids self
           else form_batch config self in
  snd r ++ pending_tasks (fst r) = pending_tasks self
  /\ active_batches (fst r) = active_batches self
  /\ completed_batches (fst r) = completed_batches self
  /\ default_config (fst r) = default_config self
  /\ (snd r = [] -> fst r = self).
Proof.
  destruct use_rules; [apply form_optimal_batch_frame | apply form_batch_frame].
Qed.

Lemma process_batches_fuel_spec fuel : forall turn results self,
  (length (pending_tasks self) < fuel)%nat ->
  exists self' batches,
    process_batches_fuel fuel processor_func clock config evaluate rule_ids
      use_rules turn results self
    = Some (self',
            results ++ imap (result_of processor_func clock
                               (length (active_batches self)) turn) batches)
    /\ concat batches ++ pending_tasks self' = pending_tasks self
    /\ Forall (fun b => b <> []) batches
    /\ completed_batches self'
       = completed_batches self
         ++ imap (completed_of processor_func clock
                    (length (active_batches self)) turn) batches
    /\ active_batches self' = active_batches self
    /\ default_config self' = default_config self
    /\ (pending_tasks self' <> [] ->
          snd (if use_rules then form_optimal_batch evaluate rule_ids self'
               else form_batch config self') = []).
Proof.
  induction fuel as [|fuel IH]; intros turn results self Hfuel; [lia|].
  cbn [process_batches_fuel].
  destruct (pending_tasks self) as [|t l] eqn:E.
  { exists self, []. cbn. rewrite !app_nil_r, E.
    split; [done|]. split; [done|]. split; [done|]. split; [done|].
    split; [done|]. split; [done|]. by intros H. }
  rewrite <- E in *. clear E t l.
  destruct (former_frame self) as (Hsplit & Hact & Hcomp & Hcfg & Hnil).
  destruct (if use_rules then form_optimal_batch evaluate rule_ids self
            else form_batch config self) as [s1 batch] eqn:Ef.
  cbn [fst snd] in *.
  destruct batch as [|t batch].
  { rewrite (Hnil eq_refl) in *. exists self, []. cbn. rewrite !app_nil_r.
    split; [done|]. split; [done|]. split; [done|]. split; [done|].
    split; [done|]. split; [done|]. intros _. by rewrite Ef. }
  set (s2 := {| pending_tasks := pending_tasks s1;
                active_batches := active_batches s1;
                completed_batches := _; default_config := default_config s1 |}).
  destruct (IH (S turn) (results ++ [{| batch_id := (seconds (clock turn),
                                                      length (active_batches s1));
                                       task_count := length (t :: batch);
                                       batch_outcome :=
                                         processor_func turn (t :: batch) |}]) s2)
    as (self' & batches & Hrun & Hcat & Hne & Hc & Ha & Hd & Hstop).
  { cbn [pending_tasks s2]. rewrite <- Hsplit in Hfuel.
    rewrite length_app in Hfuel. cbn [length] in Hfuel. lia. }
  exists self', ((t :: batch) :: batches).
  cbn [pending_tasks active_batches completed_batches default_config s2] in *.
  rewrite Hact in *.
  split.
  { rewrite Hrun. f_equal. f_equal. rewrite <- app_assoc. f_equal.
    cbn [imap app]. unfold result_of at 2. rewrite Nat.add_0_r. f_equal.
    apply imap_ext. intros i b _. unfold result_of, compose.
    by rewrite Nat.add_succ_r. }
  split. { cbn [concat]. rewrite <- app_assoc, Hcat. done. }
  split. { by constructor. }
  split.
  { rewrite Hc, Hcomp, <- app_assoc. f_equal.
    cbn [imap app]. unfold completed_of at 2. rewrite Nat.add_0_r. f_equal.
    apply imap_ext. intros i b _. unfold completed_of, compose.
    by rewrite Nat.add_succ_r. }
  split; [by rewrite Ha|]. split; [by rewrite Hd, Hcfg|]. done.
Qed.

End Loop.

(** [process_batches] returns for every processor, configuration and
    rule set. The batches it formed, in order and each non-empty,
    followed by the tasks still pending, are the queue as it was: every
    task is processed at most once and in the order of arrival. Each
    batch is recorded in [completed_batches] and answered in the result
    list with its size and the processor's result or error, so that a
    batch whose processor raises does not stop the later ones. Tasks
    stay pending only when no further batch can be formed from them. All
    batches formed within one second carry the same batch id. *)
Theorem process_batches_in_arrival_order :
  forall processor_func clock config evaluate rule_ids use_rules self,
    exists self' batches,
      process_batches processor_func clock config evaluate rule_ids use_rules self
      = Some (self',
              imap (result_of processor_func clock
                      (length (active_batches self)) 0) batches)
      /\ concat batches ++ pending_tasks self' = pending_tasks self
      /\ Forall (fun b => b <> []) batches
      /\ completed_batches self'
         = completed_batches self
           ++ imap (completed_of processor_func clock
                      (length (active_batches self)) 0) batches
      /\ active_batches self' = active_batches self
      /\ (pending_tasks self' <> [] ->
            snd (if use_rules then form_optimal_batch evaluate rule_ids self'
                 else form_batch config self') = []).
Proof.
  intros processor_func clock config evaluate rule_ids use_rules self.
  destruct (process_batches_fuel_spec processor_func clock config evaluate
              rule_ids use_rules (S (length (pending_tasks self))) 0 [] self)
    as (self' & batches & Hrun & Hcat & Hne & Hc & Ha & _ & Hstop); [lia|].
  exists self', batches. done.
Qed.

Lemma process_batches_in_arrival_order_witness :
  exists self' batches,
    process_batches first_fails (fun _ => 100%Q) (Some threes) (fun _ _ => None) []
      false seven_pending
    = Some (self', imap (result_of first_fails (fun _ => 100%Q) 0 0) batches)
    /\ concat batches ++ pending_tasks self' = pending_tasks seven_pending.
Proof.
  destruct (process_batches_in_arrival_order first_fails (fun _ => 100%Q)
              (Some threes) (fun _ _ => None) [] false seven_pending)
    as (self' & batches & Hrun & Hcat & _).
  exists self', batches. split; [exact Hrun | exact Hcat].
Defined.

End BatchingFacts.
